(** * serverless-storage: locking protocol, storage facade and two adapters

    A shallow embedding of the TypeScript sources

      - [src/utils.ts]                                  (acquireLock, waitForTime)
      - [src/storage_manager/index.ts]                  (the two interfaces)
      - [src/storage_manager/lockable_storage_manager.ts]
      - [src/storage_manager/dynamo_locking_manager.ts]
      - [src/storage_manager/local_file_storage_manager.ts]

    An [async] method is a state transformer over a world [W] that either
    returns a value or throws a JavaScript error; [await e] is monadic bind.
    A single task is followed from start to end: interleaving with other
    tasks at the suspension points is outside the model. *)

From Equations Require Import Equations.
From stdpp Require Import gmap strings list.
From Stdlib Require Import ZArith NArith Lia.

Open Scope Z_scope.

(* ===================================================================== *)
(** * JavaScript values used by the sources                              *)
(* ===================================================================== *)

Module Js.

(** A JavaScript string is a sequence of UTF-16 code units. *)
Definition JsString := list N.

(** An ASCII literal as a JavaScript string. *)
Definition js (s : string) : JsString :=
  (fun a => Ascii.N_of_ascii a) <$> String.list_ascii_of_string s.

(** The fields of [Error], [NodeJS.ErrnoException] and [AWS.AWSError]
    that the sources read. *)
Record JsError := mkError {
    name : JsString;
    message : JsString;
    code : option JsString;
    statusCode : option Z
  }.

(** [new Error(msg)] *)
Definition Error (msg : JsString) : JsError :=
  {| name := js "Error"; message := msg; code := None; statusCode := None |}.

(** How a call ends: [return v] or [throw e]. *)
Inductive Outcome (A : Type) :=
  | Returned (v : A)
  | Thrown (e : JsError).
Arguments Returned {A} v.
Arguments Thrown {A} e.

(** An async computation over the world [W]. *)
Definition Async (W A : Type) : Type := W -> Outcome A * W.

Definition ret {W A} (v : A) : Async W A := fun w => (Returned v, w).

Definition throw {W A} (e : JsError) : Async W A := fun w => (Thrown e, w).

Definition bind {W A B} (c : Async W A) (k : A -> Async W B) : Async W B :=
  fun w =>
    match c w with
    | (Returned v, w') => k v w'
    | (Thrown e, w') => (Thrown e, w')
    end.

(** [try { body } catch (err) { handler }] *)
Definition try_catch {W A} (body : Async W A) (handler : JsError -> Async W A)
  : Async W A :=
  fun w =>
    match body w with
    | (Returned v, w') => (Returned v, w')
    | (Thrown e, w') => handler e w'
    end.

(** A statement executed for its effect on the world only. *)
Definition effect {W} (f : W -> W) : Async W unit := fun w => (Returned tt, f w).

Definition is_returned {A} (o : Outcome A) : bool :=
  match o with Returned _ => true | Thrown _ => false end.

End Js.
Export Js.

Declare Scope async_scope.
Delimit Scope async_scope with async.
Notation "'await!' x ':=' c 'in' k" := (bind c (fun x => k))
  (at level 10, x name, c at level 100, k at level 200) : async_scope.
Notation "c ';;;' k" := (bind c (fun _ => k))
  (at level 100, k at level 200, right associativity) : async_scope.
Open Scope async_scope.

(* ===================================================================== *)
(** * src/storage_manager/index.ts: the two capability interfaces         *)
(* ===================================================================== *)

Module Index.

(** [interface IStorageManager] *)
Record IStorageManager (W : Type) := {
  write : JsString -> JsString -> Async W unit;    (* write(data, path) *)
  read : JsString -> JsString -> Async W JsString; (* read(path, __default) *)
  delete : JsString -> Async W unit;
  exists_ : JsString -> Async W bool
}.
Arguments write {W} _ _ _ _.
Arguments read {W} _ _ _ _.
Arguments delete {W} _ _ _.
Arguments exists_ {W} _ _ _.

(** [interface ILockingManager] *)
Record ILockingManager (W : Type) := {
  lock : JsString -> Async W bool;
  unlock : JsString -> Async W bool;
  isLocked : JsString -> Async W bool
}.
Arguments lock {W} _ _ _.
Arguments unlock {W} _ _ _.
Arguments isLocked {W} _ _ _.

End Index.
Export Index.

(* ===================================================================== *)
(** * The host: console, clock and timer                                        *)
(* ===================================================================== *)

Module Host.

(** What is printed.  Template strings and [JSON.stringify] are kept as
    the pieces they are built from. *)
Inductive Printed :=
| PText (s : JsString)
| PError (e : JsError)
| PJson (tableName : JsString) (e_name e_message : JsString)
  (e_statusCode : option Z) (e_code : option JsString).

Inductive ConsoleLine :=
| LogLine (parts : list Printed)     (* console.log *)
| ErrorLine (parts : list Printed).  (* console.error *)

Class Console (W : Type) := console_print : ConsoleLine -> W -> W.

(** [new Date().getTime()], in milliseconds. *)
Class Clock (W : Type) := Date_getTime : W -> Z.

Definition console_log {W} `{Console W} (parts : list Printed) : Async W unit :=
  effect (console_print (LogLine parts)).

Definition console_error {W} `{Console W} (parts : list Printed) : Async W unit :=
  effect (console_print (ErrorLine parts)).

(** [new Promise(resolve => setTimeout(resolve, ms))] *)
Class Timers (W : Type) := setTimeout_promise : Z -> Async W unit.

End Host.
Export Host.

(* ===================================================================== *)
(** * src/utils.ts                                                        *)
(* ===================================================================== *)

Module Utils.

(** [class AcquireLockError extends Error] *)
Definition AcquireLockError (msg : JsString) : JsError :=
  {| name := js "AcquireLockError"; message := msg;
     code := None; statusCode := None |}.

(** [waitForTime(ms)] *)
Definition waitForTime {W} `{Timers W} (ms : Z) : Async W unit :=
  setTimeout_promise ms.

Section AcquireLock.
Context {W : Type} `{Timers W}.
Variable pathToLock : JsString.
Variable lockingManager : ILockingManager W.
Variables maxRetry retryWait : Z.

(** The loop [for (let i = 0; i < maxRetry; i++) { ... }] from the
    state in which the counter is [i], followed by the [throw] after
    it.  The numbers are JavaScript integers. *)
Equations? acquireLock_from (i : Z) : Async W unit
  by wf (Z.to_nat (maxRetry - i)) lt :=
  acquireLock_from i with Z_lt_dec i maxRetry := {
    | left _ =>
        await! lockAcquired := Index.lock lockingManager pathToLock in
        if (lockAcquired : bool) then ret tt
        else
          (if i <? maxRetry then waitForTime retryWait else ret tt) ;;;
          acquireLock_from (i + 1)
    | right _ =>
        throw (AcquireLockError
                 (js "Could not acquire lock on path " ++ pathToLock ++ js "."))
  }.
Proof. lia. Qed.

Definition acquireLock : Async W unit := acquireLock_from 0.
End AcquireLock.

(** The error [acquireLock] ends with when it gives up on [path]. *)
Definition gave_up (path : JsString) : JsError :=
  AcquireLockError (js "Could not acquire lock on path " ++ path ++ js ".").

(** [getTimestamp()]: [Math.floor(now.getTime() / 1000)] *)
Definition getTimestamp {W} `{Clock W} : Async W Z :=
  fun w => (Returned (Date_getTime w / 1000), w).

End Utils.

(* ===================================================================== *)
(** * src/storage_manager/lockable_storage_manager.ts                     *)
(* ===================================================================== *)

Module LockableStorageManager.

(** [type LockableStorageMangerInput]: both members are optional. *)
Record LockableStorageMangerInput (W : Type) := {
    storageManager : option (IStorageManager W);
    lockingManager : option (ILockingManager W)
  }.
Arguments storageManager {W} _.
Arguments lockingManager {W} _.

Section Methods.
Context {W : Type}.
Variable params : LockableStorageMangerInput W.

Definition read (path __default : JsString) : Async W JsString :=
  match storageManager params with
  | None =>
      throw (Error (js "[LockableStorageManager][read] Trying to use storage manager which does not exist."))
  | Some sm => await! r := Index.read sm path __default in ret r
  end.

Definition write (data path : JsString) : Async W unit :=
  match storageManager params with
  | None =>
      throw (Error (js "[LockableStorageManager][write] Trying to use storage manager which does not exist."))
  | Some sm => await! r := Index.write sm data path in ret r
  end.

Definition delete (path : JsString) : Async W unit :=
  match storageManager params with
  | None =>
      throw (Error (js "[LockableStorageManager][delete] Trying to use storage manager which does not exist."))
  | Some sm => await! r := Index.delete sm path in ret r
  end.

Definition exists_ (path : JsString) : Async W bool :=
  match storageManager params with
  | None =>
      throw (Error (js "[LockableStorageManager][exists] Trying to use storage manager which does not exist."))
  | Some sm => await! r := Index.exists_ sm path in ret r
  end.

Definition lock (path : JsString) : Async W bool :=
  match lockingManager params with
  | None =>
      throw (Error (js "[LockableStorageManager][lock] Trying to use locking manager which does not exist."))
  | Some lm => await! r := Index.lock lm path in ret r
  end.

Definition unlock (path : JsString) : Async W bool :=
  match lockingManager params with
  | None =>
      throw (Error (js "[LockableStorageManager][unlock] Trying to use locking manager which does not exist."))
  | Some lm => await! r := Index.unlock lm path in ret r
  end.

Definition isLocked (path : JsString) : Async W bool :=
  match lockingManager params with
  | None =>
      throw (Error (js "[LockableStorageManager][isLocked] Trying to use locking manager which does not exist."))
  | Some lm => await! r := Index.isLocked lm path in ret r
  end.

(** [implements ILockableStorageManager]: the facade is itself a
    storage manager and a locking manager. *)
Definition as_storage : IStorageManager W :=
  {| Index.write := write; Index.read := read;
     Index.delete := delete; Index.exists_ := exists_ |}.

Definition as_locking : ILockingManager W :=
  {| Index.lock := lock; Index.unlock := unlock; Index.isLocked := isLocked |}.
End Methods.

End LockableStorageManager.

Module Facade := LockableStorageManager.

(* ===================================================================== *)
(** * Observing the calls a component makes on its backends               *)
(* ===================================================================== *)

(** A spy around the two backends and the timer: every call that reaches
    a backend, and every wait, is appended to [events]. *)
Module Spy.

Inductive Event :=
  | EvWrite (data path : JsString)
  | EvRead (path __default : JsString)
  | EvDelete (path : JsString)
  | EvExists (path : JsString)
  | EvLock (path : JsString)
  | EvUnlock (path : JsString)
  | EvIsLocked (path : JsString)
  | EvWait (ms : Z).

Record Observed (SS SL : Type) := mkObserved {
    storage_state : SS;
    locking_state : SL;
    events : list Event
  }.
Arguments mkObserved {SS SL} _ _ _.
Arguments storage_state {SS SL} _.
Arguments locking_state {SS SL} _.
Arguments events {SS SL} _.

Section Spy.
Context {SS SL : Type}.

Definition on_storage {A} (ev : Event) (c : Async SS A) : Async (Observed SS SL) A :=
  fun w =>
    let '(o, s) := c (storage_state w) in
    (o, mkObserved s (locking_state w) (events w ++ [ev])).

Definition on_locking {A} (ev : Event) (c : Async SL A) : Async (Observed SS SL) A :=
  fun w =>
    let '(o, s) := c (locking_state w) in
    (o, mkObserved (storage_state w) s (events w ++ [ev])).

Definition spy_storage (sm : IStorageManager SS) : IStorageManager (Observed SS SL) :=
  {| Index.write := fun d p => on_storage (EvWrite d p) (Index.write sm d p);
     Index.read := fun p d => on_storage (EvRead p d) (Index.read sm p d);
     Index.delete := fun p => on_storage (EvDelete p) (Index.delete sm p);
     Index.exists_ := fun p => on_storage (EvExists p) (Index.exists_ sm p) |}.

Definition spy_locking (lm : ILockingManager SL) : ILockingManager (Observed SS SL) :=
  {| Index.lock := fun p => on_locking (EvLock p) (Index.lock lm p);
     Index.unlock := fun p => on_locking (EvUnlock p) (Index.unlock lm p);
     Index.isLocked := fun p => on_locking (EvIsLocked p) (Index.isLocked lm p) |}.

#[global] Instance observed_timers : Timers (Observed SS SL) :=
  fun ms w =>
    (Returned tt,
     mkObserved (storage_state w) (locking_state w) (events w ++ [EvWait ms])).
End Spy.

Definition is_wait (ev : Event) : bool :=
  match ev with EvWait _ => true | _ => false end.

Definition is_lock_call (ev : Event) : bool :=
  match ev with EvLock _ | EvUnlock _ | EvIsLocked _ => true | _ => false end.

(** Number of waits in a run, and the time asked of the timer in total. *)
Definition waits (evs : list Event) : nat := length (List.filter is_wait evs).

Definition waited_ms (evs : list Event) : Z :=
  foldr (fun ev acc => match ev with EvWait ms => ms + acc | _ => acc end) 0 evs.

Definition lock_calls (evs : list Event) : nat :=
  length (List.filter is_lock_call evs).

(** A locking backend that answers from a script: each [lock] consumes
    the next answer, and answers [false] once the script is used up. *)
Definition scripted : ILockingManager (list (Outcome bool)) :=
  {| Index.lock := fun _ s =>
       match s with
       | [] => (Returned false, [])
       | o :: s' => (o, s')
       end;
     Index.unlock := fun _ s => (Returned false, s);
     Index.isLocked := fun _ s => (Returned false, s) |}.

(** The outcomes of the first [n] calls of [lock path], and the state
    of the backend after them. *)
Fixpoint lock_outcomes {SL} (lm : ILockingManager SL) (path : JsString)
    (n : nat) (s : SL) : list (Outcome bool) * SL :=
  match n with
  | O => ([], s)
  | S n' =>
      let '(o, s') := Index.lock lm path s in
      let '(os, s'') := lock_outcomes lm path n' s' in
      (o :: os, s'')
  end.

(** One failed attempt of [acquireLock] as the spy records it: the call,
    then the wait; and [k] of them in a row. *)
Definition failed_attempt (path : JsString) (ms : Z) : list Event :=
  [EvLock path; EvWait ms].

Definition failed_attempts (path : JsString) (ms : Z) (k : nat) : list Event :=
  concat (repeat (failed_attempt path ms) k).

End Spy.
Import Spy.

(* ===================================================================== *)
(** * The part of aws-sdk the locking manager calls                       *)
(* ===================================================================== *)

Module AWS.

Inductive AttributeValue :=
| AttrS (s : JsString)
| AttrN (n : Z).

#[global] Instance AttributeValue_eq_dec : EqDecision AttributeValue.
Proof. solve_decision. Defined.

(** An item: attribute name to value. *)
Abbreviation ItemMap := (gmap JsString AttributeValue).

(** The two condition expressions the sources send. *)
Inductive ConditionExpression :=
| attribute_not_exists (attr : JsString)
| attribute_exists (attr : JsString).

Record PutItemInput := {
  put_TableName : JsString;
  put_Item : ItemMap;
  put_ConditionExpression : option ConditionExpression
}.

Record DeleteItemInput := {
  del_TableName : JsString;
  del_Key : ItemMap;
  del_ConditionExpression : option ConditionExpression
}.

Record GetItemInput := {
  get_TableName : JsString;
  get_Key : ItemMap
}.

Record GetItemOutput := { Item : option ItemMap }.

(** [AWS.DynamoDB.DocumentClient]: [put(params).promise()] and so on.
    A rejected promise carries an [AWS.AWSError]. *)
Class DocumentClient (W : Type) := {
  put : PutItemInput -> Async W unit;
  delete : DeleteItemInput -> Async W unit;
  get : GetItemInput -> Async W GetItemOutput
}.

End AWS.

(* ===================================================================== *)
(** * src/storage_manager/dynamo_locking_manager.ts                       *)
(* ===================================================================== *)

Module DynamoLockingManager.

(** The constructor's parameters ([private] members of the class). *)
Record t := {
  tableName : JsString;
  awsAccessKey : option JsString;
  awsSecretKey : option JsString;
  awsRegion : option JsString;
  timeToLiveDurationInSeconds : Z
}.

(** [constructor(tableName, awsAccessKey?, awsSecretKey?, awsRegion?,
    timeToLiveDurationInSeconds = 900)].  The empty string is the only
    falsy table name.  The client the methods use is the [DocumentClient]
    of the world. *)
Definition new (tableName : JsString) (awsAccessKey awsSecretKey awsRegion : option JsString)
    (timeToLiveDurationInSeconds : option Z) : Outcome t :=
  match tableName with
  | [] => Thrown (Error (js "[DynamoLockingManager] The table name cannot be empty"))
  | _ =>
      Returned {| tableName := tableName;
                  awsAccessKey := awsAccessKey;
                  awsSecretKey := awsSecretKey;
                  awsRegion := awsRegion;
                  timeToLiveDurationInSeconds := default 900 timeToLiveDurationInSeconds |}
  end.

Section Methods.
Context {W : Type} `{AWS.DocumentClient W} `{Clock W} `{Console W}.
Variable this : t.

(** The file's own [getTimestamp()]. *)
Definition getTimestamp : Async W Z :=
  fun w => (Returned (Date_getTime w / 1000), w).

(** The object handed to [JSON.stringify] in the three [catch] blocks. *)
Definition report (error : JsError) : Printed :=
  PJson (tableName this) (name error) (message error) (statusCode error) (code error).

(** The [params] object of [lock]. *)
Definition lock_params (path : JsString) (createdAt : Z) : AWS.PutItemInput :=
  {| AWS.put_TableName := tableName this;
     AWS.put_Item :=
       <[js "id" := AWS.AttrS path]>
         (<[js "createdAt" := AWS.AttrN createdAt]>
            (<[js "expireAt" := AWS.AttrN (createdAt + timeToLiveDurationInSeconds this)]> ∅));
     AWS.put_ConditionExpression := Some (AWS.attribute_not_exists (js "id")) |}.

Definition lock (path : JsString) : Async W bool :=
  await! createdAt := getTimestamp in
  let params := lock_params path createdAt in
  try_catch
    (AWS.put params ;;; ret true)
    (fun error =>
       console_error [PText (js "[Error][DynamoLockingManager.lock] "); report error] ;;;
       ret false).

(** The [params] object of [unlock]. *)
Definition unlock_params (path : JsString) : AWS.DeleteItemInput :=
  {| AWS.del_TableName := tableName this;
     AWS.del_Key := {[ js "id" := AWS.AttrS path ]};
     AWS.del_ConditionExpression := Some (AWS.attribute_exists (js "id")) |}.

Definition unlock (path : JsString) : Async W bool :=
  let params := unlock_params path in
  try_catch
    (AWS.delete params ;;; ret true)
    (fun error =>
       console_error [PText (js "[Error][DynamoLockingManager.unlock] "); report error] ;;;
       ret false).

(** The [params] object of [isLocked]. *)
Definition isLocked_params (path : JsString) : AWS.GetItemInput :=
  {| AWS.get_TableName := tableName this;
     AWS.get_Key := {[ js "id" := AWS.AttrS path ]} |}.

Definition isLocked (path : JsString) : Async W bool :=
  let params := isLocked_params path in
  try_catch
    (await! response := AWS.get params in
     (* The lock exists if the item is found in the DynamoDB table *)
     ret (bool_decide (is_Some (AWS.Item response))))
    (fun error =>
       console_error [PText (js "[Error][DynamoLockingManager.isLocked] "); report error] ;;;
       ret false).

(** [implements ILockingManager] *)
Definition as_locking : ILockingManager W :=
  {| Index.lock := lock; Index.unlock := unlock; Index.isLocked := isLocked |}.

End Methods.

End DynamoLockingManager.

Module Dlm := DynamoLockingManager.

(* ===================================================================== *)
(** * A DynamoDB endpoint held in memory                                  *)
(* ===================================================================== *)

(** Tables whose partition key is the string attribute [id], as the class
    comment of the locking manager requires.  An item past the time in
    its time-to-live attribute stays readable until the service's sweep
    removes it; the sweep runs on the service's own schedule, and is a
    step of the world here ([ttl_sweep]). *)
Module DynamoDB.
Import AWS.

Record World := mkWorld {
  tables : gmap JsString (gmap JsString ItemMap);
  reachable : bool;
  now_ms : Z;
  console : list ConsoleLine
}.

Definition AWSError (code_ : string) (msg : string) (status : option Z) : JsError :=
  {| name := js code_; message := js msg; code := Some (js code_); statusCode := status |}.

Definition NetworkingError : JsError :=
  AWSError "NetworkingError" "connect ETIMEDOUT" None.

Definition ResourceNotFoundException : JsError :=
  AWSError "ResourceNotFoundException" "Requested resource not found" (Some 400).

Definition ValidationException : JsError :=
  AWSError "ValidationException" "The provided key element does not match the schema" (Some 400).

Definition ConditionalCheckFailedException : JsError :=
  AWSError "ConditionalCheckFailedException" "The conditional request failed" (Some 400).

Definition key_of (item : ItemMap) : option JsString :=
  match item !! js "id" with
  | Some (AttrS s) => Some s
  | _ => None
  end.

Definition condition_holds (c : option ConditionExpression) (stored : option ItemMap) : bool :=
  match c, stored with
  | None, _ => true
  | Some (attribute_not_exists a), None => true
  | Some (attribute_not_exists a), Some it => bool_decide (it !! a = None)
  | Some (attribute_exists a), None => false
  | Some (attribute_exists a), Some it => bool_decide (is_Some (it !! a))
  end.

Definition set_tables (w : World) (ts : gmap JsString (gmap JsString ItemMap)) : World :=
  mkWorld ts (reachable w) (now_ms w) (console w).

(** The checks every request goes through before it reaches the items. *)
Definition with_table {A : Type} (tableName : JsString) (key : ItemMap)
    (k : gmap JsString ItemMap -> JsString -> Async World A) : Async World A :=
  fun w =>
    if negb (reachable w) then (Thrown NetworkingError, w)
    else
      match tables w !! tableName with
      | None => (Thrown ResourceNotFoundException, w)
      | Some tbl =>
          match key_of key with
          | None => (Thrown ValidationException, w)
          | Some id => k tbl id w
          end
      end.

Definition mem_put (params : PutItemInput) : Async World unit :=
  with_table (put_TableName params) (put_Item params) (fun tbl id w =>
    if condition_holds (put_ConditionExpression params) (tbl !! id)
    then (Returned tt,
          set_tables w (<[put_TableName params := <[id := put_Item params]> tbl]> (tables w)))
    else (Thrown ConditionalCheckFailedException, w)).

Definition mem_delete (params : DeleteItemInput) : Async World unit :=
  with_table (del_TableName params) (del_Key params) (fun tbl id w =>
    if condition_holds (del_ConditionExpression params) (tbl !! id)
    then (Returned tt,
          set_tables w (<[del_TableName params := base.delete id tbl]> (tables w)))
    else (Thrown ConditionalCheckFailedException, w)).

Definition mem_get (params : GetItemInput) : Async World GetItemOutput :=
  with_table (get_TableName params) (get_Key params) (fun tbl id w =>
    (Returned {| Item := tbl !! id |}, w)).

#[global] Instance mem_client : DocumentClient World :=
  {| put := mem_put; delete := mem_delete; get := mem_get |}.

#[global] Instance mem_clock : Clock World := now_ms.

#[global] Instance mem_console : Console World :=
  fun line w => mkWorld (tables w) (reachable w) (now_ms w) (console w ++ [line]).

(** Time passes. *)
Definition advance (ms : Z) (w : World) : World :=
  mkWorld (tables w) (reachable w) (now_ms w + ms) (console w).

(** Whether the number in attribute [ttlAttr] lies before the clock. *)
Definition expired (ttlAttr : JsString) (now_s : Z) (item : ItemMap) : bool :=
  match item !! ttlAttr with
  | Some (AttrN n) => n <? now_s
  | _ => false
  end.

(** The service removes the expired items of a table. *)
Definition ttl_sweep (tableName ttlAttr : JsString) (w : World) : World :=
  match tables w !! tableName with
  | None => w
  | Some tbl =>
      set_tables w
        (<[tableName := filter (fun kv => expired ttlAttr (now_ms w / 1000) kv.2 = false) tbl]>
           (tables w))
  end.

(** A reachable endpoint with one empty table. *)
Definition fresh (tableName : JsString) (now : Z) : World :=
  mkWorld {[ tableName := ∅ ]} true now [].

(** The endpoint cannot be reached from now on. *)
Definition unplug (w : World) : World :=
  mkWorld (tables w) false (now_ms w) (console w).

(** Whether the table holds an item for [path] whose time-to-live
    attribute lies before the clock. *)
Definition lease_expired (tableName ttlAttr path : JsString) (w : World) : bool :=
  match tables w !! tableName with
  | Some tbl =>
      match tbl !! path with
      | Some item => expired ttlAttr (now_ms w / 1000) item
      | None => false
      end
  | None => false
  end.

(** A locking manager on the table [locks] with the default lease of 900
    seconds; the world in which it has locked [p] at time 0; and that
    world 1000 seconds later, before any sweep. *)
Definition locks_manager : DynamoLockingManager.t :=
  {| DynamoLockingManager.tableName := js "locks";
     DynamoLockingManager.awsAccessKey := None;
     DynamoLockingManager.awsSecretKey := None;
     DynamoLockingManager.awsRegion := None;
     DynamoLockingManager.timeToLiveDurationInSeconds := 900 |}.

Definition p_locked : World :=
  snd (DynamoLockingManager.lock locks_manager (js "p") (fresh (js "locks") 0)).

Definition p_lease_over : World := advance 1000000 p_locked.

End DynamoDB.

(** The items of a table of the endpoint are filed under their own [id],
    as DynamoDB files them under their partition key. *)
Module Lease.
Import AWS DynamoDB.

Definition well_keyed (tbl : gmap JsString ItemMap) : Prop :=
  forall k item, tbl !! k = Some item -> key_of item = Some k.

(** The item [lock] puts for [path] when the clock reads [now_s] seconds. *)
Definition item (this : DynamoLockingManager.t) (path : JsString) (now_s : Z) : ItemMap :=
  put_Item (DynamoLockingManager.lock_params this path now_s).

(** The items of the manager's table, none when the table is missing. *)
Definition items (this : DynamoLockingManager.t) (w : World) : option (gmap JsString ItemMap) :=
  tables w !! DynamoLockingManager.tableName this.

(** The endpoint can be reached and holds the manager's table, whose
    items are [tbl]. *)
Definition ready (this : DynamoLockingManager.t) (w : World) (tbl : gmap JsString ItemMap) : Prop :=
  reachable w = true /\ items this w = Some tbl /\ well_keyed tbl.

End Lease.

(* ===================================================================== *)
(** * UTF-8, as Node writes and reads text files                          *)
(* ===================================================================== *)

Module Utf8.
Open Scope N_scope.

Definition is_high_surrogate (c : N) : bool := (0xD800 <=? c) && (c <=? 0xDBFF).
Definition is_low_surrogate (c : N) : bool := (0xDC00 <=? c) && (c <=? 0xDFFF).

(** U+FFFD, the replacement character, and its three bytes. *)
Definition replacement : N := 0xFFFD.
Definition replacement_bytes : list N := [0xEF; 0xBF; 0xBD].

Definition encode_code_point (cp : N) : list N :=
  if cp <? 0x80 then [cp]
  else if cp <? 0x800 then
    [N.lor 0xC0 (N.shiftr cp 6); N.lor 0x80 (N.land cp 0x3F)]
  else if cp <? 0x10000 then
    [N.lor 0xE0 (N.shiftr cp 12);
     N.lor 0x80 (N.land (N.shiftr cp 6) 0x3F);
     N.lor 0x80 (N.land cp 0x3F)]
  else
    [N.lor 0xF0 (N.shiftr cp 18);
     N.lor 0x80 (N.land (N.shiftr cp 12) 0x3F);
     N.lor 0x80 (N.land (N.shiftr cp 6) 0x3F);
     N.lor 0x80 (N.land cp 0x3F)].

(** String to bytes ([writeFileSync] of a string): a surrogate pair is
    one code point, a surrogate on its own is written as U+FFFD. *)
Fixpoint encode (s : JsString) : list N :=
  match s with
  | [] => []
  | c :: rest =>
      if is_high_surrogate c then
        match rest with
        | d :: rest' =>
            if is_low_surrogate d
            then encode_code_point (0x10000 + (c - 0xD800) * 0x400 + (d - 0xDC00))
                   ++ encode rest'
            else replacement_bytes ++ encode rest
        | [] => replacement_bytes
        end
      else if is_low_surrogate c then replacement_bytes ++ encode rest
      else encode_code_point c ++ encode rest
  end.

Definition between (lo hi b : N) : bool := (lo <=? b) && (b <=? hi).

Definition continuation (b : N) : N := N.land b 0x3F.

(** A code point as one or two UTF-16 code units. *)
Definition code_units (cp : N) : list N :=
  if cp <? 0x10000 then [cp]
  else [0xD800 + N.shiftr (cp - 0x10000) 10; 0xDC00 + N.land (cp - 0x10000) 0x3FF].

(** Bytes to string ([readFileSync(path, 'utf-8')]): every maximal
    ill-formed prefix is read as U+FFFD. *)
Fixpoint decode (bs : list N) : JsString :=
  match bs with
  | [] => []
  | b0 :: r0 =>
      if b0 <? 0x80 then b0 :: decode r0
      else if between 0xC2 0xDF b0 then
        match r0 with
        | b1 :: r1 =>
            if between 0x80 0xBF b1
            then (N.shiftl (N.land b0 0x1F) 6 + continuation b1) :: decode r1
            else replacement :: decode r0
        | [] => [replacement]
        end
      else if between 0xE0 0xEF b0 then
        match r0 with
        | b1 :: r1 =>
            if between (if b0 =? 0xE0 then 0xA0 else 0x80)
                       (if b0 =? 0xED then 0x9F else 0xBF) b1
            then
              match r1 with
              | b2 :: r2 =>
                  if between 0x80 0xBF b2
                  then (N.shiftl (N.land b0 0x0F) 12 + N.shiftl (continuation b1) 6
                        + continuation b2) :: decode r2
                  else replacement :: decode r1
              | [] => [replacement]
              end
            else replacement :: decode r0
        | [] => [replacement]
        end
      else if between 0xF0 0xF4 b0 then
        match r0 with
        | b1 :: r1 =>
            if between (if b0 =? 0xF0 then 0x90 else 0x80)
                       (if b0 =? 0xF4 then 0x8F else 0xBF) b1
            then
              match r1 with
              | b2 :: r2 =>
                  if between 0x80 0xBF b2
                  then
                    match r2 with
                    | b3 :: r3 =>
                        if between 0x80 0xBF b3
                        then code_units
                               (N.shiftl (N.land b0 0x07) 18
                                + N.shiftl (continuation b1) 12
                                + N.shiftl (continuation b2) 6
                                + continuation b3) ++ decode r3
                        else replacement :: decode r2
                    | [] => [replacement]
                    end
                  else replacement :: decode r1
              | [] => [replacement]
              end
            else replacement :: decode r0
        | [] => [replacement]
        end
      else replacement :: decode r0
  end.

(** Well-formed UTF-16: code units below 2^16, and every surrogate is
    half of a pair, high one first. *)
Fixpoint well_formed (s : JsString) : bool :=
  match s with
  | [] => true
  | c :: rest =>
      if is_high_surrogate c then
        match rest with
        | d :: rest' => is_low_surrogate d && well_formed rest'
        | [] => false
        end
      else negb (is_low_surrogate c) && (c <? 0x10000) && well_formed rest
  end.

End Utf8.

(* ===================================================================== *)
(** * Node's [path] module, POSIX flavour                                 *)
(* ===================================================================== *)

Module NodePath.

Definition slash : N := 47%N.
Definition dot : JsString := js ".".
Definition dotdot : JsString := js "..".

(** The segments between the slashes of a path. *)
Fixpoint split (path : JsString) : list JsString :=
  match path with
  | [] => [[]]
  | c :: rest =>
      if bool_decide (c = slash) then [] :: split rest
      else
        match split rest with
        | seg :: segs => (c :: seg) :: segs
        | [] => [[c]]
        end
  end.

(** One step of [normalizeString]: [res] holds the segments kept so far,
    last one first. *)
Definition normalize_step (allowAboveRoot : bool) (res : list JsString) (seg : JsString)
    : list JsString :=
  if bool_decide (seg = []) || bool_decide (seg = dot) then res
  else if bool_decide (seg = dotdot) then
    match res with
    | last :: res' =>
        if bool_decide (last = dotdot)
        then (if allowAboveRoot then dotdot :: res else res)
        else res'
    | [] => if allowAboveRoot then [dotdot] else []
    end
  else seg :: res.

Definition normalize_segments (allowAboveRoot : bool) (segs : list JsString) : list JsString :=
  rev (foldl (normalize_step allowAboveRoot) [] segs).

Fixpoint unsplit (segs : list JsString) : JsString :=
  match segs with
  | [] => []
  | [seg] => seg
  | seg :: segs' => seg ++ slash :: unsplit segs'
  end.

Definition normalizeString (path : JsString) (allowAboveRoot : bool) : JsString :=
  unsplit (normalize_segments allowAboveRoot (split path)).

Definition isAbsolute (path : JsString) : bool := bool_decide (head path = Some slash).

Definition normalize (path : JsString) : JsString :=
  match path with
  | [] => dot
  | _ =>
      let trailingSeparator := bool_decide (last path = Some slash) in
      let p := normalizeString path (negb (isAbsolute path)) in
      match p with
      | [] =>
          if isAbsolute path then [slash]
          else if trailingSeparator then js "./" else dot
      | _ =>
          let p' := if trailingSeparator then p ++ [slash] else p in
          if isAbsolute path then slash :: p' else p'
      end
  end.

(** [path.join(a, b)] *)
Definition join (a b : JsString) : JsString :=
  match a, b with
  | [], [] => dot
  | [], _ => normalize b
  | _, [] => normalize a
  | _, _ => normalize (a ++ slash :: b)
  end.

(** The backward scan of [dirname]: the index of the last slash that has
    a character other than a slash after it, among the indices [i], [i-1],
    ..., 1 whose characters are given last one first. *)
Fixpoint dirname_scan (chars : list N) (i : nat) (matchedSlash : bool) : option nat :=
  match chars with
  | [] => None
  | c :: chars' =>
      if bool_decide (c = slash) then
        if matchedSlash then dirname_scan chars' (pred i) matchedSlash
        else Some i
      else dirname_scan chars' (pred i) false
  end.

Definition dirname (path : JsString) : JsString :=
  match path with
  | [] => dot
  | _ =>
      let hasRoot := isAbsolute path in
      match dirname_scan (rev (tail path)) (length path - 1) true with
      | None => if hasRoot then [slash] else dot
      | Some e =>
          if hasRoot && bool_decide (e = 1%nat) then js "//"
          else take e path
      end
  end.

End NodePath.

(* ===================================================================== *)
(** * The part of Node's [fs] module the file manager calls               *)
(* ===================================================================== *)

Module NodeFs.

(** The synchronous calls, each of which may throw an [ErrnoException]. *)
Class Fs (W : Type) := {
  existsSync : JsString -> Async W bool;              (* never throws *)
  mkdirSync_recursive : JsString -> Async W unit;     (* { recursive: true } *)
  writeFileSync : JsString -> JsString -> Async W unit;
  readFileSync_utf8 : JsString -> Async W JsString;   (* encoding 'utf-8' *)
  unlinkSync : JsString -> Async W unit
}.

End NodeFs.

(* ===================================================================== *)
(** * src/storage_manager/local_file_storage_manager.ts                   *)
(* ===================================================================== *)

Module LocalFileStorageManager.

Record t := { rootDir : JsString }.

Section Methods.
Context {W : Type} `{NodeFs.Fs W} `{Console W}.
Variable this : t.

Definition write (data relativePath : JsString) : Async W unit :=
  let fullPath := NodePath.join (rootDir this) relativePath in
  (* Ensure the directory exists *)
  let directory := NodePath.dirname fullPath in
  await! present := NodeFs.existsSync directory in
  (if negb present then NodeFs.mkdirSync_recursive directory else ret tt) ;;;
  NodeFs.writeFileSync fullPath data ;;;
  console_log [PText (js "File "); PText fullPath;
               PText (js " has been written successfully.")].

(** [__default] is [''] when the caller leaves it out. *)
Definition read (relativePath __default : JsString) : Async W JsString :=
  let fullPath := NodePath.join (rootDir this) relativePath in
  try_catch
    (NodeFs.readFileSync_utf8 fullPath)
    (fun err => console_error [PError err] ;;; ret __default).

Definition delete (relativePath : JsString) : Async W unit :=
  let fullPath := NodePath.join (rootDir this) relativePath in
  try_catch
    (NodeFs.unlinkSync fullPath ;;;
     console_log [PText (js "File "); PText fullPath;
                  PText (js " has been deleted successfully.")])
    (fun err =>
       if bool_decide (code err = Some (js "ENOENT"))
       then console_log [PText (js "File "); PText fullPath; PText (js " not found.")]
       else console_error [PError err]).

Definition exists_ (relativePath : JsString) : Async W bool :=
  NodeFs.existsSync (NodePath.join (rootDir this) relativePath).

(** [implements IStorageManager] *)
Definition as_storage : IStorageManager W :=
  {| Index.write := write; Index.read := read;
     Index.delete := delete; Index.exists_ := exists_ |}.

End Methods.

End LocalFileStorageManager.

Module Lfm := LocalFileStorageManager.

(* ===================================================================== *)
(** * A file system held in memory                                        *)
(* ===================================================================== *)

(** Regular files and directories, no symbolic links, every operation
    permitted to the process.  A path is resolved segment by segment from
    the root; [.] and [..] are resolved on the text of the path, which
    agrees with the kernel on the normalised paths [path.join] produces.
    Errors carry the code Linux gives. *)
Module MemFs.
Import NodeFs.

Inductive Entry :=
| File (bytes : list N)
| Directory.

Record World := mkWorld {
  entries : gmap (list JsString) Entry;  (* by absolute path, root excluded *)
  cwd : list JsString;
  console : list ConsoleLine
}.

Definition description (code_ : string) : string :=
  if bool_decide (code_ = "ENOENT"%string) then "no such file or directory"
  else if bool_decide (code_ = "EISDIR"%string) then "illegal operation on a directory"
  else if bool_decide (code_ = "ENOTDIR"%string) then "not a directory"
  else "file already exists".

(** [Error: ENOENT: no such file or directory, open '/x'] *)
Definition ErrnoException (code_ syscall : string) (path : JsString) : JsError :=
  {| name := js "Error";
     message := js code_ ++ js ": " ++ js (description code_) ++ js ", " ++ js syscall
                ++ js " '" ++ path ++ js "'";
     code := Some (js code_);
     statusCode := None |}.

Definition resolve (w : World) (path : JsString) : list JsString :=
  NodePath.normalize_segments false
    (if NodePath.isAbsolute path then NodePath.split path
     else cwd w ++ NodePath.split path).

Definition entry_at (es : gmap (list JsString) Entry) (segs : list JsString) : option Entry :=
  match segs with
  | [] => Some Directory
  | _ => es !! segs
  end.

(** Walking down from [prefix] along [rest]: the entry reached, or the
    code of the step that fails. *)
Fixpoint walk (es : gmap (list JsString) Entry) (prefix rest : list JsString)
    : string + Entry :=
  match rest with
  | [] =>
      match entry_at es prefix with
      | Some e => inr e
      | None => inl "ENOENT"%string
      end
  | seg :: rest' =>
      match entry_at es prefix with
      | Some Directory => walk es (prefix ++ [seg]) rest'
      | Some (File _) => inl "ENOTDIR"%string
      | None => inl "ENOENT"%string
      end
  end.

(** What the path names.  The empty path names nothing, and a path that
    ends in a slash names directories only. *)
Definition stat (w : World) (path : JsString) : string + Entry :=
  match path with
  | [] => inl "ENOENT"%string
  | _ =>
      match walk (entries w) [] (resolve w path) with
      | inr (File bytes) =>
          if bool_decide (last path = Some NodePath.slash) then inl "ENOTDIR"%string
          else inr (File bytes)
      | r => r
      end
  end.

Definition set_entries (w : World) (es : gmap (list JsString) Entry) : World :=
  mkWorld es (cwd w) (console w).

Definition mem_existsSync (path : JsString) : Async World bool :=
  fun w => (Returned (match stat w path with inr _ => true | inl _ => false end), w).

(** Creating the missing directories along [rest], below [prefix]. *)
Fixpoint mkdirp (es : gmap (list JsString) Entry) (prefix rest : list JsString)
    : string + gmap (list JsString) Entry :=
  match rest with
  | [] => inr es
  | seg :: rest' =>
      let p := prefix ++ [seg] in
      match es !! p with
      | Some Directory => mkdirp es p rest'
      | Some (File _) =>
          inl (match rest' with [] => "EEXIST" | _ => "ENOTDIR" end)%string
      | None => mkdirp (<[p := Directory]> es) p rest'
      end
  end.

Definition mem_mkdirSync_recursive (path : JsString) : Async World unit :=
  fun w =>
    match path with
    | [] => (Thrown (ErrnoException "ENOENT" "mkdir" path), w)
    | _ =>
        match mkdirp (entries w) [] (resolve w path) with
        | inl c => (Thrown (ErrnoException c "mkdir" path), w)
        | inr es => (Returned tt, set_entries w es)
        end
    end.

Definition mem_writeFileSync (path data : JsString) : Async World unit :=
  fun w =>
    let segs := resolve w path in
    match stat w path with
    | inr (File _) => (Returned tt, set_entries w (<[segs := File (Utf8.encode data)]> (entries w)))
    | inr Directory => (Thrown (ErrnoException "EISDIR" "open" path), w)
    | inl c =>
        match path, walk (entries w) [] (removelast segs) with
        | _ :: _, inr Directory =>
            if bool_decide (c = "ENOENT"%string) then
              if bool_decide (last path = Some NodePath.slash)
              then (Thrown (ErrnoException "EISDIR" "open" path), w)
              else (Returned tt,
                    set_entries w (<[segs := File (Utf8.encode data)]> (entries w)))
            else (Thrown (ErrnoException c "open" path), w)
        | _, _ => (Thrown (ErrnoException c "open" path), w)
        end
    end.

Definition mem_readFileSync_utf8 (path : JsString) : Async World JsString :=
  fun w =>
    match stat w path with
    | inr (File bytes) => (Returned (Utf8.decode bytes), w)
    | inr Directory => (Thrown (ErrnoException "EISDIR" "read" path), w)
    | inl c => (Thrown (ErrnoException c "open" path), w)
    end.

Definition mem_unlinkSync (path : JsString) : Async World unit :=
  fun w =>
    match stat w path with
    | inr (File _) => (Returned tt, set_entries w (base.delete (resolve w path) (entries w)))
    | inr Directory => (Thrown (ErrnoException "EISDIR" "unlink" path), w)
    | inl c => (Thrown (ErrnoException c "unlink" path), w)
    end.

#[global] Instance mem_fs : Fs World :=
  {| existsSync := mem_existsSync;
     mkdirSync_recursive := mem_mkdirSync_recursive;
     writeFileSync := mem_writeFileSync;
     readFileSync_utf8 := mem_readFileSync_utf8;
     unlinkSync := mem_unlinkSync |}.

#[global] Instance mem_console : Console World :=
  fun line w => mkWorld (entries w) (cwd w) (console w ++ [line]).

(** An empty disk, the process started in the root directory. *)
Definition empty : World := mkWorld ∅ [] [].

(** A manager rooted at [/data], and the disk after it has written ["a"]
    to [sub/f]: the directories [/data] and [/data/sub] and one file. *)
Definition data_manager : LocalFileStorageManager.t :=
  {| LocalFileStorageManager.rootDir := js "/data" |}.

Definition one_file : World :=
  snd (LocalFileStorageManager.write data_manager (js "a") (js "sub/f") empty).

End MemFs.

(** A disk on which the process may do nothing: every call is refused
    with [EACCES].  The world is the console. *)
Module DeniedFs.
Import NodeFs.

Definition EACCES (syscall : string) (path : JsString) : JsError :=
  {| name := js "Error";
     message := js "EACCES: permission denied, " ++ js syscall ++ js " '" ++ path ++ js "'";
     code := Some (js "EACCES");
     statusCode := None |}.

#[global] Instance denied_fs : Fs (list ConsoleLine) :=
  {| existsSync := fun _ => ret false;
     mkdirSync_recursive := fun path => throw (EACCES "mkdir" path);
     writeFileSync := fun path _ => throw (EACCES "open" path);
     readFileSync_utf8 := fun path => throw (EACCES "open" path);
     unlinkSync := fun path => throw (EACCES "unlink" path) |}.

#[global] Instance denied_console : Console (list ConsoleLine) :=
  fun line w => w ++ [line].

End DeniedFs.

(* ===================================================================== *)
(** * Regular expressions, as [RegExp.prototype.test] decides them        *)
(* ===================================================================== *)

(** The fragment without back-references and look-around, where a
    pattern anchored at both ends accepts a string exactly when the
    string is in the language of the pattern. *)
Module Regex.

Inductive t :=
| Never                       (* no string *)
| Empty                       (* the empty string *)
| Class (p : N -> bool)       (* one code unit of a class *)
| Seq (r1 r2 : t)
| Alt (r1 r2 : t)
| Star (r : t).

Definition Chr (c : N) : t := Class (N.eqb c).  (* one given code unit *)
Definition Plus (r : t) : t := Seq r (Star r).  (* [r+] *)
Definition Opt (r : t) : t := Alt r Empty.      (* [r?] *)

Fixpoint nullable (r : t) : bool :=
  match r with
  | Never => false
  | Empty => true
  | Class _ => false
  | Seq r1 r2 => nullable r1 && nullable r2
  | Alt r1 r2 => nullable r1 || nullable r2
  | Star _ => true
  end.

(** What is left of [r] after the code unit [c]. *)
Fixpoint derive (c : N) (r : t) : t :=
  match r with
  | Never => Never
  | Empty => Never
  | Class p => if p c then Empty else Never
  | Seq r1 r2 =>
      if nullable r1 then Alt (Seq (derive c r1) r2) (derive c r2)
      else Seq (derive c r1) r2
  | Alt r1 r2 => Alt (derive c r1) (derive c r2)
  | Star r1 => Seq (derive c r1) (Star r1)
  end.

(** [/^r$/.test(s)] *)
Fixpoint test (r : t) (s : JsString) : bool :=
  match s with
  | [] => nullable r
  | c :: s' => test (derive c r) s'
  end.


End Regex.

(* ===================================================================== *)
(** * The part of aws-sdk the S3 storage manager calls                    *)
(* ===================================================================== *)

Module S3Sdk.

(** [GetObjectOutput]: the body is a [Buffer] when there is one. *)
Record GetObjectOutput := { Body : option (list N) }.

(** [new S3(...)]: [getObject(params).promise()] and so on.  A rejected
    promise carries an error with a [code]. *)
Class S3 (W : Type) := {
  getObject : JsString -> JsString -> Async W GetObjectOutput;  (* Bucket, Key *)
  deleteObject : JsString -> JsString -> Async W unit;          (* Bucket, Key *)
  putObject : JsString -> JsString -> JsString -> Async W unit; (* Body, Bucket, Key *)
  headObject : JsString -> JsString -> Async W unit             (* Bucket, Key *)
}.

End S3Sdk.

(* ===================================================================== *)
(** * src/storage_manager/s3_storage_manager.ts                           *)
(* ===================================================================== *)

Module S3StorageManager.

Record t := {
  bucketName : JsString;
  path : JsString;
  awsAccessKey : option JsString;
  awsSecretKey : option JsString;
  awsRegion : option JsString
}.

(** [[a-zA-Z0-9_-]] *)
Definition word (c : N) : bool :=
  (((97 <=? c) && (c <=? 122)) || ((65 <=? c) && (c <=? 90))
   || ((48 <=? c) && (c <=? 57)) || (c =? 95) || (c =? 45))%N.

(** [/^(\/?[a-zA-Z0-9_-]+)+\/$/] *)
Definition folder_pattern : Regex.t :=
  Regex.Seq
    (Regex.Plus (Regex.Seq (Regex.Opt (Regex.Chr 47)) (Regex.Plus (Regex.Class word))))
    (Regex.Chr 47).

(** The test of the constructor: the folder is given, and it does not
    match the pattern or begins with a slash. *)
Definition invalid (path : JsString) : bool :=
  negb (bool_decide (path = []))
  && (negb (Regex.test folder_pattern path) || bool_decide (head path = Some 47%N)).

(** [constructor(bucketName, path = '', awsAccessKey?, awsSecretKey?,
    awsRegion?)].  The client the methods use is the [S3] of the world. *)
Definition new (bucketName : JsString) (path : option JsString)
    (awsAccessKey awsSecretKey awsRegion : option JsString) : Outcome t :=
  let path := default [] path in
  if invalid path then
    Thrown (Error (js "Invalid path format. Please use a valid path like 'path/to/folder/'. Provided is "
                   ++ path))
  else
    Returned {| bucketName := bucketName; path := path;
                awsAccessKey := awsAccessKey; awsSecretKey := awsSecretKey;
                awsRegion := awsRegion |}.

Section Methods.
Context {W : Type} `{S3Sdk.S3 W} `{Console W}.
Variable this : t.

(** [response.Body?.toString() || __default] *)
Definition body_or (response : S3Sdk.GetObjectOutput) (__default : JsString) : JsString :=
  match S3Sdk.Body response with
  | Some bytes =>
      match Utf8.decode bytes with
      | [] => __default
      | text => text
      end
  | None => __default
  end.

(** [__default] is [''] when the caller leaves it out. *)
Definition read (path0 __default : JsString) : Async W JsString :=
  let path := S3StorageManager.path this ++ path0 in
  try_catch
    (await! response := S3Sdk.getObject (bucketName this) path in
     ret (body_or response __default))
    (fun error =>
       if bool_decide (code error = Some (js "NoSuchKey")) then
         console_log [PText (js "File "); PText path; PText (js " not found in bucket ");
                      PText (bucketName this); PText (js ".")] ;;;
         ret __default
       else throw error).

Definition delete (path0 : JsString) : Async W unit :=
  let path := S3StorageManager.path this ++ path0 in
  S3Sdk.deleteObject (bucketName this) path ;;;
  console_log [PText (js "File "); PText path;
               PText (js " deleted successfully from bucket ");
               PText (bucketName this); PText (js ".")].

Definition write (data path0 : JsString) : Async W unit :=
  let path := S3StorageManager.path this ++ path0 in
  S3Sdk.putObject data (bucketName this) path ;;;
  console_log [PText (js "File "); PText path;
               PText (js " has been written successfully in bucket ");
               PText (bucketName this); PText (js ".")].

Definition exists_ (path0 : JsString) : Async W bool :=
  let path := S3StorageManager.path this ++ path0 in
  try_catch
    (S3Sdk.headObject (bucketName this) path ;;; ret true)
    (fun error =>
       if bool_decide (code error = Some (js "NotFound")) then ret false
       else throw error).

(** [implements IStorageManager] *)
Definition as_storage : IStorageManager W :=
  {| Index.write := write; Index.read := read;
     Index.delete := delete; Index.exists_ := exists_ |}.

End Methods.

End S3StorageManager.

Module S3m := S3StorageManager.

(** The folders of a bucket: names of letters, digits, [_] and [-], each
    followed by a slash. *)
Module S3Folder.



End S3Folder.

(* ===================================================================== *)
(** * An S3 endpoint held in memory                                       *)
(* ===================================================================== *)

(** Buckets of objects by key.  A body given as a string is stored as
    its UTF-8 bytes; deleting a key that is not there succeeds. *)
Module MemS3.
Import S3Sdk.

Record World := mkWorld {
  buckets : gmap JsString (gmap JsString (list N));
  console : list ConsoleLine
}.

Definition S3Error (code_ : string) (msg : string) (status : Z) : JsError :=
  {| name := js code_; message := js msg; code := Some (js code_);
     statusCode := Some status |}.

Definition NoSuchBucket : JsError :=
  S3Error "NoSuchBucket" "The specified bucket does not exist" 404.

Definition NoSuchKey : JsError :=
  S3Error "NoSuchKey" "The specified key does not exist." 404.

(** What [headObject] rejects with, its answer having no body. *)
Definition NotFound : JsError := S3Error "NotFound" "" 404.

Definition set_buckets (w : World) (bs : gmap JsString (gmap JsString (list N))) : World :=
  mkWorld bs (console w).

Definition mem_getObject (bucket key : JsString) : Async World GetObjectOutput :=
  fun w =>
    match buckets w !! bucket with
    | None => (Thrown NoSuchBucket, w)
    | Some objects =>
        match objects !! key with
        | None => (Thrown NoSuchKey, w)
        | Some bytes => (Returned {| Body := Some bytes |}, w)
        end
    end.

Definition mem_headObject (bucket key : JsString) : Async World unit :=
  fun w =>
    match buckets w !! bucket with
    | None => (Thrown NotFound, w)
    | Some objects =>
        match objects !! key with
        | None => (Thrown NotFound, w)
        | Some _ => (Returned tt, w)
        end
    end.

Definition mem_putObject (body bucket key : JsString) : Async World unit :=
  fun w =>
    match buckets w !! bucket with
    | None => (Thrown NoSuchBucket, w)
    | Some objects =>
        (Returned tt,
         set_buckets w (<[bucket := <[key := Utf8.encode body]> objects]> (buckets w)))
    end.

Definition mem_deleteObject (bucket key : JsString) : Async World unit :=
  fun w =>
    match buckets w !! bucket with
    | None => (Thrown NoSuchBucket, w)
    | Some objects =>
        (Returned tt, set_buckets w (<[bucket := base.delete key objects]> (buckets w)))
    end.

#[global] Instance mem_s3 : S3 World :=
  {| getObject := mem_getObject; deleteObject := mem_deleteObject;
     putObject := mem_putObject; headObject := mem_headObject |}.

#[global] Instance mem_console : Console World :=
  fun line w => mkWorld (buckets w) (console w ++ [line]).

(** The objects of the manager's bucket, none when the bucket is
    missing. *)
Definition objects (this : S3StorageManager.t) (w : World) : option (gmap JsString (list N)) :=
  buckets w !! S3StorageManager.bucketName this.

(** One empty bucket. *)
Definition fresh (bucket : JsString) : World := mkWorld {[ bucket := ∅ ]} [].

(** A manager of the bucket [files] under the folder [path/to/folder/]. *)
Definition files_manager : S3StorageManager.t :=
  {| S3StorageManager.bucketName := js "files";
     S3StorageManager.path := js "path/to/folder/";
     S3StorageManager.awsAccessKey := None;
     S3StorageManager.awsSecretKey := None;
     S3StorageManager.awsRegion := None |}.

End MemS3.

(* ===================================================================== *)
(** * src/storage_manager/dynamo_storage_manager.ts                       *)
(* ===================================================================== *)

Module DynamoStorageManager.
Import AWS.

(** [type IDynamoStorageManager].  [appendPreWrite] returns a record of
    attributes; the attribute values of the model are strings and
    numbers. *)
Record IDynamoStorageManager := {
  tableName : JsString;
  awsAccessKey : option JsString;
  awsSecretKey : option JsString;
  awsRegion : option JsString;
  appendPreWrite : option (JsString -> JsString -> ItemMap)
}.

(** The class keeps its parameters.  Its logger ([log], [setLogger]) is
    called by none of the four methods and is left out. *)
Record t := { params : IDynamoStorageManager }.

(** [constructor(params)] *)
Definition new (params : IDynamoStorageManager) : Outcome t :=
  match tableName params with
  | [] => Thrown (Error (js "[DynamoStorageManager] The table name cannot be empty"))
  | _ => Returned {| DynamoStorageManager.params := params |}
  end.

(** Whether a value counts as true: neither [''] nor [0]. *)
Definition truthy (v : AttributeValue) : bool :=
  match v with
  | AttrS s => negb (bool_decide (s = []))
  | AttrN n => negb (n =? 0)
  end.

(** [value || fallback], the value being possibly [undefined]. *)
Definition or_else (value : option AttributeValue) (fallback : AttributeValue)
    : AttributeValue :=
  match value with
  | Some v => if truthy v then v else fallback
  | None => fallback
  end.

Section Methods.
Context {W : Type} `{DocumentClient W} `{Clock W}.
Variable this : t.

(** The [params] object of [write], the clock reading [updatedAt]. *)
Definition write_params (data path : JsString) (updatedAt : Z) : PutItemInput :=
  {| put_TableName := tableName (params this);
     put_Item :=
       <[js "updatedAt" := AttrN updatedAt]>
         (<[js "data" := AttrS data]>
            (<[js "path" := AttrS path]>
               (match appendPreWrite (params this) with
                | Some f => f data path
                | None => ∅
                end)));
     put_ConditionExpression := None |}.

Definition write (data path : JsString) : Async W unit :=
  await! updatedAt := Utils.getTimestamp in
  let params := write_params data path updatedAt in
  AWS.put params.

(** The [params] object of [read] and of [exists]. *)
Definition get_params (path : JsString) : GetItemInput :=
  {| get_TableName := tableName (params this);
     get_Key := {[ js "path" := AttrS path ]} |}.

(** The object [read] returns for the item the client found. *)
Definition read_result (item : option ItemMap) (path __default : JsString) : ItemMap :=
  <[js "data" := or_else (item ≫= (fun it => it !! js "data")) (AttrS __default)]>
    (<[js "path" := or_else (item ≫= (fun it => it !! js "path")) (AttrS path)]>
       (default ∅ item)).

(** [__default] is [''] when the caller leaves it out. *)
Definition read (path __default : JsString) : Async W ItemMap :=
  let params := get_params path in
  await! result := AWS.get params in
  ret (read_result (Item result) path __default).

(** The [params] object of [delete]. *)
Definition delete_params (path : JsString) : DeleteItemInput :=
  {| del_TableName := tableName (params this);
     del_Key := {[ js "path" := AttrS path ]};
     del_ConditionExpression := None |}.

Definition delete (path : JsString) : Async W unit :=
  let params := delete_params path in
  AWS.delete params.

Definition exists_ (path : JsString) : Async W bool :=
  let params := get_params path in
  await! result := AWS.get params in
  ret (bool_decide (is_Some (Item result))).

End Methods.

End DynamoStorageManager.

Module Dsm := DynamoStorageManager.

(* ===================================================================== *)
(** * A DynamoDB endpoint whose tables name their partition key           *)
(* ===================================================================== *)

(** As the endpoint above, each table with the attribute its items are
    filed under; the value of that attribute is a string that is not
    empty. *)
Module MemTables.
Import AWS.

Record Table := mkTable {
  partition_key : JsString;
  items : gmap JsString ItemMap
}.

Record World := mkWorld {
  tables : gmap JsString Table;
  now_ms : Z;
  console : list ConsoleLine
}.

Definition key_of (table : Table) (item : ItemMap) : option JsString :=
  match item !! partition_key table with
  | Some (AttrS (c :: s)) => Some (c :: s)
  | _ => None
  end.

Definition set_items (w : World) (tableName : JsString) (table : Table)
    (its : gmap JsString ItemMap) : World :=
  mkWorld (<[tableName := mkTable (partition_key table) its]> (tables w))
          (now_ms w) (console w).

Definition with_table {A : Type} (tableName : JsString) (key : ItemMap)
    (k : Table -> JsString -> Async World A) : Async World A :=
  fun w =>
    match tables w !! tableName with
    | None => (Thrown DynamoDB.ResourceNotFoundException, w)
    | Some table =>
        match key_of table key with
        | None => (Thrown DynamoDB.ValidationException, w)
        | Some id => k table id w
        end
    end.

Definition mem_put (params : PutItemInput) : Async World unit :=
  with_table (put_TableName params) (put_Item params) (fun table id w =>
    if DynamoDB.condition_holds (put_ConditionExpression params) (items table !! id)
    then (Returned tt,
          set_items w (put_TableName params) table (<[id := put_Item params]> (items table)))
    else (Thrown DynamoDB.ConditionalCheckFailedException, w)).

Definition mem_delete (params : DeleteItemInput) : Async World unit :=
  with_table (del_TableName params) (del_Key params) (fun table id w =>
    if DynamoDB.condition_holds (del_ConditionExpression params) (items table !! id)
    then (Returned tt,
          set_items w (del_TableName params) table (base.delete id (items table)))
    else (Thrown DynamoDB.ConditionalCheckFailedException, w)).

Definition mem_get (params : GetItemInput) : Async World GetItemOutput :=
  with_table (get_TableName params) (get_Key params) (fun table id w =>
    (Returned {| Item := items table !! id |}, w)).

#[global] Instance mem_client : DocumentClient World :=
  {| put := mem_put; delete := mem_delete; get := mem_get |}.

#[global] Instance mem_clock : Clock World := now_ms.

(** The items of the manager's table, when the table is there and files
    its items under [path]. *)
Definition stored (this : DynamoStorageManager.t) (w : World) : option (gmap JsString ItemMap) :=
  match tables w !! DynamoStorageManager.tableName (DynamoStorageManager.params this) with
  | Some table =>
      if bool_decide (partition_key table = js "path") then Some (items table) else None
  | None => None
  end.

(** One empty table, filed under [path]. *)
Definition fresh (tableName : JsString) (now : Z) : World :=
  mkWorld {[ tableName := mkTable (js "path") ∅ ]} now [].

(** The manager of the repository's test: every item gets the attribute
    [someProps]. *)
Definition test_manager : DynamoStorageManager.t :=
  {| DynamoStorageManager.params :=
       {| DynamoStorageManager.tableName := js "store";
          DynamoStorageManager.awsAccessKey := None;
          DynamoStorageManager.awsSecretKey := None;
          DynamoStorageManager.awsRegion := None;
          DynamoStorageManager.appendPreWrite :=
            Some (fun _ _ => {[ js "someProps" := AttrS (js "saad") ]}) |} |}.

End MemTables.

(* ===================================================================== *)
(** * [String.prototype.startsWith] and [String.prototype.includes]       *)
(* ===================================================================== *)

Module JsText.

Fixpoint startsWith (s search : JsString) {struct search} : bool :=
  match search, s with
  | [], _ => true
  | c :: search', d :: s' => (c =? d)%N && startsWith s' search'
  | _ :: _, [] => false
  end.

(** [s.includes(search)]: [search] starts at some position of [s]. *)
Fixpoint includes (s search : JsString) : bool :=
  startsWith s search
  || match s with
     | [] => false
     | _ :: s' => includes s' search
     end.

(** [search] occurs in [s]. *)
Definition occurs_in (search s : JsString) : Prop :=
  exists before after : JsString, s = before ++ search ++ after.

End JsText.

(* ===================================================================== *)
(** * @azure/storage-blob: the container client                           *)
(* ===================================================================== *)

Module AzureBlob.

(** A [NodeJS.ReadableStream] by what it emits: its [data] chunks in
    order, each a [Buffer], and then [end], or [error] with an error. *)
Record ReadableStream := {
  chunks : list (list N);
  failure : option JsError
}.

Record BlobDownloadResponse := { readableStreamBody : option ReadableStream }.

(** [containerClient.getBlockBlobClient(path).upload(body, contentLength)],
    [containerClient.getBlobClient(path).download(offset)], [.delete()]
    and [.exists()]. *)
Class ContainerClient (W : Type) := {
  upload : JsString -> JsString -> Z -> Async W unit;
  download : JsString -> Z -> Async W BlobDownloadResponse;
  delete : JsString -> Async W unit;
  exists_ : JsString -> Async W bool
}.

End AzureBlob.

(* ===================================================================== *)
(** * AzureBlobStorageManager (with src/storage_manager/s3_storage_manager.ts) *)
(* ===================================================================== *)

Module AzureBlobStorageManager.
Import AzureBlob.

(** [interface IAzureBlobStorageManager].  The constructor makes the
    container client of these two; the methods use that client only. *)
Record IAzureBlobStorageManager := {
  storageAccountConnectionString : JsString;
  storageContainerName : JsString
}.

(** What [read] resolves to: [{ data, path }]. *)
Record ReadResult := { data : JsString; path : JsString }.

(** The message of the error for a blob that is not there. *)
Definition blob_missing : JsString := js "The specified blob does not exist".

Section Methods.
Context {W : Type} `{ContainerClient W}.

(** [streamToString(readableStream)]: each chunk is turned into a string
    on its own ([chunk.toString()]) and appended. *)
Definition streamToString (readableStream : ReadableStream) : Async W JsString :=
  let data := fold_left (fun data chunk => data ++ Utf8.decode chunk)
                        (chunks readableStream) [] in
  match failure readableStream with
  | None => ret data
  | Some error => throw error
  end.

Definition write (data path : JsString) : Async W unit :=
  upload path data (Z.of_nat (length data)).

Definition read (path __default : JsString) : Async W ReadResult :=
  try_catch
    (await! downloadBlockBlobResponse := download path 0 in
     match readableStreamBody downloadBlockBlobResponse with
     | None => ret {| data := __default; path := path |}
     | Some body =>
         await! data := streamToString body in
         ret {| data := data; path := path |}
     end)
    (fun e =>
       if JsText.includes (message e) blob_missing
       then ret {| data := __default; path := path |}
       else throw e).

Definition delete (path : JsString) : Async W unit :=
  try_catch
    (AzureBlob.delete path)
    (fun e =>
       if JsText.includes (message e) blob_missing
       then ret tt
       else throw e).

Definition exists_ (path : JsString) : Async W bool :=
  await! found := AzureBlob.exists_ path in
  ret found.

End Methods.

End AzureBlobStorageManager.

Module Abm := AzureBlobStorageManager.

(** A container client that answers from a script, and keeps what was
    uploaded. *)
Module ScriptedBlob.
Import AzureBlob.

Record World := mkWorld {
  on_download : Outcome BlobDownloadResponse;
  on_delete : Outcome unit;
  on_exists : Outcome bool;
  uploads : list (JsString * JsString * Z)
}.

#[global] Instance scripted_client : ContainerClient World :=
  {| upload := fun path body contentLength w =>
       (Returned tt,
        mkWorld (on_download w) (on_delete w) (on_exists w)
                ((path, body, contentLength) :: uploads w));
     download := fun _ _ w => (on_download w, w);
     delete := fun _ w => (on_delete w, w);
     exists_ := fun _ w => (on_exists w, w) |}.

(** The service's answer for a blob that is not there. *)
Definition BlobNotFound : JsError :=
  {| name := js "RestError";
     message := js "The specified blob does not exist. RequestId:0 Time:0";
     code := Some (js "BlobNotFound");
     statusCode := Some 404 |}.

Definition AuthorizationFailure : JsError :=
  {| name := js "RestError";
     message := js "This request is not authorized to perform this operation.";
     code := Some (js "AuthorizationFailure");
     statusCode := Some 403 |}.

(** A download that delivers [chunks] and ends. *)
Definition delivering (chunks : list (list N)) : World :=
  mkWorld (Returned {| readableStreamBody :=
                         Some {| chunks := chunks; failure := None |} |})
          (Returned tt) (Returned true) [].

(** A service that answers every request with [e]. *)
Definition failing (e : JsError) : World :=
  mkWorld (Thrown e) (Thrown e) (Thrown e) [].

End ScriptedBlob.

(* ===================================================================== *)
(** * @azure/cosmos: the items of a container                             *)
(* ===================================================================== *)

Module Cosmos.
Import AWS.

(** [client.database(databaseId).container(containerId)] followed by
    [.items.upsert(body)], [.item(id, partitionKey).read()] and
    [.item(id, partitionKey).delete()].  [read] resolves to the
    [resource], which is [undefined] when there is no such item. *)
Class Client (W : Type) := {
  upsert : JsString -> JsString -> ItemMap -> Async W unit;
  item_read : JsString -> JsString -> JsString -> JsString -> Async W (option ItemMap);
  item_delete : JsString -> JsString -> JsString -> JsString -> Async W unit
}.

End Cosmos.

(* ===================================================================== *)
(** * src/storage_manager/cosmos_storage_manager.ts                       *)
(* ===================================================================== *)

Module CosmosStorageManager.
Import AWS Cosmos.

(** [interface ICosmosStorageManager] *)
Record ICosmosStorageManager := {
  endpoint : JsString;
  key : JsString;
  databaseId : JsString;
  containerId : JsString;
  appendPreWrite : option (JsString -> JsString -> ItemMap)
}.

Record t := { params : ICosmosStorageManager }.

(** [constructor(params)]: no check is made. *)
Definition new (params : ICosmosStorageManager) : t :=
  {| CosmosStorageManager.params := params |}.

(** The message of the error for an item that is not there. *)
Definition entity_missing : JsString :=
  js "Entity with the specified id does not exist in the system.".

Section Methods.
Context {W : Type} `{Client W} `{Clock W}.
Variable this : t.

(** The document [write] upserts, the clock reading [updatedAt]. *)
Definition document (data path : JsString) (updatedAt : Z) : ItemMap :=
  <[js "updatedAt" := AttrN updatedAt]>
    (<[js "data" := AttrS data]>
       (<[js "path" := AttrS path]>
          (<[js "id" := AttrS path]>
             (match appendPreWrite (params this) with
              | Some f => f data path
              | None => ∅
              end)))).

Definition write (data path : JsString) : Async W unit :=
  await! updatedAt := Utils.getTimestamp in
  upsert (databaseId (params this)) (containerId (params this))
         (document data path updatedAt).

Definition read_result (resource : option ItemMap) (path __default : JsString) : ItemMap :=
  <[js "data" := DynamoStorageManager.or_else
                   (resource ≫= (fun r => r !! js "data")) (AttrS __default)]>
    (<[js "path" := DynamoStorageManager.or_else
                      (resource ≫= (fun r => r !! js "id")) (AttrS path)]>
       (default ∅ resource)).

Definition read (path __default : JsString) : Async W ItemMap :=
  await! resource := item_read (databaseId (params this)) (containerId (params this))
                               path path in
  ret (read_result resource path __default).

Definition delete (path : JsString) : Async W unit :=
  try_catch
    (item_delete (databaseId (params this)) (containerId (params this)) path path)
    (fun e =>
       let message := message e in
       if JsText.includes message entity_missing
       then ret tt
       else throw e).

Definition exists_ (path : JsString) : Async W bool :=
  await! resource := item_read (databaseId (params this)) (containerId (params this))
                               path path in
  ret (bool_decide (is_Some resource)).

End Methods.

End CosmosStorageManager.

Module Csm := CosmosStorageManager.

(** A container that answers [delete] from a script and keeps what was
    upserted; it has one item at most. *)
Module ScriptedCosmos.
Import AWS Cosmos.

Record World := mkWorld {
  on_delete : Outcome unit;
  resource : option ItemMap;
  now_ms : Z
}.

#[global] Instance scripted_client : Client World :=
  {| upsert := fun _ _ body w => (Returned tt, mkWorld (on_delete w) (Some body) (now_ms w));
     item_read := fun _ _ _ _ w => (Returned (resource w), w);
     item_delete := fun _ _ _ _ w => (on_delete w, w) |}.

#[global] Instance scripted_clock : Clock World := now_ms.

(** The service's answer for an item that is not there. *)
Definition NotFound : JsError :=
  {| name := js "Error";
     message := js "Message: {'Errors':['Resource Not Found. Learn more: https://aka.ms/cosmosdb-tsg-not-found']}, Entity with the specified id does not exist in the system.";
     code := Some (js "404");
     statusCode := Some 404 |}.

Definition Forbidden : JsError :=
  {| name := js "Error";
     message := js "Request blocked by Auth";
     code := Some (js "403");
     statusCode := Some 403 |}.

Definition manager : CosmosStorageManager.t :=
  CosmosStorageManager.new
    {| CosmosStorageManager.endpoint := js "https://localhost:8081";
       CosmosStorageManager.key := js "key";
       CosmosStorageManager.databaseId := js "db";
       CosmosStorageManager.containerId := js "items";
       CosmosStorageManager.appendPreWrite :=
         Some (fun _ path => {[ js "id" := AttrS (js "mine");
                                js "owner" := AttrS (js "saad") ]}) |}.

End ScriptedCosmos.

(* ===================================================================== *)
(** * Facts about [Async]                                                 *)
(* ===================================================================== *)

Lemma bind_ret_r {W A} (c : Async W A) (w : W) :
  (await! r := c in ret r) w = c w.
Proof.
  unfold bind, ret. destruct (c w) as [[v | e] w']; reflexivity.
Qed.

Lemma try_catch_returned {W A} (body : Async W A) handler (w w' : W) (v : A) :
  body w = (Returned v, w') -> try_catch body handler w = (Returned v, w').
Proof. intros Hb. unfold try_catch. rewrite Hb. reflexivity. Qed.

Lemma try_catch_thrown {W A} (body : Async W A) handler (w w' : W) (e : JsError) :
  body w = (Thrown e, w') -> try_catch body handler w = handler e w'.
Proof. intros Hb. unfold try_catch. rewrite Hb. reflexivity. Qed.

(* ===================================================================== *)
(** * UTF-8                                                               *)
(* ===================================================================== *)

Section Utf8Facts.
Import Utf8.
Open Scope N_scope.

Ltac div_lia := zify; Z.to_euclidean_division_equations; lia.

Ltac small_cases x :=
  destruct x as [| x]; [reflexivity |];
  do 7 (try destruct x as [x | x |]); solve [reflexivity | lia].

(** Setting the marker bits of a byte is adding them. *)
Lemma lor_0x80 (x : N) : x < 64 -> N.lor 0x80 x = 0x80 + x.
Proof. intros Hx. small_cases x. Qed.

Lemma lor_0xC0 (x : N) : x < 32 -> N.lor 0xC0 x = 0xC0 + x.
Proof. intros Hx. small_cases x. Qed.

Lemma lor_0xE0 (x : N) : x < 16 -> N.lor 0xE0 x = 0xE0 + x.
Proof. intros Hx. small_cases x. Qed.

Lemma lor_0xF0 (x : N) : x < 8 -> N.lor 0xF0 x = 0xF0 + x.
Proof. intros Hx. small_cases x. Qed.

Lemma land_0x3F (x : N) : N.land x 0x3F = x mod 64.
Proof. apply (N.land_ones x 6). Qed.

Lemma land_0x1F (x : N) : N.land x 0x1F = x mod 32.
Proof. apply (N.land_ones x 5). Qed.

Lemma land_0x0F (x : N) : N.land x 0x0F = x mod 16.
Proof. apply (N.land_ones x 4). Qed.

Lemma land_0x07 (x : N) : N.land x 0x07 = x mod 8.
Proof. apply (N.land_ones x 3). Qed.

Lemma land_0x3FF (x : N) : N.land x 0x3FF = x mod 1024.
Proof. apply (N.land_ones x 10). Qed.

Lemma shiftr_6 (x : N) : N.shiftr x 6 = x / 64.
Proof. apply (N.shiftr_div_pow2 x 6). Qed.

Lemma shiftr_10 (x : N) : N.shiftr x 10 = x / 1024.
Proof. apply (N.shiftr_div_pow2 x 10). Qed.

Lemma shiftr_12 (x : N) : N.shiftr x 12 = x / 4096.
Proof. apply (N.shiftr_div_pow2 x 12). Qed.

Lemma shiftr_18 (x : N) : N.shiftr x 18 = x / 262144.
Proof. apply (N.shiftr_div_pow2 x 18). Qed.

Lemma shiftl_6 (x : N) : N.shiftl x 6 = x * 64.
Proof. apply (N.shiftl_mul_pow2 x 6). Qed.

Lemma shiftl_12 (x : N) : N.shiftl x 12 = x * 4096.
Proof. apply (N.shiftl_mul_pow2 x 12). Qed.

Lemma shiftl_18 (x : N) : N.shiftl x 18 = x * 262144.
Proof. apply (N.shiftl_mul_pow2 x 18). Qed.

Lemma between_true (lo hi b : N) : lo <= b <= hi -> between lo hi b = true.
Proof.
  intros [Hlo Hhi]. unfold between.
  apply andb_true_intro. split; apply N.leb_le; assumption.
Qed.

Lemma between_false (lo hi b : N) : b < lo \/ hi < b -> between lo hi b = false.
Proof.
  intros Hout. unfold between. apply andb_false_iff.
  destruct Hout; [left | right]; apply N.leb_gt; assumption.
Qed.

(** The bytes of a code point, by its size. *)
Lemma encode_2 (cp : N) :
  0x80 <= cp < 0x800 -> encode_code_point cp = [0xC0 + cp / 64; 0x80 + cp mod 64].
Proof.
  intros Hcp. unfold encode_code_point.
  rewrite (proj2 (N.ltb_ge cp 0x80)), (proj2 (N.ltb_lt cp 0x800)) by lia.
  rewrite shiftr_6, land_0x3F, lor_0xC0, lor_0x80 by div_lia. reflexivity.
Qed.

Lemma encode_3 (cp : N) :
  0x800 <= cp < 0x10000 ->
  encode_code_point cp = [0xE0 + cp / 4096; 0x80 + (cp / 64) mod 64; 0x80 + cp mod 64].
Proof.
  intros Hcp. unfold encode_code_point.
  rewrite (proj2 (N.ltb_ge cp 0x80)), (proj2 (N.ltb_ge cp 0x800)),
    (proj2 (N.ltb_lt cp 0x10000)) by lia.
  rewrite shiftr_6, shiftr_12, !land_0x3F, lor_0xE0, !lor_0x80 by div_lia. reflexivity.
Qed.

Lemma encode_4 (cp : N) :
  0x10000 <= cp < 0x110000 ->
  encode_code_point cp =
    [0xF0 + cp / 262144; 0x80 + (cp / 4096) mod 64; 0x80 + (cp / 64) mod 64; 0x80 + cp mod 64].
Proof.
  intros Hcp. unfold encode_code_point.
  rewrite (proj2 (N.ltb_ge cp 0x80)), (proj2 (N.ltb_ge cp 0x800)),
    (proj2 (N.ltb_ge cp 0x10000)) by lia.
  rewrite shiftr_6, shiftr_12, shiftr_18, !land_0x3F, lor_0xF0, !lor_0x80 by div_lia.
  reflexivity.
Qed.

(** Reading a well-formed sequence of one, two, three and four bytes. *)
Lemma decode_1 (b : N) (bs : list N) : b < 0x80 -> decode (b :: bs) = b :: decode bs.
Proof.
  intros Hb. cbn [decode]. rewrite (proj2 (N.ltb_lt b 0x80)) by exact Hb. reflexivity.
Qed.

Lemma decode_2 (b0 b1 : N) (bs : list N) :
  0xC2 <= b0 <= 0xDF -> 0x80 <= b1 <= 0xBF ->
  decode (b0 :: b1 :: bs) = ((b0 mod 32) * 64 + b1 mod 64) :: decode bs.
Proof.
  intros H0 H1. cbn [decode].
  rewrite (proj2 (N.ltb_ge b0 0x80)) by lia.
  rewrite (between_true 0xC2 0xDF b0), (between_true 0x80 0xBF b1) by lia.
  unfold continuation. rewrite land_0x1F, land_0x3F, shiftl_6. reflexivity.
Qed.

Lemma decode_3 (b0 b1 b2 : N) (bs : list N) :
  0xE0 <= b0 <= 0xEF ->
  (if b0 =? 0xE0 then 0xA0 else 0x80) <= b1 <= (if b0 =? 0xED then 0x9F else 0xBF) ->
  0x80 <= b2 <= 0xBF ->
  decode (b0 :: b1 :: b2 :: bs)
  = ((b0 mod 16) * 4096 + (b1 mod 64) * 64 + b2 mod 64) :: decode bs.
Proof.
  intros H0 H1 H2. cbn [decode].
  rewrite (proj2 (N.ltb_ge b0 0x80)) by lia.
  rewrite (between_false 0xC2 0xDF b0) by lia.
  rewrite (between_true 0xE0 0xEF b0) by lia.
  rewrite (between_true _ _ b1) by exact H1.
  rewrite (between_true 0x80 0xBF b2) by lia.
  unfold continuation. rewrite land_0x0F, !land_0x3F, shiftl_6, shiftl_12. reflexivity.
Qed.

Lemma decode_4 (b0 b1 b2 b3 : N) (bs : list N) :
  0xF0 <= b0 <= 0xF4 ->
  (if b0 =? 0xF0 then 0x90 else 0x80) <= b1 <= (if b0 =? 0xF4 then 0x8F else 0xBF) ->
  0x80 <= b2 <= 0xBF ->
  0x80 <= b3 <= 0xBF ->
  decode (b0 :: b1 :: b2 :: b3 :: bs)
  = code_units ((b0 mod 8) * 262144 + (b1 mod 64) * 4096 + (b2 mod 64) * 64 + b3 mod 64)
      ++ decode bs.
Proof.
  intros H0 H1 H2 H3. cbn [decode].
  rewrite (proj2 (N.ltb_ge b0 0x80)) by lia.
  rewrite (between_false 0xC2 0xDF b0) by lia.
  rewrite (between_false 0xE0 0xEF b0) by lia.
  rewrite (between_true 0xF0 0xF4 b0) by lia.
  rewrite (between_true _ _ b1) by exact H1.
  rewrite (between_true 0x80 0xBF b2), (between_true 0x80 0xBF b3) by lia.
  unfold continuation. rewrite land_0x07, !land_0x3F, shiftl_6, shiftl_12, shiftl_18.
  reflexivity.
Qed.

Lemma code_units_bmp (cp : N) : cp < 0x10000 -> code_units cp = [cp].
Proof.
  intros Hcp. unfold code_units. rewrite (proj2 (N.ltb_lt cp 0x10000)) by exact Hcp.
  reflexivity.
Qed.

(** A code point that is not a surrogate is read back from its bytes. *)
Lemma decode_encode_code_point (cp : N) (bs : list N) :
  cp < 0xD800 \/ 0xE000 <= cp < 0x110000 ->
  decode (encode_code_point cp ++ bs) = code_units cp ++ decode bs.
Proof.
  intros Hscalar.
  destruct (N.lt_ge_cases cp 0x80) as [H1 | H1];
    [| destruct (N.lt_ge_cases cp 0x800) as [H2 | H2];
       [| destruct (N.lt_ge_cases cp 0x10000) as [H3 | H3]]].
  - unfold encode_code_point. rewrite (proj2 (N.ltb_lt cp 0x80)) by exact H1.
    cbn [app]. rewrite decode_1, code_units_bmp by lia. reflexivity.
  - rewrite encode_2, code_units_bmp by lia. cbn [app].
    rewrite decode_2 by div_lia. f_equal. div_lia.
  - rewrite encode_3, code_units_bmp by lia. cbn [app].
    rewrite decode_3.
    + f_equal. div_lia.
    + div_lia.
    + destruct (N.eqb_spec (0xE0 + cp / 4096) 0xE0);
        destruct (N.eqb_spec (0xE0 + cp / 4096) 0xED); div_lia.
    + div_lia.
  - rewrite encode_4 by lia. cbn [app].
    rewrite decode_4.
    + f_equal. f_equal. div_lia.
    + div_lia.
    + destruct (N.eqb_spec (0xF0 + cp / 262144) 0xF0);
        destruct (N.eqb_spec (0xF0 + cp / 262144) 0xF4); div_lia.
    + div_lia.
    + div_lia.
Qed.

Lemma is_high_surrogate_range (c : N) :
  is_high_surrogate c = true <-> 0xD800 <= c <= 0xDBFF.
Proof.
  unfold is_high_surrogate. rewrite andb_true_iff, !N.leb_le. reflexivity.
Qed.

Lemma is_low_surrogate_range (c : N) :
  is_low_surrogate c = true <-> 0xDC00 <= c <= 0xDFFF.
Proof.
  unfold is_low_surrogate. rewrite andb_true_iff, !N.leb_le. reflexivity.
Qed.

Lemma code_units_pair (c d : N) :
  is_high_surrogate c = true -> is_low_surrogate d = true ->
  code_units (0x10000 + (c - 0xD800) * 0x400 + (d - 0xDC00)) = [c; d].
Proof.
  rewrite is_high_surrogate_range, is_low_surrogate_range. intros Hc Hd.
  unfold code_units. rewrite (proj2 (N.ltb_ge _ 0x10000)) by lia.
  rewrite shiftr_10, land_0x3FF. f_equal; [| f_equal]; div_lia.
Qed.

(** Every well-formed string is kept by a text file: decoding the bytes
    written for it gives the string back. *)
Lemma decode_encode_well_formed (s : JsString) :
  well_formed s = true -> decode (encode s) = s.
Proof.
  remember (length s) as n eqn:Hn. revert s Hn.
  induction n as [n IH] using lt_wf_ind. intros s Hn Hwf.
  destruct s as [| c rest]; [reflexivity |].
  cbn [well_formed encode] in *.
  destruct (is_high_surrogate c) eqn:Hhigh.
  - destruct rest as [| d rest']; [discriminate |].
    apply andb_true_iff in Hwf as [Hlow Hwf]. rewrite Hlow.
    pose proof Hhigh as Hc. pose proof Hlow as Hd.
    apply is_high_surrogate_range in Hc. apply is_low_surrogate_range in Hd.
    rewrite decode_encode_code_point by lia.
    rewrite code_units_pair by assumption. cbn [app].
    rewrite (IH (length rest')) by (cbn in Hn; (lia || done)). reflexivity.
  - apply andb_true_iff in Hwf as [Hwf Hrest].
    apply andb_true_iff in Hwf as [Hnotlow Hbmp].
    apply negb_true_iff in Hnotlow. rewrite Hnotlow.
    apply N.ltb_lt in Hbmp.
    assert (Hscalar : c < 0xD800 \/ 0xE000 <= c < 0x110000).
    { destruct (N.lt_ge_cases c 0xD800) as [Hlt | Hge]; [left; exact Hlt | right].
      destruct (N.lt_ge_cases c 0xDC00) as [Hlt' | Hge'].
      - assert (is_high_surrogate c = true) by (apply is_high_surrogate_range; lia).
        congruence.
      - destruct (N.lt_ge_cases c 0xE000) as [Hlt'' | Hge'']; [| lia].
        assert (is_low_surrogate c = true) by (apply is_low_surrogate_range; lia).
        congruence. }
    rewrite decode_encode_code_point by exact Hscalar.
    rewrite code_units_bmp by exact Hbmp. cbn [app].
    rewrite (IH (length rest)) by (cbn in Hn; (lia || done)). reflexivity.
Qed.

End Utf8Facts.

(* ===================================================================== *)
(** * acquireLock                                                         *)
(* ===================================================================== *)

Section AcquireLockFacts.
Context {SS SL : Type}.
Variable lm : ILockingManager SL.
Variable p : JsString.
Variables maxRetry retryWait : Z.

Abbreviation run := (Utils.acquireLock_from p (spy_locking (SS := SS) lm) maxRetry retryWait).

Abbreviation failed_attempt := (Spy.failed_attempt p retryWait).
Abbreviation failed_attempts := (Spy.failed_attempts p retryWait).
Abbreviation gave_up := (Utils.gave_up p).

Lemma acquireLock_from_exit i (w : Observed SS SL) :
  maxRetry <= i -> run i w = (Thrown gave_up, w).
Proof.
  intros Hi. simp acquireLock_from.
  destruct (Z_lt_dec i maxRetry) as [Hlt | Hge]; [lia | reflexivity].
Qed.

Lemma acquireLock_from_step i (w : Observed SS SL) :
  i < maxRetry ->
  run i w =
    match Index.lock lm p (locking_state w) with
    | (Returned true, s) =>
        (Returned tt, mkObserved (storage_state w) s (events w ++ [EvLock p]))
    | (Returned false, s) =>
        run (i + 1) (mkObserved (storage_state w) s (events w ++ failed_attempt))
    | (Thrown e, s) =>
        (Thrown e, mkObserved (storage_state w) s (events w ++ [EvLock p]))
    end.
Proof.
  intros Hi. simp acquireLock_from.
  destruct (Z_lt_dec i maxRetry) as [Hlt | Hge]; [| lia].
  cbn. unfold bind at 1. cbn. unfold on_locking.
  destruct (Index.lock lm p (locking_state w)) as [[[|] | e] s]; cbn; try reflexivity.
  apply Z.ltb_lt in Hi. rewrite Hi. unfold bind, Utils.waitForTime. cbn.
  rewrite <- app_assoc. simp acquireLock_from. reflexivity.
Qed.

Lemma lock_outcomes_snoc (k : nat) (s : SL) :
  lock_outcomes lm p (S k) s =
    let '(os, s1) := lock_outcomes lm p k s in
    let '(o, s2) := Index.lock lm p s1 in
    (os ++ [o], s2).
Proof.
  revert s. induction k as [| k IH]; intros s.
  - cbn. destruct (Index.lock lm p s) as [o s1]. reflexivity.
  - cbn [lock_outcomes]. destruct (Index.lock lm p s) as [o s1].
    specialize (IH s1). cbn [lock_outcomes] in IH. rewrite IH.
    destruct (lock_outcomes lm p k s1) as [os s2].
    destruct (Index.lock lm p s2) as [o' s3]. reflexivity.
Qed.

(** [k] failed attempts in a row move the loop [k] rounds on, each round
    leaving a call and a wait behind. *)
Lemma acquireLock_from_failed_run (k : nat) :
  forall i (w : Observed SS SL) s',
    i + Z.of_nat k <= maxRetry ->
    lock_outcomes lm p k (locking_state w) = (repeat (Returned false) k, s') ->
    run i w =
    run (i + Z.of_nat k)
        (mkObserved (storage_state w) s' (events w ++ failed_attempts k)).
Proof.
  induction k as [| k IH]; intros i w s' Hle Hout.
  - cbn in Hout. injection Hout as <-. unfold Spy.failed_attempts. cbn.
    rewrite app_nil_r, Z.add_0_r. destruct w; reflexivity.
  - cbn [lock_outcomes] in Hout.
    rewrite acquireLock_from_step by lia.
    destruct (Index.lock lm p (locking_state w)) as [o s1].
    destruct (lock_outcomes lm p k s1) as [os s2] eqn:Hrest.
    cbn [repeat] in Hout. injection Hout as -> -> ->.
    rewrite (IH (i + 1) _ s') by (cbn; (lia || exact Hrest)).
    cbn [storage_state events]. unfold Spy.failed_attempts. cbn [repeat concat].
    rewrite <- app_assoc. f_equal; lia.
Qed.

Lemma waits_failed_attempts (k : nat) : waits (failed_attempts k) = k.
Proof.
  induction k as [| k IH]; [reflexivity |].
  unfold Spy.failed_attempts in *. cbn [repeat concat].
  unfold waits in *. rewrite List.filter_app, length_app, IH. reflexivity.
Qed.

Lemma lock_calls_failed_attempts (k : nat) : lock_calls (failed_attempts k) = k.
Proof.
  induction k as [| k IH]; [reflexivity |].
  unfold Spy.failed_attempts in *. cbn [repeat concat].
  unfold lock_calls in *. rewrite List.filter_app, length_app, IH. reflexivity.
Qed.

Lemma waited_ms_failed_attempts (k : nat) :
  waited_ms (failed_attempts k) = Z.of_nat k * retryWait.
Proof.
  induction k as [| k IH]; [reflexivity |].
  unfold Spy.failed_attempts in *. cbn [repeat concat].
  unfold Spy.failed_attempt at 1. cbn. fold (concat (repeat (Spy.failed_attempt p retryWait) k)).
  unfold waited_ms in IH. rewrite IH. lia.
Qed.

(** When every one of the [maxRetry] attempts fails, the run is [maxRetry]
    rounds of call and wait, the last wait included. *)
Lemma acquireLock_exhausted (n : nat) (ss : SS) (s s' : SL) :
  maxRetry = Z.of_nat n ->
  lock_outcomes lm p n s = (repeat (Returned false) n, s') ->
  Utils.acquireLock p (spy_locking lm) maxRetry retryWait (mkObserved ss s [])
  = (Thrown gave_up, mkObserved ss s' (failed_attempts n)).
Proof.
  intros Hn Hout. unfold Utils.acquireLock.
  rewrite (acquireLock_from_failed_run n 0 _ s') by (cbn; (lia || exact Hout)).
  rewrite acquireLock_from_exit by lia. reflexivity.
Qed.

Lemma acquireLock_exhausted_waits (n : nat) (ss : SS) (s s' : SL) :
  maxRetry = Z.of_nat n ->
  lock_outcomes lm p n s = (repeat (Returned false) n, s') ->
  let w' := snd (Utils.acquireLock p (spy_locking lm) maxRetry retryWait
                   (mkObserved ss s [])) in
  waits (events w') = n /\ waited_ms (events w') = maxRetry * retryWait.
Proof.
  intros Hn Hout. cbn zeta. rewrite (acquireLock_exhausted n ss s s' Hn Hout).
  cbn [snd events]. rewrite waits_failed_attempts, waited_ms_failed_attempts.
  split; [reflexivity | lia].
Qed.

(** The end of a run whose attempt number [k + 1] is the first that does
    not answer [false]: what that attempt answers decides the run, and
    nothing is called or waited for after it. *)
Lemma acquireLock_decided (k : nat) (o : Outcome bool) (ss : SS) (s s' : SL) :
  Z.of_nat k < maxRetry ->
  o <> Returned false ->
  lock_outcomes lm p (S k) s = (repeat (Returned false) k ++ [o], s') ->
  Utils.acquireLock p (spy_locking lm) maxRetry retryWait (mkObserved ss s [])
  = (match o with Returned _ => Returned tt | Thrown e => Thrown e end,
     mkObserved ss s' (failed_attempts k ++ [EvLock p])).
Proof.
  intros Hk Ho Hout. rewrite lock_outcomes_snoc in Hout.
  destruct (lock_outcomes lm p k s) as [os s1] eqn:Hfirst.
  destruct (Index.lock lm p s1) as [o' s2] eqn:Hlast.
  injection Hout as Hos <-. apply app_inj_tail in Hos as [-> ->].
  unfold Utils.acquireLock.
  rewrite (acquireLock_from_failed_run k 0 _ s1) by (cbn; (lia || exact Hfirst)).
  rewrite acquireLock_from_step by lia. cbn [locking_state storage_state events].
  rewrite Hlast. destruct o as [[|] | e]; [reflexivity | congruence | reflexivity].
Qed.

(** C5.  If attempt number [k + 1 <= maxRetry] is the first to answer
    [true], [acquireLock] returns right there: the backend has been called
    [k + 1] times, [k] waits of [retryWait] lie between the calls, and the
    run ends with the successful call. *)
Theorem acquireLock_returns_on_first_true (k : nat) (ss : SS) (s s' : SL) :
  Z.of_nat k < maxRetry ->
  lock_outcomes lm p (S k) s = (repeat (Returned false) k ++ [Returned true], s') ->
  let '(o, w') := Utils.acquireLock p (spy_locking lm) maxRetry retryWait
                    (mkObserved ss s []) in
  o = Returned tt /\
  locking_state w' = s' /\
  events w' = failed_attempts k ++ [EvLock p] /\
  lock_calls (events w') = S k /\
  waits (events w') = k /\
  waited_ms (events w') = Z.of_nat k * retryWait.
Proof.
  intros Hk Hout.
  rewrite (acquireLock_decided k (Returned true) ss s s' Hk) by (congruence || exact Hout).
  cbn [locking_state events]. repeat split.
  - unfold lock_calls. rewrite List.filter_app, length_app. cbn.
    fold (lock_calls (failed_attempts k)). rewrite lock_calls_failed_attempts. lia.
  - unfold waits. rewrite List.filter_app, length_app. cbn.
    fold (waits (failed_attempts k)). rewrite waits_failed_attempts. lia.
  - unfold waited_ms. rewrite foldr_app. cbn.
    fold (waited_ms (failed_attempts k)). apply waited_ms_failed_attempts.
Qed.

(** C4.  If attempt number [k + 1 <= maxRetry] throws [e] after [k]
    answers [false], [acquireLock] throws the same [e] right there: the
    throwing call is the last event of the run, no call and no wait
    follows it. *)
Theorem acquireLock_propagates_thrown (k : nat) (e : JsError) (ss : SS) (s s' : SL) :
  Z.of_nat k < maxRetry ->
  lock_outcomes lm p (S k) s = (repeat (Returned false) k ++ [Thrown e], s') ->
  Utils.acquireLock p (spy_locking lm) maxRetry retryWait (mkObserved ss s [])
  = (Thrown e, mkObserved ss s' (failed_attempts k ++ [EvLock p])).
Proof.
  intros Hk Hout.
  apply (acquireLock_decided k (Thrown e) ss s s' Hk); [congruence | exact Hout].
Qed.

End AcquireLockFacts.

(** C5, the instance of the specification: [maxRetry = 3], a wait of 100
    and a backend answering [false], [false], [true]. *)
Lemma acquireLock_false_false_true :
  let '(o, w') :=
    Utils.acquireLock (js "p") (spy_locking scripted) 3 100
      (mkObserved tt [Returned false; Returned false; Returned true] []) in
  o = Returned tt /\
  locking_state w' = [] /\
  events w' = [EvLock (js "p"); EvWait 100; EvLock (js "p"); EvWait 100; EvLock (js "p")] /\
  lock_calls (events w') = 3%nat /\
  waits (events w') = 2%nat /\
  waited_ms (events w') = 200.
Proof.
  apply (acquireLock_returns_on_first_true (SS := unit) scripted (js "p") 3 100 2 tt
           [Returned false; Returned false; Returned true] []);
    [lia | reflexivity].
Defined.

(** C4 at a backend whose second call fails with a networking error. *)
Lemma acquireLock_second_call_throws :
  Utils.acquireLock (js "p") (spy_locking scripted) 5 400
    (mkObserved tt [Returned false; Thrown DynamoDB.NetworkingError; Returned true] [])
  = (Thrown DynamoDB.NetworkingError,
     mkObserved tt [Returned true] [EvLock (js "p"); EvWait 400; EvLock (js "p")]).
Proof.
  apply (acquireLock_propagates_thrown (SS := unit) scripted (js "p") 5 400 1
           DynamoDB.NetworkingError tt
           [Returned false; Thrown DynamoDB.NetworkingError; Returned true] [Returned true]);
    [lia | reflexivity].
Defined.

(** C6.  With [maxRetry = 0] the loop body never runs: [acquireLock]
    throws [AcquireLockError], whose message names the path, and leaves
    the world as it found it, so that no call reached the backend and
    nothing was waited for.  This holds in every world, for every backend
    and every timer. *)
Theorem acquireLock_zero_retries {W : Type} `{Timers W}
    (path : JsString) (lm : ILockingManager W) (retryWait : Z) (w : W) :
  Utils.acquireLock path lm 0 retryWait w
  = (Thrown (Utils.AcquireLockError
               (js "Could not acquire lock on path " ++ path ++ js ".")), w).
Proof.
  unfold Utils.acquireLock. simp acquireLock_from.
  destruct (Z_lt_dec 0 0) as [Hlt | Hge]; [lia | reflexivity].
Qed.

(** C1 on the code.  With [maxRetry = 1] and a backend that answers
    [false], [acquireLock] calls the backend once, then waits [retryWait]
    milliseconds, and only then throws: the guard [i < maxRetry] around
    the wait is the loop condition again, so it holds in every round,
    the last one too. *)
Theorem acquireLock_waits_after_last_attempt :
  Utils.acquireLock (js "p") (spy_locking scripted) 1 400
    (mkObserved tt [Returned false] [])
  = (Thrown (Utils.gave_up (js "p")),
     mkObserved tt [] [EvLock (js "p"); EvWait 400]).
Proof.
  apply (acquireLock_exhausted (SS := unit) scripted (js "p") 1 400 1 tt
           [Returned false] []); reflexivity.
Qed.

(* ===================================================================== *)
(** * LockableStorageManager                                              *)
(* ===================================================================== *)

(** C2.  A manager built without a storage backend throws on [write],
    [read], [delete] and [exists], whatever else it was given, and leaves
    the world untouched; one built without a locking backend does the same
    on [lock], [unlock] and [isLocked].  The family whose backend is
    present behaves exactly as that backend does: same outcome, same
    world. *)
Theorem facade_missing_backend {W : Type}
    (sm : IStorageManager W) (lm : ILockingManager W)
    (smo : option (IStorageManager W)) (lmo : option (ILockingManager W))
    (data path __default : JsString) (w : W) :
  let no_storage := {| Facade.storageManager := None; Facade.lockingManager := lmo |} in
  let no_locking := {| Facade.storageManager := smo; Facade.lockingManager := None |} in
  let only_locking := {| Facade.storageManager := None; Facade.lockingManager := Some lm |} in
  let only_storage := {| Facade.storageManager := Some sm; Facade.lockingManager := None |} in
  (Facade.write no_storage data path w
     = (Thrown (Error (js "[LockableStorageManager][write] Trying to use storage manager which does not exist.")), w)
   /\ Facade.read no_storage path __default w
     = (Thrown (Error (js "[LockableStorageManager][read] Trying to use storage manager which does not exist.")), w)
   /\ Facade.delete no_storage path w
     = (Thrown (Error (js "[LockableStorageManager][delete] Trying to use storage manager which does not exist.")), w)
   /\ Facade.exists_ no_storage path w
     = (Thrown (Error (js "[LockableStorageManager][exists] Trying to use storage manager which does not exist.")), w))
  /\
  (Facade.lock no_locking path w
     = (Thrown (Error (js "[LockableStorageManager][lock] Trying to use locking manager which does not exist.")), w)
   /\ Facade.unlock no_locking path w
     = (Thrown (Error (js "[LockableStorageManager][unlock] Trying to use locking manager which does not exist.")), w)
   /\ Facade.isLocked no_locking path w
     = (Thrown (Error (js "[LockableStorageManager][isLocked] Trying to use locking manager which does not exist.")), w))
  /\
  (Facade.lock only_locking path w = Index.lock lm path w
   /\ Facade.unlock only_locking path w = Index.unlock lm path w
   /\ Facade.isLocked only_locking path w = Index.isLocked lm path w)
  /\
  (Facade.write only_storage data path w = Index.write sm data path w
   /\ Facade.read only_storage path __default w = Index.read sm path __default w
   /\ Facade.delete only_storage path w = Index.delete sm path w
   /\ Facade.exists_ only_storage path w = Index.exists_ sm path w).
Proof.
  cbn zeta.
  unfold Facade.write, Facade.read, Facade.delete, Facade.exists_,
    Facade.lock, Facade.unlock, Facade.isLocked.
  cbn [Facade.storageManager Facade.lockingManager].
  rewrite !bind_ret_r. repeat split.
Qed.

Section FacadeFrame.
Context {SS SL : Type}.
Variable sm : IStorageManager SS.
Variable lmo : option (ILockingManager SL).

(** A manager over spied backends: storage present, locking as given. *)
Abbreviation configured :=
  {| Facade.storageManager := Some (spy_storage (SL := SL) sm);
     Facade.lockingManager := spy_locking (SS := SS) <$> lmo |}.

(** C3.  [write(d, p)] and [delete(p)] reach the storage backend once,
    with the arguments they were given, and do nothing else: the outcome
    and the new storage state are the backend's, the one event of the run
    is that call (no [lock], [unlock] or [isLocked], no second try even
    when the backend throws), and the locking state is the one before the
    call. *)
Theorem facade_write_delete_only_delegate (data path : JsString) (w : Observed SS SL) :
  Facade.write configured data path w
  = (fst (Index.write sm data path (storage_state w)),
     mkObserved (snd (Index.write sm data path (storage_state w)))
                (locking_state w) (events w ++ [EvWrite data path]))
  /\
  Facade.delete configured path w
  = (fst (Index.delete sm path (storage_state w)),
     mkObserved (snd (Index.delete sm path (storage_state w)))
                (locking_state w) (events w ++ [EvDelete path])).
Proof.
  unfold Facade.write, Facade.delete. cbn [Facade.storageManager].
  rewrite !bind_ret_r. cbn. unfold on_storage.
  destruct (Index.write sm data path (storage_state w)) as [o1 s1].
  destruct (Index.delete sm path (storage_state w)) as [o2 s2].
  split; reflexivity.
Qed.

End FacadeFrame.

(* ===================================================================== *)
(** * DynamoLockingManager                                                *)
(* ===================================================================== *)

Section DynamoFacts.
Context {W : Type} `{AWS.DocumentClient W} `{Clock W} `{Console W}.
Variable this : Dlm.t.

Lemma dynamo_lock_cases (path : JsString) (w : W) :
  Dlm.lock this path w =
    match AWS.put (Dlm.lock_params this path (Date_getTime w / 1000)) w with
    | (Returned _, w') => (Returned true, w')
    | (Thrown e, w') =>
        (Returned false,
         console_print
           (ErrorLine [PText (js "[Error][DynamoLockingManager.lock] "); Dlm.report this e]) w')
    end.
Proof.
  unfold Dlm.lock, Dlm.getTimestamp, bind at 1. cbn beta iota zeta.
  unfold try_catch, bind, ret, console_error, effect.
  destruct (AWS.put _ w) as [[[] | e] w']; reflexivity.
Qed.

Lemma dynamo_unlock_cases (path : JsString) (w : W) :
  Dlm.unlock this path w =
    match AWS.delete (Dlm.unlock_params this path) w with
    | (Returned _, w') => (Returned true, w')
    | (Thrown e, w') =>
        (Returned false,
         console_print
           (ErrorLine [PText (js "[Error][DynamoLockingManager.unlock] "); Dlm.report this e]) w')
    end.
Proof.
  unfold Dlm.unlock. cbn zeta.
  unfold try_catch, bind, ret, console_error, effect.
  destruct (AWS.delete _ w) as [[[] | e] w']; reflexivity.
Qed.

Lemma dynamo_isLocked_cases (path : JsString) (w : W) :
  Dlm.isLocked this path w =
    match AWS.get (Dlm.isLocked_params this path) w with
    | (Returned response, w') => (Returned (bool_decide (is_Some (AWS.Item response))), w')
    | (Thrown e, w') =>
        (Returned false,
         console_print
           (ErrorLine [PText (js "[Error][DynamoLockingManager.isLocked] "); Dlm.report this e]) w')
    end.
Proof.
  unfold Dlm.isLocked. cbn zeta.
  unfold try_catch, bind, ret, console_error, effect.
  destruct (AWS.get _ w) as [[r | e] w']; reflexivity.
Qed.

(** C9.  None of [lock], [unlock] and [isLocked] throws, whatever the
    client does; and whenever the client call behind one of them throws,
    whatever the error, the method returns [false].  The return value
    after a failed conditional check and after a failure of the network
    is therefore the same. *)
Theorem dynamo_errors_read_false (path : JsString) (w : W) :
  (is_returned (fst (Dlm.lock this path w)) = true
   /\ is_returned (fst (Dlm.unlock this path w)) = true
   /\ is_returned (fst (Dlm.isLocked this path w)) = true)
  /\
  (forall e w',
     AWS.put (Dlm.lock_params this path (Date_getTime w / 1000)) w = (Thrown e, w') ->
     fst (Dlm.lock this path w) = Returned false)
  /\
  (forall e w',
     AWS.delete (Dlm.unlock_params this path) w = (Thrown e, w') ->
     fst (Dlm.unlock this path w) = Returned false)
  /\
  (forall e w',
     AWS.get (Dlm.isLocked_params this path) w = (Thrown e, w') ->
     fst (Dlm.isLocked this path w) = Returned false).
Proof.
  rewrite dynamo_lock_cases, dynamo_unlock_cases, dynamo_isLocked_cases.
  repeat split.
  - destruct (AWS.put _ w) as [[[] | e] w']; reflexivity.
  - destruct (AWS.delete _ w) as [[[] | e] w']; reflexivity.
  - destruct (AWS.get _ w) as [[r | e] w']; reflexivity.
  - intros e w' ->. reflexivity.
  - intros e w' ->. reflexivity.
  - intros e w' ->. reflexivity.
Qed.

End DynamoFacts.

(** C9 at an endpoint that cannot be reached: the three calls fail with a
    networking error and the three methods return [false], as [lock] does
    on a path that is already locked. *)
Lemma dynamo_unreachable_reads_false :
  let w := DynamoDB.unplug DynamoDB.p_locked in
  fst (Dlm.lock DynamoDB.locks_manager (js "p") w) = Returned false
  /\ fst (Dlm.unlock DynamoDB.locks_manager (js "p") w) = Returned false
  /\ fst (Dlm.isLocked DynamoDB.locks_manager (js "p") w) = Returned false
  /\ fst (Dlm.lock DynamoDB.locks_manager (js "p") DynamoDB.p_locked) = Returned false.
Proof.
  cbn zeta.
  destruct (dynamo_errors_read_false DynamoDB.locks_manager (js "p")
              (DynamoDB.unplug DynamoDB.p_locked)) as (_ & Hl & Hu & Hi).
  destruct (dynamo_errors_read_false DynamoDB.locks_manager (js "p")
              DynamoDB.p_locked) as (_ & Hl' & _).
  split; [| split; [| split]].
  - eapply Hl. reflexivity.
  - eapply Hu. reflexivity.
  - eapply Hi. reflexivity.
  - eapply Hl'. vm_compute. reflexivity.
Defined.

Section DynamoInMemory.
Import DynamoDB.
Variable this : Dlm.t.

Lemma key_of_id (path : JsString) : key_of {[ js "id" := AWS.AttrS path ]} = Some path.
Proof. unfold key_of. rewrite lookup_singleton_eq. reflexivity. Qed.

Lemma mem_isLocked_present (path : JsString) (w : World) (tbl : gmap JsString AWS.ItemMap) :
  reachable w = true ->
  tables w !! Dlm.tableName this = Some tbl ->
  Dlm.isLocked this path w = (Returned (bool_decide (is_Some (tbl !! path))), w).
Proof.
  intros Hr Ht. rewrite dynamo_isLocked_cases.
  unfold AWS.get, mem_client, mem_get, with_table, Dlm.isLocked_params.
  cbn [AWS.get_TableName AWS.get_Key].
  rewrite Hr, Ht, key_of_id. reflexivity.
Qed.

(** C7, as the code has it.  At a reachable endpoint [isLocked(path)]
    answers whether the table holds an item for [path], and nothing else:
    neither the item's [expireAt] nor the clock is looked at.  An expired
    lease reads as unlocked once the sweep of the service has removed its
    item. *)
Theorem isLocked_reads_presence (path : JsString) (w : World)
    (tbl : gmap JsString AWS.ItemMap) :
  reachable w = true ->
  tables w !! Dlm.tableName this = Some tbl ->
  fst (Dlm.isLocked this path w) = Returned (bool_decide (is_Some (tbl !! path)))
  /\
  (lease_expired (Dlm.tableName this) (js "expireAt") path w = true ->
   fst (Dlm.isLocked this path (ttl_sweep (Dlm.tableName this) (js "expireAt") w))
   = Returned false).
Proof.
  intros Hr Ht. split.
  - rewrite (mem_isLocked_present path w tbl Hr Ht). reflexivity.
  - unfold lease_expired. rewrite Ht. intros Hexp.
    destruct (tbl !! path) as [item |] eqn:Hitem; [| discriminate].
    set (kept := filter (fun kv : JsString * AWS.ItemMap =>
                           expired (js "expireAt") (now_ms w / 1000) kv.2 = false) tbl).
    rewrite (mem_isLocked_present path _ kept).
    + cbn [fst]. f_equal. apply bool_decide_eq_false. intros [it Hit].
      apply map_lookup_filter_Some in Hit as [Hit Hkeep]. cbn [snd] in Hkeep.
      rewrite Hitem in Hit. injection Hit as <-. congruence.
    + unfold ttl_sweep. rewrite Ht. exact Hr.
    + unfold ttl_sweep. rewrite Ht. cbn [tables set_tables]. apply lookup_insert_eq.
Qed.

End DynamoInMemory.

(** C7 at the lease of [p]: 1000 seconds after the lock was taken the
    item is still in the table and [isLocked] answers [true]; after the
    sweep it answers [false]. *)
Lemma isLocked_before_and_after_sweep :
  fst (Dlm.isLocked DynamoDB.locks_manager (js "p") DynamoDB.p_lease_over)
    = Returned true
  /\
  fst (Dlm.isLocked DynamoDB.locks_manager (js "p")
         (DynamoDB.ttl_sweep (js "locks") (js "expireAt") DynamoDB.p_lease_over))
    = Returned false.
Proof.
  destruct (isLocked_reads_presence DynamoDB.locks_manager (js "p") DynamoDB.p_lease_over
              (DynamoDB.tables DynamoDB.p_lease_over !!! js "locks"))
    as [Hpresent Hswept].
  - reflexivity.
  - vm_compute. reflexivity.
  - split.
    + rewrite Hpresent. vm_compute. reflexivity.
    + apply Hswept. vm_compute. reflexivity.
Defined.

(** C7 fails as stated: the lease of [p] ran out at second 900, the clock
    reads second 1000, and [isLocked("p")] returns [true]. *)
Lemma expired_lease_reads_locked :
  DynamoDB.lease_expired (js "locks") (js "expireAt") (js "p") DynamoDB.p_lease_over = true
  /\ fst (Dlm.isLocked DynamoDB.locks_manager (js "p") DynamoDB.p_lease_over)
     <> Returned false.
Proof.
  split; [vm_compute; reflexivity |].
  vm_compute. discriminate.
Qed.

(* ===================================================================== *)
(** * LocalFileStorageManager                                             *)
(* ===================================================================== *)

Section LocalFileFacts.
Context {W : Type} `{NodeFs.Fs W} `{Console W}.
Variable this : Lfm.t.

Lemma local_read_cases (path __default : JsString) (w : W) :
  Lfm.read this path __default w =
    match NodeFs.readFileSync_utf8 (NodePath.join (Lfm.rootDir this) path) w with
    | (Returned text, w') => (Returned text, w')
    | (Thrown err, w') => (Returned __default, console_print (ErrorLine [PError err]) w')
    end.
Proof.
  unfold Lfm.read. cbn zeta. unfold try_catch.
  destruct (NodeFs.readFileSync_utf8 _ w) as [[text | err] w']; reflexivity.
Qed.

(** [delete] swallows whatever [unlinkSync] throws. *)
Lemma local_delete_returns (path : JsString) (w : W) :
  fst (Lfm.delete this path w) = Returned tt.
Proof.
  unfold Lfm.delete. cbn zeta. unfold try_catch, bind, console_log, console_error, effect.
  destruct (NodeFs.unlinkSync _ w) as [[[] | err] w']; [reflexivity |].
  destruct (bool_decide _); reflexivity.
Qed.

(** C10.  [read] never throws, and whenever [readFileSync] throws,
    whatever the error (a missing file, a directory in place of the file,
    a refused permission, ...), [read] returns [__default]. *)
Theorem local_read_defaults_on_any_error (path __default : JsString) (w : W) :
  is_returned (fst (Lfm.read this path __default w)) = true
  /\
  (forall err w',
     NodeFs.readFileSync_utf8 (NodePath.join (Lfm.rootDir this) path) w = (Thrown err, w') ->
     fst (Lfm.read this path __default w) = Returned __default).
Proof.
  rewrite local_read_cases. split.
  - destruct (NodeFs.readFileSync_utf8 _ w) as [[text | err] w']; reflexivity.
  - intros err w' ->. reflexivity.
Qed.

End LocalFileFacts.

(** C10 where the permission to read is refused, and where the path
    names a directory. *)
Lemma local_read_refused_or_directory :
  fst (Lfm.read MemFs.data_manager (js "sub/f") (js "fallback") ([] : list ConsoleLine))
    = Returned (js "fallback")
  /\
  fst (Lfm.read MemFs.data_manager (js "sub") (js "fallback") MemFs.one_file)
    = Returned (js "fallback").
Proof.
  split.
  - eapply (proj2 (local_read_defaults_on_any_error MemFs.data_manager
                     (js "sub/f") (js "fallback") ([] : list ConsoleLine))).
    reflexivity.
  - eapply (proj2 (local_read_defaults_on_any_error MemFs.data_manager
                     (js "sub") (js "fallback") MemFs.one_file)).
    vm_compute. reflexivity.
Defined.

(* --------------------------------------------------------------------- *)
(** ** On the disk in memory                                              *)
(* --------------------------------------------------------------------- *)

Section MemFsFacts.
Import MemFs.

Abbreviation Entries := (gmap (list JsString) Entry).

Lemma entry_at_cons (es : Entries) (segs : list JsString) :
  segs <> [] -> entry_at es segs = es !! segs.
Proof. destruct segs; [congruence | reflexivity]. Qed.

(** Changing the disk at [K] does not change what a shorter path meets. *)
Lemma entry_at_other (es es' : Entries) (K segs : list JsString) :
  (forall k, k <> K -> es' !! k = es !! k) ->
  (length segs < length K)%nat ->
  entry_at es' segs = entry_at es segs.
Proof.
  intros Hsame Hlen. destruct segs as [| a segs]; [reflexivity |].
  cbn [entry_at]. apply Hsame. intros <-. lia.
Qed.

Lemma walk_other (es es' : Entries) (K : list JsString) :
  (forall k, k <> K -> es' !! k = es !! k) ->
  forall rest prefix,
    (length (prefix ++ rest) < length K)%nat ->
    walk es' prefix rest = walk es prefix rest.
Proof.
  intros Hsame. induction rest as [| seg rest IH]; intros prefix Hlen.
  - cbn [walk]. rewrite (entry_at_other es es' K) by (rewrite ?app_nil_r in Hlen; done).
    reflexivity.
  - cbn [walk].
    rewrite (entry_at_other es es' K)
      by (done || (rewrite length_app in Hlen; cbn in Hlen; lia)).
    rewrite IH; [reflexivity |].
    rewrite <- app_assoc. exact Hlen.
Qed.

Lemma walk_snoc (es : Entries) (x : JsString) :
  forall rest prefix,
    walk es prefix (rest ++ [x]) =
      match walk es prefix rest with
      | inr Directory =>
          match entry_at es (prefix ++ rest ++ [x]) with
          | Some e => inr e
          | None => inl "ENOENT"%string
          end
      | inr (File _) => inl "ENOTDIR"%string
      | inl c => inl c
      end.
Proof.
  induction rest as [| seg rest IH]; intros prefix.
  - cbn [walk app]. destruct (entry_at es prefix) as [[b |] |]; reflexivity.
  - cbn [walk app]. destruct (entry_at es prefix) as [[b |] |]; try reflexivity.
    rewrite IH. rewrite <- app_assoc. reflexivity.
Qed.

(** A path other than the root is its parent and its last segment. *)
Lemma split_last (segs : list JsString) :
  segs <> [] -> exists x, segs = removelast segs ++ [x].
Proof.
  intros Hne. exists (List.last segs []). apply app_removelast_last. exact Hne.
Qed.

Lemma walk_found_parent (es : Entries) (segs : list JsString) (e : Entry) :
  segs <> [] ->
  walk es [] segs = inr e ->
  walk es [] (removelast segs) = inr Directory.
Proof.
  intros Hne Hw. destruct (split_last segs Hne) as [x Hx].
  rewrite Hx, walk_snoc in Hw.
  destruct (walk es [] (removelast segs)) as [c | [b |]]; congruence.
Qed.

Lemma walk_root (es : Entries) : walk es [] [] = inr Directory.
Proof. reflexivity. Qed.

(** After an entry is put at [segs], under a parent that is a directory,
    the walk to [segs] finds it. *)
Lemma walk_insert (es : Entries) (segs : list JsString) (e : Entry) :
  segs <> [] ->
  walk es [] (removelast segs) = inr Directory ->
  walk (<[segs := e]> es) [] segs = inr e.
Proof.
  intros Hne Hpar. destruct (split_last segs Hne) as [x Hx].
  rewrite Hx at 2. rewrite walk_snoc.
  rewrite (walk_other es _ segs).
  - rewrite Hpar. cbn [app]. rewrite <- Hx.
    rewrite entry_at_cons by exact Hne. rewrite lookup_insert_eq. reflexivity.
  - intros k Hk. apply lookup_insert_ne. congruence.
  - cbn [app]. rewrite Hx at 2. rewrite length_app. cbn. lia.
Qed.

(** After the entry at [segs] is removed, the walk to [segs] finds
    nothing. *)
Lemma walk_delete (es : Entries) (segs : list JsString) (e : Entry) :
  segs <> [] ->
  walk es [] segs = inr e ->
  walk (base.delete segs es) [] segs = inl "ENOENT"%string.
Proof.
  intros Hne Hw. pose proof (walk_found_parent es segs e Hne Hw) as Hpar.
  destruct (split_last segs Hne) as [x Hx].
  rewrite Hx at 2. rewrite walk_snoc.
  rewrite (walk_other es _ segs).
  - rewrite Hpar. cbn [app]. rewrite <- Hx.
    rewrite entry_at_cons by exact Hne. rewrite lookup_delete_eq. reflexivity.
  - intros k Hk. apply lookup_delete_ne. congruence.
  - cbn [app]. rewrite Hx at 2. rewrite length_app. cbn. lia.
Qed.

(** [stat] reads the entries and the working directory only. *)
Lemma stat_ext (w w' : World) (path : JsString) :
  entries w = entries w' -> cwd w = cwd w' -> stat w path = stat w' path.
Proof.
  intros He Hc. unfold stat, resolve. rewrite He, Hc. reflexivity.
Qed.

Lemma stat_found (w : World) (path : JsString) (e : Entry) :
  stat w path = inr e ->
  walk (entries w) [] (resolve w path) = inr e
  /\ (forall b, e = File b -> last path <> Some NodePath.slash).
Proof.
  unfold stat. destruct path as [| c path]; [discriminate |].
  destruct (walk (entries w) [] (resolve w (c :: path))) as [c' | [b |]]; try congruence.
  - case_bool_decide as Hslash; [discriminate |].
    intros [= <-]. split; [reflexivity |]. intros _ _. exact Hslash.
  - intros [= <-]. split; [reflexivity |]. intros b' Hb. discriminate.
Qed.

Lemma stat_file (w : World) (path : JsString) (b : list N) :
  path <> [] ->
  last path <> Some NodePath.slash ->
  walk (entries w) [] (resolve w path) = inr (File b) ->
  stat w path = inr (File b).
Proof.
  intros Hne Hslash Hw. unfold stat. destruct path as [| c path]; [congruence |].
  rewrite Hw. rewrite bool_decide_eq_false_2 by exact Hslash. reflexivity.
Qed.

(** A file that [writeFileSync] has written is what [stat] finds at the
    path afterwards. *)
Lemma writeFileSync_stat (path data : JsString) (w w' : World) :
  mem_writeFileSync path data w = (Returned tt, w') ->
  stat w' path = inr (File (Utf8.encode data)).
Proof.
  unfold mem_writeFileSync.
  destruct (stat w path) as [c | [b |]] eqn:Hstat.
  - destruct path as [| x path]; [discriminate |].
    destruct (walk (entries w) [] (removelast (resolve w (x :: path))))
      as [c' | [b |]] eqn:Hpar; try discriminate.
    case_bool_decide as Hc; [| discriminate].
    case_bool_decide as Hslash; [discriminate |].
    intros [= <-].
    assert (Hne : resolve w (x :: path) <> []).
    { intros Hroot. unfold stat in Hstat. rewrite Hroot, walk_root in Hstat. discriminate. }
    apply stat_file; [discriminate | exact Hslash |].
    change (resolve (set_entries w _) (x :: path)) with (resolve w (x :: path)).
    cbn [entries set_entries]. apply walk_insert; assumption.
  - intros [= <-].
    assert (Hpath : path <> []) by (intros ->; discriminate Hstat).
    apply stat_found in Hstat as [Hw Hslash].
    assert (Hne : resolve w path <> []).
    { intros Hroot. rewrite Hroot, walk_root in Hw. discriminate. }
    apply stat_file.
    + exact Hpath.
    + eapply Hslash. reflexivity.
    + change (resolve (set_entries w _) path) with (resolve w path).
      cbn [entries set_entries]. apply walk_insert; [exact Hne |].
      eapply walk_found_parent; eassumption.
  - discriminate.
Qed.

Variable this : Lfm.t.

Abbreviation fullPath_of path := (NodePath.join (Lfm.rootDir this) path).

Lemma local_write_inv (data path : JsString) (w w' : World) :
  Lfm.write this data path w = (Returned tt, w') ->
  exists w1 w2,
    mem_writeFileSync (fullPath_of path) data w1 = (Returned tt, w2)
    /\ entries w' = entries w2 /\ cwd w' = cwd w2.
Proof.
  unfold Lfm.write. cbn zeta. unfold bind at 1.
  cbn [NodeFs.existsSync mem_fs]. unfold mem_existsSync at 1.
  set (present := match stat w _ with inr _ => true | inl _ => false end).
  unfold bind at 1.
  destruct ((if negb present then NodeFs.mkdirSync_recursive _ else ret tt) w)
    as [[[] | e] w1]; [| discriminate].
  unfold bind at 1. cbn [NodeFs.writeFileSync mem_fs].
  destruct (mem_writeFileSync (fullPath_of path) data w1) as [[[] | e] w2] eqn:Hwrite;
    [| discriminate].
  unfold console_log, effect. intros [= <-].
  exists w1, w2. split; [exact Hwrite |]. split; reflexivity.
Qed.

Lemma local_read_stat (path __default : JsString) (w : World) :
  fst (Lfm.read this path __default w) =
    match stat w (fullPath_of path) with
    | inr (File bytes) => Returned (Utf8.decode bytes)
    | _ => Returned __default
    end.
Proof.
  rewrite local_read_cases. cbn [NodeFs.readFileSync_utf8 mem_fs].
  unfold mem_readFileSync_utf8.
  destruct (stat w (fullPath_of path)) as [c | [b |]]; reflexivity.
Qed.

(** After [delete], whether [unlinkSync] went through or threw, [stat]
    finds no file at the path. *)
Lemma local_delete_stat (path : JsString) (w : World) (b : list N) :
  stat (snd (Lfm.delete this path w)) (fullPath_of path) <> inr (File b).
Proof.
  unfold Lfm.delete. cbn zeta. unfold try_catch, bind at 1.
  cbn [NodeFs.unlinkSync mem_fs]. unfold mem_unlinkSync.
  destruct (stat w (fullPath_of path)) as [c | [b0 |]] eqn:Hstat.
  - destruct (bool_decide _); unfold console_log, console_error, effect; cbn [snd];
      (erewrite stat_ext; [rewrite Hstat; discriminate | reflexivity | reflexivity]).
  - unfold console_log, effect. cbn [snd].
    apply stat_found in Hstat as [Hw Hslash].
    assert (Hne : resolve w (fullPath_of path) <> []).
    { intros Hroot. rewrite Hroot, walk_root in Hw. discriminate. }
    pose proof (walk_delete (entries w) _ _ Hne Hw) as Hgone.
    intros Hfile. apply stat_found in Hfile as [Hfile _].
    cbn [entries mem_console console_print set_entries] in Hfile.
    unfold console_print, mem_console in Hfile. cbn [entries] in Hfile.
    change (resolve _ (fullPath_of path)) with (resolve w (fullPath_of path)) in Hfile.
    congruence.
  - destruct (bool_decide _); unfold console_log, console_error, effect; cbn [snd];
      (erewrite stat_ext; [rewrite Hstat; discriminate | reflexivity | reflexivity]).
Qed.

(** C8, as the code has it.  When [write(d, p)] completes, a [read(p,
    fallback)] that follows it returns the text of the bytes written,
    which is [d] for every well-formed [d] (no surrogate on its own);
    [delete(p)] followed by [read(p, fallback)] returns [fallback]; and
    [delete(p)] completes without error on every disk, so also where [p]
    was never written. *)
Theorem local_file_round_trip (data path fallback : JsString) (w : World) :
  (forall w',
     Lfm.write this data path w = (Returned tt, w') ->
     fst (Lfm.read this path fallback w') = Returned (Utf8.decode (Utf8.encode data))
     /\ (Utf8.well_formed data = true ->
         fst (Lfm.read this path fallback w') = Returned data))
  /\ fst (Lfm.read this path fallback (snd (Lfm.delete this path w))) = Returned fallback
  /\ fst (Lfm.delete this path w) = Returned tt.
Proof.
  split; [| split].
  - intros w' Hwrite.
    apply local_write_inv in Hwrite as (w1 & w2 & Hwritten & He & Hc).
    apply writeFileSync_stat in Hwritten.
    rewrite local_read_stat, (stat_ext w' w2 _ He Hc), Hwritten.
    split; [reflexivity |].
    intros Hwf. rewrite (decode_encode_well_formed data Hwf). reflexivity.
  - rewrite local_read_stat.
    pose proof (local_delete_stat path w) as Hgone.
    destruct (stat (snd (Lfm.delete this path w)) (fullPath_of path)) as [c | [b |]];
      [reflexivity | | reflexivity].
    exfalso. apply (Hgone b). reflexivity.
  - apply local_delete_returns.
Qed.

End MemFsFacts.

(** C8 at the manager rooted at [/data], on an empty disk. *)
Lemma local_file_round_trip_sub_f :
  fst (Lfm.read MemFs.data_manager (js "sub/f") (js "fallback") MemFs.one_file)
    = Returned (js "a")
  /\ fst (Lfm.read MemFs.data_manager (js "sub/f") (js "fallback")
            (snd (Lfm.delete MemFs.data_manager (js "sub/f") MemFs.one_file)))
     = Returned (js "fallback")
  /\ fst (Lfm.delete MemFs.data_manager (js "never/written") MemFs.empty) = Returned tt.
Proof.
  destruct (local_file_round_trip MemFs.data_manager (js "a") (js "sub/f") (js "fallback")
              MemFs.empty) as (Hwritten & _ & _).
  destruct (Hwritten MemFs.one_file) as [_ Hback]; [vm_compute; reflexivity |].
  destruct (local_file_round_trip MemFs.data_manager (js "a") (js "sub/f") (js "fallback")
              MemFs.one_file) as (_ & Hdeleted & _).
  destruct (local_file_round_trip MemFs.data_manager (js "a") (js "never/written")
              (js "fallback") MemFs.empty) as (_ & _ & Hnever).
  split; [| split].
  - apply Hback. vm_compute. reflexivity.
  - exact Hdeleted.
  - exact Hnever.
Defined.

(** C8 fails as stated: [sub] is a directory of the disk, [write("b",
    "sub")] throws [EISDIR], and the [read] after it returns the fallback
    and not ["b"]. *)
Lemma local_write_to_directory_throws :
  is_returned (fst (Lfm.write MemFs.data_manager (js "b") (js "sub") MemFs.one_file)) = false
  /\ fst (Lfm.read MemFs.data_manager (js "sub") (js "fallback")
            (snd (Lfm.write MemFs.data_manager (js "b") (js "sub") MemFs.one_file)))
     <> Returned (js "b").
Proof.
  split; [vm_compute; reflexivity |].
  vm_compute. discriminate.
Qed.

(** A [write] that completes and still does not read back: a high
    surrogate on its own is stored as U+FFFD. *)
Lemma local_lone_surrogate_not_kept :
  fst (Lfm.write MemFs.data_manager [0xD800%N] (js "x") MemFs.empty) = Returned tt
  /\ fst (Lfm.read MemFs.data_manager (js "x") (js "fallback")
            (snd (Lfm.write MemFs.data_manager [0xD800%N] (js "x") MemFs.empty)))
     = Returned [0xFFFD%N].
Proof. split; vm_compute; reflexivity. Qed.

(* ===================================================================== *)
(** * acquireLock: every run                                              *)
(* ===================================================================== *)

Section AcquireLockRuns.
Context {SS SL : Type}.
Variable lm : ILockingManager SL.
Variable p : JsString.
Variables maxRetry retryWait : Z.

(** Among the first [n] answers of a backend either all are [false], or
    there is a first one that is not. *)
Lemma lock_outcomes_cases (n : nat) (s : SL) :
  (exists s', lock_outcomes lm p n s = (repeat (Returned false) n, s'))
  \/ (exists (k : nat) o s',
        (k < n)%nat /\ o <> Returned false
        /\ lock_outcomes lm p (S k) s = (repeat (Returned false) k ++ [o], s')).
Proof.
  induction n as [| n IH].
  - left. exists s. reflexivity.
  - destruct IH as [[s1 Hall] | (k & o & s1 & Hk & Ho & Hfirst)].
    + pose proof (lock_outcomes_snoc lm p n s) as Hsnoc. rewrite Hall in Hsnoc.
      destruct (Index.lock lm p s1) as [o s2] eqn:Hlast.
      assert (Hdec : o = Returned false \/ o <> Returned false)
        by (destruct o as [[|] | e]; [right | left | right]; congruence).
      destruct Hdec as [-> | Ho].
      * left. exists s2. rewrite Hsnoc.
        change (repeat (Returned false) n ++ [Returned false])
          with (repeat (Returned false) n ++ repeat (@Returned bool false) 1).
        rewrite <- repeat_app, Nat.add_1_r. reflexivity.
      * right. exists n, o, s2. split; [lia |]. split; [exact Ho | exact Hsnoc].
    + right. exists k, o, s1. split; [lia |]. split; assumption.
Qed.

(** The two kinds of run of [acquireLock]: given up after [maxRetry]
    answers [false], or decided by the first answer that is not [false]. *)
Lemma acquireLock_runs (ss : SS) (s : SL) :
  let n := Z.to_nat maxRetry in
  let run := Utils.acquireLock p (spy_locking lm) maxRetry retryWait (mkObserved ss s []) in
  (exists s',
     lock_outcomes lm p n s = (repeat (Returned false) n, s')
     /\ run = (Thrown (Utils.gave_up p),
               mkObserved ss s' (Spy.failed_attempts p retryWait n)))
  \/
  (exists (k : nat) o s',
     (k < n)%nat /\ o <> Returned false
     /\ lock_outcomes lm p (S k) s = (repeat (Returned false) k ++ [o], s')
     /\ run = (match o with Returned _ => Returned tt | Thrown e => Thrown e end,
               mkObserved ss s' (Spy.failed_attempts p retryWait k ++ [EvLock p]))).
Proof.
  cbn zeta.
  destruct (lock_outcomes_cases (Z.to_nat maxRetry) s)
    as [[s' Hall] | (k & o & s' & Hk & Ho & Hfirst)].
  - left. exists s'. split; [exact Hall |].
    destruct (Z.le_gt_cases 0 maxRetry) as [Hpos | Hneg].
    + apply acquireLock_exhausted; [lia | exact Hall].
    + replace (Z.to_nat maxRetry) with 0%nat in * by lia.
      cbn in Hall. injection Hall as <-.
      unfold Utils.acquireLock. rewrite acquireLock_from_exit by lia. reflexivity.
  - right. exists k, o, s'. repeat (split; [assumption |]).
    apply acquireLock_decided; [lia | exact Ho | exact Hfirst].
Qed.

(** X1.  Every run of [acquireLock], on every backend, is one of two
    kinds.  Either each of the [maxRetry] attempts answers [false]: the run
    is [maxRetry] rounds of call and wait and ends with
    [AcquireLockError].  Or some attempt [k + 1 <= maxRetry] is the first
    not to answer [false]: the run is [k] rounds of call and wait and one
    more call, and it returns if that call answered [true] and throws what
    the call threw otherwise.  (A [maxRetry] below zero counts as zero.) *)
Theorem acquireLock_run_cases (ss : SS) (s : SL) :
  let n := Z.to_nat maxRetry in
  let run := Utils.acquireLock p (spy_locking lm) maxRetry retryWait (mkObserved ss s []) in
  (exists s',
     lock_outcomes lm p n s = (repeat (Returned false) n, s')
     /\ run = (Thrown (Utils.gave_up p),
               mkObserved ss s' (Spy.failed_attempts p retryWait n)))
  \/
  (exists (k : nat) o s',
     (k < n)%nat /\ o <> Returned false
     /\ lock_outcomes lm p (S k) s = (repeat (Returned false) k ++ [o], s')
     /\ run = (match o with Returned _ => Returned tt | Thrown e => Thrown e end,
               mkObserved ss s' (Spy.failed_attempts p retryWait k ++ [EvLock p]))).
Proof.
  cbn zeta.
  destruct (acquireLock_runs ss s) as [(s' & Hall & Hrun) | (k & o & s' & Hk & Ho & Hfirst & Hrun)].
  - left. exists s'. split; [exact Hall | exact Hrun].
  - right. exists k, o, s'. repeat (split; [assumption |]). exact Hrun.
Qed.

(** X2.  On every backend [acquireLock] calls [lock] at most [maxRetry]
    times and waits at most once per call; its events are calls of
    [lock] on the path it was given and waits of [retryWait], nothing
    else; and it does not touch the storage side. *)
Theorem acquireLock_bounded (ss : SS) (s : SL) :
  let w' := snd (Utils.acquireLock p (spy_locking lm) maxRetry retryWait
                   (mkObserved ss s [])) in
  (lock_calls (events w') <= Z.to_nat maxRetry)%nat
  /\ (waits (events w') <= lock_calls (events w'))%nat
  /\ Forall (fun ev => ev = EvLock p \/ ev = EvWait retryWait) (events w')
  /\ storage_state w' = ss.
Proof.
  cbn zeta.
  assert (Hshape : forall k, Forall (fun ev => ev = EvLock p \/ ev = EvWait retryWait)
                               (Spy.failed_attempts p retryWait k)).
  { induction k as [| k IH]; [constructor |].
    unfold Spy.failed_attempts in *. cbn [repeat concat].
    apply Forall_app. split; [| exact IH].
    unfold Spy.failed_attempt.
    constructor; [left; reflexivity |]. constructor; [right; reflexivity | constructor]. }
  destruct (acquireLock_runs ss s)
    as [(s' & _ & ->) | (k & o & s' & Hk & _ & _ & ->)]; cbn [snd events storage_state].
  - rewrite lock_calls_failed_attempts, waits_failed_attempts.
    repeat split; [lia | lia | apply Hshape].
  - unfold lock_calls, waits. rewrite !List.filter_app, !length_app. cbn.
    fold (lock_calls (Spy.failed_attempts p retryWait k)).
    fold (waits (Spy.failed_attempts p retryWait k)).
    rewrite lock_calls_failed_attempts, waits_failed_attempts.
    repeat split; [lia | lia |].
    apply Forall_app. split; [apply Hshape |].
    constructor; [left; reflexivity | constructor].
Qed.

(** X3.  [acquireLock] returns only if one of the first [maxRetry]
    attempts answered [true], all attempts before it having answered
    [false]. *)
Theorem acquireLock_returned_only_on_true (ss : SS) (s : SL) (w' : Observed SS SL) :
  Utils.acquireLock p (spy_locking lm) maxRetry retryWait (mkObserved ss s [])
    = (Returned tt, w') ->
  exists (k : nat) s',
    Z.of_nat k < maxRetry
    /\ lock_outcomes lm p (S k) s = (repeat (Returned false) k ++ [Returned true], s')
    /\ w' = mkObserved ss s' (Spy.failed_attempts p retryWait k ++ [EvLock p]).
Proof.
  intros Hrun.
  destruct (acquireLock_runs ss s)
    as [(s' & _ & Hgave) | (k & o & s' & Hk & Ho & Hfirst & Hdecided)].
  - rewrite Hgave in Hrun. discriminate.
  - rewrite Hdecided in Hrun. exists k, s'.
    destruct o as [[|] | e]; [| congruence | discriminate].
    injection Hrun as <-. split; [lia |]. split; [exact Hfirst | reflexivity].
Qed.

End AcquireLockRuns.

(** X3 at the scripted backend of the specification. *)
Lemma acquireLock_returned_third_attempt :
  exists (k : nat) s',
    Z.of_nat k < 3
    /\ lock_outcomes scripted (js "p") (S k)
         [Returned false; Returned false; Returned true]
       = (repeat (Returned false) k ++ [Returned true], s')
    /\ mkObserved tt ([] : list (Outcome bool))
         [EvLock (js "p"); EvWait 100; EvLock (js "p"); EvWait 100; EvLock (js "p")]
       = mkObserved tt s' (Spy.failed_attempts (js "p") 100 k ++ [EvLock (js "p")]).
Proof.
  apply (acquireLock_returned_only_on_true (SS := unit) scripted (js "p") 3 100 tt
           [Returned false; Returned false; Returned true]).
  vm_compute. reflexivity.
Defined.

Section AcquireLockAnyWorld.
Context {W : Type} `{Timers W}.
Variable p : JsString.

(** X4.  A [maxRetry] of zero or less makes no attempt: [acquireLock]
    throws [AcquireLockError] at once and leaves the world as it was, in
    every world, for every backend and timer. *)
Theorem acquireLock_nonpositive_retries (lm : ILockingManager W) (maxRetry retryWait : Z) (w : W) :
  maxRetry <= 0 ->
  Utils.acquireLock p lm maxRetry retryWait w = (Thrown (Utils.gave_up p), w).
Proof.
  intros Hn. unfold Utils.acquireLock. simp acquireLock_from.
  destruct (Z_lt_dec 0 maxRetry) as [Hlt | Hge]; [lia | reflexivity].
Qed.

(** One round of the loop, in any world. *)
Lemma acquireLock_from_unfold (lm : ILockingManager W) (maxRetry retryWait i : Z) (w : W) :
  Utils.acquireLock_from p lm maxRetry retryWait i w =
    if decide (i < maxRetry) then
      match Index.lock lm p w with
      | (Returned true, w1) => (Returned tt, w1)
      | (Returned false, w1) =>
          match Utils.waitForTime retryWait w1 with
          | (Returned _, w2) => Utils.acquireLock_from p lm maxRetry retryWait (i + 1) w2
          | (Thrown e, w2) => (Thrown e, w2)
          end
      | (Thrown e, w1) => (Thrown e, w1)
      end
    else (Thrown (Utils.gave_up p), w).
Proof.
  simp acquireLock_from.
  destruct (Z_lt_dec i maxRetry) as [Hlt | Hge]; destruct (decide (i < maxRetry)); try lia;
    [| reflexivity].
  cbn. unfold bind at 1.
  destruct (Index.lock lm p w) as [[[|] | e] w1]; try reflexivity.
  apply Z.ltb_lt in Hlt. rewrite Hlt. unfold bind.
  destruct (Utils.waitForTime retryWait w1) as [[[] | e] w2]; [| reflexivity].
  simp acquireLock_from. reflexivity.
Qed.

(** Two backends whose [lock] agrees on the path give the same runs. *)
Lemma acquireLock_from_ext (lm1 lm2 : ILockingManager W) (maxRetry retryWait : Z) :
  (forall w, Index.lock lm1 p w = Index.lock lm2 p w) ->
  forall (m : nat) i w,
    maxRetry - i <= Z.of_nat m ->
    Utils.acquireLock_from p lm1 maxRetry retryWait i w
    = Utils.acquireLock_from p lm2 maxRetry retryWait i w.
Proof.
  intros Hsame. induction m as [| m IH]; intros i w Hm;
    rewrite !acquireLock_from_unfold; destruct (decide (i < maxRetry)); try lia;
    try reflexivity.
  rewrite Hsame. destruct (Index.lock lm2 p w) as [[[|] | e] w1]; try reflexivity.
  destruct (Utils.waitForTime retryWait w1) as [[[] | e] w2]; [| reflexivity].
  apply IH. lia.
Qed.

(** X5.  [acquireLock] on a [LockableStorageManager].  With a locking
    backend the run is the run on that backend itself.  Without one, and
    with at least one attempt allowed, the first [lock] throws the
    manager's configuration error and [acquireLock] throws it on, with no
    wait, no further attempt and the world unchanged. *)
Theorem acquireLock_on_facade (smo : option (IStorageManager W)) (lm : ILockingManager W)
    (maxRetry retryWait : Z) (w : W) :
  Utils.acquireLock p
    (Facade.as_locking {| Facade.storageManager := smo; Facade.lockingManager := Some lm |})
    maxRetry retryWait w
  = Utils.acquireLock p lm maxRetry retryWait w
  /\
  (1 <= maxRetry ->
   Utils.acquireLock p
     (Facade.as_locking {| Facade.storageManager := smo; Facade.lockingManager := None |})
     maxRetry retryWait w
   = (Thrown (Error (js "[LockableStorageManager][lock] Trying to use locking manager which does not exist.")),
      w)).
Proof.
  split.
  - unfold Utils.acquireLock.
    apply acquireLock_from_ext with (m := Z.to_nat maxRetry); [| lia].
    intros w0. cbn [Index.lock Facade.as_locking]. unfold Facade.lock.
    cbn [Facade.lockingManager]. apply bind_ret_r.
  - intros Hn. unfold Utils.acquireLock. rewrite acquireLock_from_unfold.
    destruct (decide (0 < maxRetry)); [reflexivity | lia].
Qed.

End AcquireLockAnyWorld.

(** X4 at [maxRetry = -3]. *)
Lemma acquireLock_minus_three :
  Utils.acquireLock (js "p") (spy_locking scripted) (-3) 400
    (mkObserved tt [Returned true] [])
  = (Thrown (Utils.gave_up (js "p")), mkObserved tt [Returned true] []).
Proof.
  apply (acquireLock_nonpositive_retries (js "p")). lia.
Defined.

(** X5 at a manager that was given nothing, asked for five attempts. *)
Lemma acquireLock_on_empty_facade :
  Utils.acquireLock (js "p")
    (Facade.as_locking {| Facade.storageManager := None; Facade.lockingManager := None |})
    5 400 (mkObserved tt ([] : list (Outcome bool)) [])
  = (Thrown (Error (js "[LockableStorageManager][lock] Trying to use locking manager which does not exist.")),
     mkObserved tt [] []).
Proof.
  apply (proj2 (acquireLock_on_facade (js "p") None (spy_locking scripted) 5 400
                  (mkObserved tt [] []))).
  lia.
Defined.

(* ===================================================================== *)
(** * LockableStorageManager: the other five methods                      *)
(* ===================================================================== *)

Section FacadeFrameAll.
Context {SS SL : Type}.
Variable sm : IStorageManager SS.
Variable lm : ILockingManager SL.

Abbreviation both :=
  {| Facade.storageManager := Some (spy_storage (SL := SL) sm);
     Facade.lockingManager := Some (spy_locking (SS := SS) lm) |}.

(** X6.  [read], [exists], [lock], [unlock] and [isLocked] of a manager
    with both backends each make one call, to the method of the same name
    of their own backend, with the arguments they were given: outcome and
    new state are that backend's, and the state of the other backend is
    left as it was. *)
Theorem facade_each_method_one_call (path __default : JsString) (w : Observed SS SL) :
  Facade.read both path __default w
  = (fst (Index.read sm path __default (storage_state w)),
     mkObserved (snd (Index.read sm path __default (storage_state w)))
                (locking_state w) (events w ++ [EvRead path __default]))
  /\
  Facade.exists_ both path w
  = (fst (Index.exists_ sm path (storage_state w)),
     mkObserved (snd (Index.exists_ sm path (storage_state w)))
                (locking_state w) (events w ++ [EvExists path]))
  /\
  Facade.lock both path w
  = (fst (Index.lock lm path (locking_state w)),
     mkObserved (storage_state w)
                (snd (Index.lock lm path (locking_state w))) (events w ++ [EvLock path]))
  /\
  Facade.unlock both path w
  = (fst (Index.unlock lm path (locking_state w)),
     mkObserved (storage_state w)
                (snd (Index.unlock lm path (locking_state w))) (events w ++ [EvUnlock path]))
  /\
  Facade.isLocked both path w
  = (fst (Index.isLocked lm path (locking_state w)),
     mkObserved (storage_state w)
                (snd (Index.isLocked lm path (locking_state w)))
                (events w ++ [EvIsLocked path])).
Proof.
  unfold Facade.read, Facade.exists_, Facade.lock, Facade.unlock, Facade.isLocked.
  cbn [Facade.storageManager Facade.lockingManager].
  rewrite !bind_ret_r. cbn. unfold on_storage, on_locking.
  destruct (Index.read sm path __default (storage_state w)) as [o1 s1].
  destruct (Index.exists_ sm path (storage_state w)) as [o2 s2].
  destruct (Index.lock lm path (locking_state w)) as [o3 s3].
  destruct (Index.unlock lm path (locking_state w)) as [o4 s4].
  destruct (Index.isLocked lm path (locking_state w)) as [o5 s5].
  repeat split.
Qed.

End FacadeFrameAll.

(* ===================================================================== *)
(** * DynamoLockingManager on the endpoint in memory                      *)
(* ===================================================================== *)

Section DynamoProtocol.
Import AWS DynamoDB Lease.
Variable this : Dlm.t.

Abbreviation tn := (Dlm.tableName this).

Lemma key_of_lease_item (path : JsString) (now_s : Z) :
  key_of (Lease.item this path now_s) = Some path.
Proof.
  unfold key_of, Lease.item, Dlm.lock_params. cbn [put_Item].
  rewrite lookup_insert_eq. reflexivity.
Qed.

Lemma well_keyed_insert (tbl : gmap JsString ItemMap) (path : JsString) (now_s : Z) :
  well_keyed tbl -> well_keyed (<[path := Lease.item this path now_s]> tbl).
Proof.
  intros Hk k it Hit. destruct (decide (path = k)) as [<- | Hne].
  - rewrite lookup_insert_eq in Hit. injection Hit as <-. apply key_of_lease_item.
  - rewrite lookup_insert_ne in Hit by exact Hne. apply Hk. exact Hit.
Qed.

Lemma well_keyed_delete (tbl : gmap JsString ItemMap) (path : JsString) :
  well_keyed tbl -> well_keyed (base.delete path tbl).
Proof.
  intros Hk k it Hit. apply lookup_delete_Some in Hit as [_ Hit]. apply Hk. exact Hit.
Qed.

Lemma well_keyed_id (tbl : gmap JsString ItemMap) (path : JsString) (it : ItemMap) :
  well_keyed tbl -> tbl !! path = Some it -> it !! js "id" = Some (AttrS path).
Proof.
  intros Hk Hit. specialize (Hk _ _ Hit). unfold key_of in Hk.
  destruct (it !! js "id") as [[s |] |]; congruence.
Qed.

(** What [lock] does at a ready endpoint. *)
Lemma mem_lock_run (path : JsString) (w : World) (tbl : gmap JsString ItemMap) :
  ready this w tbl ->
  Dlm.lock this path w =
    match tbl !! path with
    | None =>
        (Returned true,
         set_tables w (<[tn := <[path := Lease.item this path (now_ms w / 1000)]> tbl]>
                         (tables w)))
    | Some _ =>
        (Returned false,
         console_print
           (ErrorLine [PText (js "[Error][DynamoLockingManager.lock] ");
                       Dlm.report this ConditionalCheckFailedException]) w)
    end.
Proof.
  intros (Hr & Ht & Hk). unfold Lease.items in Ht. rewrite dynamo_lock_cases.
  unfold put, mem_client, mem_put, with_table.
  change (Date_getTime w) with (now_ms w).
  change (put_Item (Dlm.lock_params this path (now_ms w / 1000)))
    with (Lease.item this path (now_ms w / 1000)).
  cbn [put_TableName put_ConditionExpression Dlm.lock_params].
  rewrite Hr, Ht, key_of_lease_item. cbn [negb].
  destruct (tbl !! path) as [it |] eqn:Hit; cbn [condition_holds]; [| reflexivity].
  rewrite (well_keyed_id tbl path it Hk Hit).
  rewrite bool_decide_eq_false_2 by discriminate. reflexivity.
Qed.

(** What [unlock] does at a ready endpoint. *)
Lemma mem_unlock_run (path : JsString) (w : World) (tbl : gmap JsString ItemMap) :
  ready this w tbl ->
  Dlm.unlock this path w =
    match tbl !! path with
    | Some _ =>
        (Returned true, set_tables w (<[tn := base.delete path tbl]> (tables w)))
    | None =>
        (Returned false,
         console_print
           (ErrorLine [PText (js "[Error][DynamoLockingManager.unlock] ");
                       Dlm.report this ConditionalCheckFailedException]) w)
    end.
Proof.
  intros (Hr & Ht & Hk). unfold Lease.items in Ht. rewrite dynamo_unlock_cases.
  unfold AWS.delete, mem_client, mem_delete, with_table, Dlm.unlock_params.
  cbn [del_TableName del_Key del_ConditionExpression].
  rewrite Hr, Ht, key_of_id. cbn [negb].
  destruct (tbl !! path) as [it |] eqn:Hit; cbn [condition_holds]; [| reflexivity].
  rewrite (well_keyed_id tbl path it Hk Hit).
  rewrite bool_decide_eq_true_2 by eauto. reflexivity.
Qed.

Lemma ready_set_table (w : World) (tbl' : gmap JsString ItemMap) :
  reachable w = true -> well_keyed tbl' ->
  ready this (set_tables w (<[tn := tbl']> (tables w))) tbl'.
Proof.
  intros Hr Hk. split; [exact Hr |]. split; [| exact Hk].
  unfold Lease.items. cbn [tables set_tables]. apply lookup_insert_eq.
Qed.

Lemma ready_console (w : World) (tbl : gmap JsString ItemMap) (line : ConsoleLine) :
  ready this w tbl -> ready this (console_print line w) tbl.
Proof. intros H. exact H. Qed.

Lemma mem_isLocked_ready (path : JsString) (w : World) (tbl : gmap JsString ItemMap) :
  ready this w tbl ->
  fst (Dlm.isLocked this path w) = Returned (bool_decide (is_Some (tbl !! path))).
Proof.
  intros (Hr & Ht & _). rewrite (mem_isLocked_present this path w tbl Hr Ht). reflexivity.
Qed.

(** The endpoint after [lock(path)]: ready again, with these items. *)
Lemma mem_lock_ready (path : JsString) (w : World) (tbl : gmap JsString ItemMap) :
  ready this w tbl ->
  ready this (snd (Dlm.lock this path w))
    (match tbl !! path with
     | None => <[path := Lease.item this path (now_ms w / 1000)]> tbl
     | Some _ => tbl
     end).
Proof.
  intros Hready. rewrite (mem_lock_run path w tbl Hready).
  destruct Hready as (Hr & Ht & Hk).
  destruct (tbl !! path) as [it |]; cbn [snd].
  - apply ready_console. split; [exact Hr |]. split; assumption.
  - apply ready_set_table; [exact Hr |]. apply well_keyed_insert. exact Hk.
Qed.

Lemma mem_unlock_ready (path : JsString) (w : World) (tbl : gmap JsString ItemMap) :
  ready this w tbl ->
  ready this (snd (Dlm.unlock this path w)) (base.delete path tbl).
Proof.
  intros Hready. rewrite (mem_unlock_run path w tbl Hready).
  destruct Hready as (Hr & Ht & Hk).
  destruct (tbl !! path) as [it |] eqn:Hit; cbn [snd].
  - apply ready_set_table; [exact Hr |]. apply well_keyed_delete. exact Hk.
  - apply ready_console. rewrite delete_id by exact Hit.
    split; [exact Hr |]. split; assumption.
Qed.



(** X9.  Paths do not interfere: whether another path reads as locked is
    the same before and after [lock(path)], and before and after
    [unlock(path)]. *)
Theorem dynamo_paths_independent (path other : JsString) (w : World)
    (tbl : gmap JsString ItemMap) :
  ready this w tbl ->
  other <> path ->
  fst (Dlm.isLocked this other (snd (Dlm.lock this path w)))
    = fst (Dlm.isLocked this other w)
  /\ fst (Dlm.isLocked this other (snd (Dlm.unlock this path w)))
     = fst (Dlm.isLocked this other w).
Proof.
  intros Hready Hne.
  rewrite (mem_isLocked_ready other _ _ (mem_lock_ready path w tbl Hready)).
  rewrite (mem_isLocked_ready other _ _ (mem_unlock_ready path w tbl Hready)).
  rewrite (mem_isLocked_ready other w tbl Hready).
  rewrite lookup_delete_ne by congruence.
  destruct (tbl !! path); [| rewrite lookup_insert_ne by congruence]; split; reflexivity.
Qed.


(** X11.  A lease that has run out still blocks.  While the item of an
    expired lease is in the table, [lock(path)] returns [false]; once the
    sweep of the service has removed it, [lock(path)] returns [true]. *)
Theorem dynamo_expired_lease_blocks (path : JsString) (w : World)
    (tbl : gmap JsString ItemMap) :
  ready this w tbl ->
  lease_expired tn (js "expireAt") path w = true ->
  fst (Dlm.lock this path w) = Returned false
  /\ fst (Dlm.lock this path (ttl_sweep tn (js "expireAt") w)) = Returned true.
Proof.
  intros Hready Hexp. pose proof Hready as (Hr & Ht & Hk). unfold Lease.items in Ht.
  unfold lease_expired in Hexp. rewrite Ht in Hexp.
  destruct (tbl !! path) as [it |] eqn:Hit; [| discriminate].
  split.
  - rewrite (mem_lock_run path w tbl Hready), Hit. reflexivity.
  - set (kept := filter (fun kv : JsString * ItemMap =>
                           expired (js "expireAt") (now_ms w / 1000) kv.2 = false) tbl).
    assert (Hswept : ready this (ttl_sweep tn (js "expireAt") w) kept).
    { unfold ttl_sweep. rewrite Ht. apply ready_set_table; [exact Hr |].
      intros k it' Hit'. apply map_lookup_filter_Some in Hit' as [Hit' _].
      apply Hk. exact Hit'. }
    rewrite (mem_lock_run path _ kept Hswept).
    assert (Hgone : kept !! path = None).
    { apply map_lookup_filter_None. right. intros it' Hit' Hkeep. cbn [snd] in Hkeep.
      rewrite Hit in Hit'. injection Hit' as <-. congruence. }
    rewrite Hgone. reflexivity.
Qed.

End DynamoProtocol.

Section DynamoProtocolAt.
Import AWS DynamoDB Lease.

Lemma ready_fresh (this : Dlm.t) (now : Z) :
  ready this (fresh (Dlm.tableName this) now) ∅.
Proof.
  split; [reflexivity |]. split.
  - unfold Lease.items, fresh. cbn [tables]. apply lookup_singleton_eq.
  - intros k it Hit. rewrite lookup_empty in Hit. discriminate.
Qed.

Lemma ready_advance (this : Dlm.t) (ms : Z) (w : World) (tbl : gmap JsString ItemMap) :
  ready this w tbl -> ready this (advance ms w) tbl.
Proof. intros H. exact H. Qed.

(** The table of [p_locked] and of [p_lease_over]: the one lease of [p]. *)
Lemma ready_p_lease_over :
  ready locks_manager p_lease_over {[ js "p" := Lease.item locks_manager (js "p") 0 ]}.
Proof.
  apply ready_advance.
  pose proof (mem_lock_ready locks_manager (js "p") _ _ (ready_fresh locks_manager 0))
    as Hready.
  rewrite lookup_empty in Hready. exact Hready.
Qed.

End DynamoProtocolAt.



(** X9 with [p] locked and [q] free. *)
Lemma dynamo_q_unaffected_by_p :
  fst (Dlm.isLocked DynamoDB.locks_manager (js "q")
         (snd (Dlm.lock DynamoDB.locks_manager (js "p") DynamoDB.p_lease_over)))
    = fst (Dlm.isLocked DynamoDB.locks_manager (js "q") DynamoDB.p_lease_over)
  /\ fst (Dlm.isLocked DynamoDB.locks_manager (js "q")
            (snd (Dlm.unlock DynamoDB.locks_manager (js "p") DynamoDB.p_lease_over)))
     = fst (Dlm.isLocked DynamoDB.locks_manager (js "q") DynamoDB.p_lease_over).
Proof.
  apply (dynamo_paths_independent DynamoDB.locks_manager (js "p") (js "q")
           DynamoDB.p_lease_over _ ready_p_lease_over).
  vm_compute. discriminate.
Defined.


(** X11 at the lease of [p], 100 seconds after it ran out. *)
Lemma dynamo_lease_of_p_blocks :
  fst (Dlm.lock DynamoDB.locks_manager (js "p") DynamoDB.p_lease_over) = Returned false
  /\ fst (Dlm.lock DynamoDB.locks_manager (js "p")
            (DynamoDB.ttl_sweep (js "locks") (js "expireAt") DynamoDB.p_lease_over))
     = Returned true.
Proof.
  apply (dynamo_expired_lease_blocks DynamoDB.locks_manager (js "p")
           DynamoDB.p_lease_over _ ready_p_lease_over).
  vm_compute. reflexivity.
Defined.

(* ===================================================================== *)
(** * acquireLock on a DynamoLockingManager                               *)
(* ===================================================================== *)

Section AcquireLockOnDynamo.
Context {SS W : Type} `{AWS.DocumentClient W} `{Clock W} `{Console W}.
Variable this : Dlm.t.
Variable p : JsString.

Lemma dynamo_lock_returns (w : W) : is_returned (fst (Dlm.lock this p w)) = true.
Proof.
  rewrite dynamo_lock_cases.
  destruct (AWS.put _ w) as [[[] | e] w']; reflexivity.
Qed.

Lemma dynamo_lock_outcomes_returned (n : nat) :
  forall w, Forall (fun o => is_returned o = true)
              (fst (lock_outcomes (Dlm.as_locking this) p n w)).
Proof.
  induction n as [| n IH]; intros w; [constructor |].
  cbn [lock_outcomes].
  destruct (Index.lock (Dlm.as_locking this) p w) as [o w1] eqn:Hlock.
  specialize (IH w1). destruct (lock_outcomes (Dlm.as_locking this) p n w1) as [os w2].
  cbn [fst] in *. constructor; [| exact IH].
  pose proof (dynamo_lock_returns w) as Hret.
  cbn [Index.lock Dlm.as_locking] in Hlock. rewrite Hlock in Hret. exact Hret.
Qed.

(** X12.  Against a [DynamoLockingManager], on every client,
    [acquireLock] ends in one of two ways only: it returns, or it throws
    [AcquireLockError].  An error of the client never comes out of it. *)
Theorem acquireLock_on_dynamo_outcomes (maxRetry retryWait : Z) (ss : SS) (w : W) :
  let o := fst (Utils.acquireLock p (spy_locking (Dlm.as_locking this)) maxRetry retryWait
                  (mkObserved ss w [])) in
  o = Returned tt \/ o = Thrown (Utils.gave_up p).
Proof.
  cbn zeta.
  destruct (acquireLock_runs (Dlm.as_locking this) p maxRetry retryWait ss w)
    as [(w' & _ & ->) | (k & o & w' & _ & Ho & Hfirst & ->)]; [right; reflexivity |].
  left. cbn [fst].
  pose proof (dynamo_lock_outcomes_returned (S k) w) as Hall.
  rewrite Hfirst in Hall. cbn [fst] in Hall.
  apply Forall_app in Hall as [_ Hlast]. inversion Hlast as [| ? ? Hret _]; subst.
  destruct o as [[|] | e]; [reflexivity | congruence | discriminate].
Qed.

End AcquireLockOnDynamo.

Section AcquireLockUnreachable.
Import DynamoDB.
Context {SS : Type}.
Variable this : Dlm.t.
Variable p : JsString.

Lemma mem_lock_unreachable (w : World) :
  reachable w = false ->
  Dlm.lock this p w
  = (Returned false,
     console_print
       (ErrorLine [PText (js "[Error][DynamoLockingManager.lock] ");
                   Dlm.report this NetworkingError]) w).
Proof.
  intros Hr. rewrite dynamo_lock_cases.
  unfold AWS.put, mem_client, mem_put, with_table. rewrite Hr. reflexivity.
Qed.

Lemma lock_outcomes_unreachable (n : nat) :
  forall w, reachable w = false ->
    exists w',
      lock_outcomes (Dlm.as_locking this) p n w = (repeat (Returned false) n, w')
      /\ reachable w' = false /\ tables w' = tables w
      /\ length (console w') = (length (console w) + n)%nat.
Proof.
  induction n as [| n IH]; intros w Hr.
  - exists w. repeat split; [exact Hr | lia].
  - destruct (IH (mem_console
                    (ErrorLine [PText (js "[Error][DynamoLockingManager.lock] ");
                                Dlm.report this NetworkingError]) w) Hr)
      as (w' & Hrest & Hr' & Ht' & Hc').
    exists w'. split; [| split; [exact Hr' | split; [exact Ht' |]]].
    { change (lock_outcomes (Dlm.as_locking this) p (S n) w)
        with (let '(o, s') := Dlm.lock this p w in
              let '(os, s'') := lock_outcomes (Dlm.as_locking this) p n s' in
              (o :: os, s'')).
      rewrite (mem_lock_unreachable w Hr). cbn beta iota.
      change (console_print ?line w) with (mem_console line w).
      rewrite Hrest. reflexivity. }
    rewrite Hc'. unfold console_print, mem_console. cbn [console].
    rewrite length_app. cbn. lia.
Qed.

(** X13.  An outage is retried like a held lock.  While the endpoint
    cannot be reached, [acquireLock] on a [DynamoLockingManager] makes
    all its [maxRetry] attempts, each followed by a wait and each leaving
    one line on the error console, and then throws [AcquireLockError];
    the tables are not touched. *)
Theorem acquireLock_retries_outage (maxRetry retryWait : Z) (ss : SS) (w : World) :
  reachable w = false ->
  let r := Utils.acquireLock p (spy_locking (Dlm.as_locking this)) maxRetry retryWait
             (mkObserved ss w []) in
  fst r = Thrown (Utils.gave_up p)
  /\ events (snd r) = Spy.failed_attempts p retryWait (Z.to_nat maxRetry)
  /\ tables (locking_state (snd r)) = tables w
  /\ length (console (locking_state (snd r)))
     = (length (console w) + Z.to_nat maxRetry)%nat.
Proof.
  intros Hr. cbn zeta.
  destruct (acquireLock_runs (Dlm.as_locking this) p maxRetry retryWait ss w)
    as [(w' & Hall & ->) | (k & o & w' & _ & Ho & Hfirst & _)].
  - destruct (lock_outcomes_unreachable (Z.to_nat maxRetry) w Hr)
      as (w'' & Hall' & _ & Ht & Hc).
    rewrite Hall in Hall'. injection Hall' as <-.
    cbn [fst snd events locking_state]. repeat split; assumption.
  - exfalso.
    destruct (lock_outcomes_unreachable (S k) w Hr) as (w'' & Hall' & _).
    rewrite Hfirst in Hall'. injection Hall' as Hos _.
    change (repeat (@Returned bool false) (S k))
      with (Returned false :: repeat (@Returned bool false) k) in Hos.
    rewrite repeat_cons in Hos. apply app_inj_tail in Hos as [_ Hlast].
    congruence.
Qed.

End AcquireLockUnreachable.

(** X13 where the endpoint goes away while [p] is locked. *)
Lemma acquireLock_retries_outage_five :
  let r := Utils.acquireLock (js "p")
             (spy_locking (Dlm.as_locking DynamoDB.locks_manager)) 5 400
             (mkObserved tt (DynamoDB.unplug DynamoDB.p_locked) []) in
  fst r = Thrown (Utils.gave_up (js "p"))
  /\ events (snd r) = Spy.failed_attempts (js "p") 400 5
  /\ DynamoDB.tables (locking_state (snd r)) = DynamoDB.tables DynamoDB.p_locked
  /\ length (DynamoDB.console (locking_state (snd r))) = 5%nat.
Proof.
  apply (acquireLock_retries_outage (SS := unit) DynamoDB.locks_manager (js "p") 5 400 tt
           (DynamoDB.unplug DynamoDB.p_locked)).
  reflexivity.
Defined.

(* ===================================================================== *)
(** * LocalFileStorageManager: other paths, and [exists]                  *)
(* ===================================================================== *)

Section MemFsFrame.
Import MemFs.
Variable this : Lfm.t.

Abbreviation full path := (NodePath.join (Lfm.rootDir this) path).

Lemma resolve_cwd (w w' : World) (path : JsString) :
  cwd w = cwd w' -> resolve w path = resolve w' path.
Proof. intros Hc. unfold resolve. rewrite Hc. reflexivity. Qed.

Lemma entry_at_mono (es es' : gmap (list JsString) Entry) (segs : list JsString) (e : Entry) :
  es ⊆ es' -> entry_at es segs = Some e -> entry_at es' segs = Some e.
Proof.
  intros Hsub. destruct segs as [| a segs]; [trivial |].
  cbn [entry_at]. intros Hx. eapply lookup_weaken; eassumption.
Qed.

(** What a walk finds stays found when entries are added. *)
Lemma walk_mono (es es' : gmap (list JsString) Entry) (e : Entry) :
  es ⊆ es' ->
  forall rest prefix, walk es prefix rest = inr e -> walk es' prefix rest = inr e.
Proof.
  intros Hsub. induction rest as [| seg rest IH]; intros prefix; cbn [walk].
  - destruct (entry_at es prefix) as [x |] eqn:Hx; [| discriminate].
    rewrite (entry_at_mono es es' prefix x Hsub Hx). trivial.
  - destruct (entry_at es prefix) as [[b |] |] eqn:Hx; try discriminate.
    rewrite (entry_at_mono es es' prefix Directory Hsub Hx). apply IH.
Qed.

Lemma mkdirp_subseteq :
  forall rest prefix (es es' : gmap (list JsString) Entry),
    mkdirp es prefix rest = inr es' -> es ⊆ es'.
Proof.
  induction rest as [| seg rest IH]; intros prefix es es'; cbn [mkdirp].
  - intros [= <-]. reflexivity.
  - destruct (es !! (prefix ++ [seg])) as [[b |] |] eqn:Hp.
    + destruct rest; discriminate.
    + apply IH.
    + intros Hrest. apply IH in Hrest.
      etransitivity; [| exact Hrest]. apply insert_subseteq. exact Hp.
Qed.

(** A walk that goes on beyond [a] has found a directory at [a]. *)
Lemma walk_through (es : gmap (list JsString) Entry) (e : Entry) (b : list JsString) :
  b <> [] ->
  forall a prefix, walk es prefix (a ++ b) = inr e -> walk es prefix a = inr Directory.
Proof.
  intros Hb. induction a as [| seg a IH]; intros prefix; cbn [walk app].
  - destruct b as [| x b]; [congruence |]. cbn [walk].
    destruct (entry_at es prefix) as [[c |] |]; try discriminate. reflexivity.
  - destruct (entry_at es prefix) as [[c |] |]; try discriminate. apply IH.
Qed.

(** A change of the disk at [K] is not seen by a walk that does not pass
    [K]. *)
Lemma walk_unaffected (es es' : gmap (list JsString) Entry) (K : list JsString) :
  (forall k, k <> K -> es' !! k = es !! k) ->
  forall rest prefix,
    (forall i, prefix ++ take i rest <> K) ->
    walk es' prefix rest = walk es prefix rest.
Proof.
  intros Hsame.
  assert (Hentry : forall segs, segs <> K -> entry_at es' segs = entry_at es segs).
  { intros [| a segs] Hne; [reflexivity |]. cbn [entry_at]. apply Hsame. exact Hne. }
  induction rest as [| seg rest IH]; intros prefix Hpass; cbn [walk].
  - rewrite Hentry; [reflexivity |]. specialize (Hpass 0%nat).
    rewrite take_0, app_nil_r in Hpass. exact Hpass.
  - rewrite Hentry.
    + destruct (entry_at es prefix) as [[c |] |]; try reflexivity.
      apply IH. intros i. specialize (Hpass (S i)). cbn [take] in Hpass.
      rewrite <- app_assoc. exact Hpass.
    + specialize (Hpass 0%nat). rewrite take_0, app_nil_r in Hpass. exact Hpass.
Qed.

(** The walk to a file passes no path that is not a directory, other
    than the file's own. *)
Lemma walk_file_unaffected (es es' : gmap (list JsString) Entry)
    (K segs : list JsString) (e : Entry) :
  (forall k, k <> K -> es' !! k = es !! k) ->
  K <> segs ->
  walk es [] K <> inr Directory ->
  walk es [] segs = inr e ->
  walk es' [] segs = inr e.
Proof.
  intros Hsame Hne Hnodir Hwalk.
  rewrite (walk_unaffected es es' K Hsame); [exact Hwalk |].
  intros i Hi. cbn [app] in Hi.
  destruct (decide (length segs <= i)%nat) as [Hlong | Hshort].
  - rewrite take_ge in Hi by exact Hlong. congruence.
  - apply Hnodir. rewrite <- Hi.
    apply (walk_through es e (drop i segs)).
    + intros Hnil. apply (f_equal length) in Hnil. rewrite length_drop in Hnil.
      cbn in Hnil. lia.
    + rewrite take_drop. exact Hwalk.
Qed.

(** The two steps of a [write] that completes: directories are added,
    then the file is put in place. *)
Lemma local_write_steps (data path : JsString) (w w' : World) :
  Lfm.write this data path w = (Returned tt, w') ->
  exists w1,
    entries w ⊆ entries w1 /\ cwd w1 = cwd w
    /\ walk (entries w1) [] (resolve w (full path)) <> inr Directory
    /\ entries w' = <[resolve w (full path) := File (Utf8.encode data)]> (entries w1)
    /\ cwd w' = cwd w.
Proof.
  unfold Lfm.write. cbn zeta. unfold bind at 1.
  cbn [NodeFs.existsSync mem_fs]. unfold mem_existsSync at 1.
  set (present := match stat w _ with inr _ => true | inl _ => false end).
  unfold bind at 1.
  destruct ((if negb present then NodeFs.mkdirSync_recursive _ else ret tt) w)
    as [[[] | e] w1] eqn:Hdir; [| discriminate].
  assert (Hw1 : entries w ⊆ entries w1 /\ cwd w1 = cwd w).
  { destruct (negb present).
    - cbn [NodeFs.mkdirSync_recursive mem_fs] in Hdir. unfold mem_mkdirSync_recursive in Hdir.
      destruct (NodePath.dirname (full path)) as [| c d]; [discriminate |].
      destruct (mkdirp (entries w) [] (resolve w (c :: d))) as [c' | es] eqn:Hmk;
        [discriminate |].
      injection Hdir as <-. split; [| reflexivity].
      cbn [entries set_entries]. eapply mkdirp_subseteq. exact Hmk.
    - injection Hdir as <-. split; reflexivity. }
  destruct Hw1 as [Hsub Hcwd].
  unfold bind at 1. cbn [NodeFs.writeFileSync mem_fs].
  destruct (mem_writeFileSync (full path) data w1) as [[[] | e] w2] eqn:Hwrite;
    [| discriminate].
  unfold console_log, effect. intros [= <-]. exists w1.
  rewrite (resolve_cwd w w1 _ (eq_sym Hcwd)).
  split; [exact Hsub |]. split; [exact Hcwd |].
  unfold mem_writeFileSync in Hwrite.
  destruct (stat w1 (full path)) as [c | [b |]] eqn:Hstat.
  - destruct (full path) as [| x rest] eqn:Hfull; [discriminate |].
    destruct (walk (entries w1) [] (removelast (resolve w1 (x :: rest))))
      as [c' | [b |]]; try discriminate.
    case_bool_decide as Hc; [| discriminate].
    case_bool_decide as Hslash; [discriminate |].
    injection Hwrite as <-. split; [| split; [reflexivity | exact Hcwd]].
    intros Hdirectory. unfold stat in Hstat. rewrite Hdirectory in Hstat. discriminate.
  - injection Hwrite as <-. split; [| split; [reflexivity | exact Hcwd]].
    apply stat_found in Hstat as [Hwalk _]. rewrite Hwalk. discriminate.
  - discriminate.
Qed.

(** X14.  A [write] that completes changes no other file: if [other]
    names a file of the disk, at a place other than the one [path] names,
    [read(other)] returns after the [write] what it returned before. *)
Theorem local_write_keeps_other_files (data path other fallback : JsString)
    (w w' : World) (b : list N) :
  Lfm.write this data path w = (Returned tt, w') ->
  stat w (full other) = inr (File b) ->
  resolve w (full path) <> resolve w (full other) ->
  fst (Lfm.read this other fallback w') = fst (Lfm.read this other fallback w).
Proof.
  intros Hwrite Hfile Hne.
  apply local_write_steps in Hwrite as (w1 & Hsub & Hcwd1 & Hnodir & Hentries & Hcwd).
  rewrite !local_read_stat, Hfile.
  assert (Hother : full other <> []) by (intros Hnil; rewrite Hnil in Hfile; discriminate).
  apply stat_found in Hfile as [Hwalk Hslash].
  rewrite (stat_file w' (full other) b); [reflexivity | exact Hother | eauto |].
  rewrite (resolve_cwd w' w _ Hcwd), Hentries.
  eapply (walk_file_unaffected (entries w1) _ (resolve w (full path))).
  - intros k Hk. apply lookup_insert_ne. congruence.
  - exact Hne.
  - exact Hnodir.
  - eapply walk_mono; eassumption.
Qed.

(** What [delete] does to the entries of the disk: it takes away the
    file the path names, and nothing when the path names no file. *)
Lemma local_delete_entries (path : JsString) (w : World) :
  cwd (snd (Lfm.delete this path w)) = cwd w
  /\ entries (snd (Lfm.delete this path w))
     = match stat w (full path) with
       | inr (File _) => base.delete (resolve w (full path)) (entries w)
       | _ => entries w
       end.
Proof.
  unfold Lfm.delete. cbn zeta. unfold try_catch, bind.
  cbn [NodeFs.unlinkSync mem_fs]. unfold mem_unlinkSync. cbn beta.
  destruct (stat w (full path)) as [c | [b |]].
  - destruct (bool_decide _); split; reflexivity.
  - split; reflexivity.
  - destruct (bool_decide _); split; reflexivity.
Qed.

(** X15.  [delete] removes one file at most.  If [path] names a
    directory the disk is left as it was; and if [other] names a file, at
    a place other than the one [path] names, [read(other)] returns after
    [delete(path)] what it returned before. *)
Theorem local_delete_keeps_other_files (path other fallback : JsString)
    (w : World) (b : list N) :
  (stat w (full path) = inr Directory ->
   entries (snd (Lfm.delete this path w)) = entries w)
  /\
  (stat w (full other) = inr (File b) ->
   resolve w (full path) <> resolve w (full other) ->
   fst (Lfm.read this other fallback (snd (Lfm.delete this path w)))
   = fst (Lfm.read this other fallback w)).
Proof.
  destruct (local_delete_entries path w) as [Hcwd Hentries]. split.
  - intros Hdir. rewrite Hentries, Hdir. reflexivity.
  - intros Hfile Hne. rewrite !local_read_stat, Hfile.
    assert (Hother : full other <> [])
      by (intros Hnil; rewrite Hnil in Hfile; discriminate).
    apply stat_found in Hfile as [Hwalk Hslash].
    rewrite (stat_file _ (full other) b); [reflexivity | exact Hother | eauto |].
    rewrite (resolve_cwd _ w _ Hcwd), Hentries.
    destruct (stat w (full path)) as [c | [b0 |]] eqn:Hstat; try exact Hwalk.
    apply stat_found in Hstat as [Hwalk0 _].
    eapply (walk_file_unaffected (entries w) _ (resolve w (full path)));
      [| exact Hne | | exact Hwalk].
    + intros k Hk. apply lookup_delete_ne. congruence.
    + rewrite Hwalk0. discriminate.
Qed.

(** X16.  [exists(path)] returns [true] after a [write] to the path that
    completed.  After [delete(path)] it returns [true] exactly when the
    path names a directory, which [delete] does not remove; a path that
    named a file, or nothing, does not exist afterwards. *)
Theorem local_exists_after (data path : JsString) (w : World) :
  (forall w', Lfm.write this data path w = (Returned tt, w') ->
              fst (Lfm.exists_ this path w') = Returned true)
  /\
  fst (Lfm.exists_ this path (snd (Lfm.delete this path w)))
  = Returned (match stat w (full path) with inr Directory => true | _ => false end).
Proof.
  split.
  - intros w' Hwrite.
    apply local_write_inv in Hwrite as (w1 & w2 & Hwritten & He & Hc).
    apply writeFileSync_stat in Hwritten.
    unfold Lfm.exists_. cbn [NodeFs.existsSync mem_fs]. unfold mem_existsSync.
    rewrite (stat_ext w' w2 _ He Hc), Hwritten. reflexivity.
  - unfold Lfm.exists_. cbn [NodeFs.existsSync mem_fs]. unfold mem_existsSync. cbn [fst].
    destruct (local_delete_entries path w) as [Hcwd Hentries].
    destruct (stat w (full path)) as [c | [b |]] eqn:Hstat.
    + rewrite (stat_ext _ w _ Hentries Hcwd), Hstat. reflexivity.
    + pose proof (local_delete_stat this path w) as Hgone.
      destruct (stat (snd (Lfm.delete this path w)) (full path)) as [c | [b' |]] eqn:Hafter;
        [reflexivity | exfalso; apply (Hgone b'); reflexivity |].
      exfalso. apply stat_found in Hafter as [Hwalk _].
      apply stat_found in Hstat as [Hwalk0 _].
      assert (Hne : resolve w (full path) <> []).
      { intros Hroot. rewrite Hroot, walk_root in Hwalk0. discriminate. }
      rewrite (resolve_cwd _ w _ Hcwd), Hentries in Hwalk.
      rewrite (walk_delete (entries w) _ _ Hne Hwalk0) in Hwalk. discriminate.
    + rewrite (stat_ext _ w _ Hentries Hcwd), Hstat. reflexivity.
Qed.

End MemFsFrame.

(** X14 on the disk with the file [/data/sub/f]: writing [/data/g]. *)
Lemma local_write_g_keeps_sub_f :
  fst (Lfm.read MemFs.data_manager (js "sub/f") (js "fallback")
         (snd (Lfm.write MemFs.data_manager (js "b") (js "g") MemFs.one_file)))
  = fst (Lfm.read MemFs.data_manager (js "sub/f") (js "fallback") MemFs.one_file).
Proof.
  apply (local_write_keeps_other_files MemFs.data_manager (js "b") (js "g") (js "sub/f")
           (js "fallback") MemFs.one_file _ [97%N]).
  - vm_compute. reflexivity.
  - vm_compute. reflexivity.
  - vm_compute. discriminate.
Defined.

(** X15 on the same disk: [delete("sub")], where [sub] is a directory. *)
Lemma local_delete_sub_keeps_all :
  MemFs.entries (snd (Lfm.delete MemFs.data_manager (js "sub") MemFs.one_file))
    = MemFs.entries MemFs.one_file
  /\ fst (Lfm.read MemFs.data_manager (js "sub/f") (js "fallback")
            (snd (Lfm.delete MemFs.data_manager (js "sub") MemFs.one_file)))
     = fst (Lfm.read MemFs.data_manager (js "sub/f") (js "fallback") MemFs.one_file).
Proof.
  destruct (local_delete_keeps_other_files MemFs.data_manager (js "sub") (js "sub/f")
              (js "fallback") MemFs.one_file [97%N]) as [Hdir Hother].
  split.
  - apply Hdir. vm_compute. reflexivity.
  - apply Hother; [vm_compute; reflexivity | vm_compute; discriminate].
Defined.

(** X16 on the same disk. *)
Lemma local_exists_sub_f_and_sub :
  fst (Lfm.exists_ MemFs.data_manager (js "sub/f") MemFs.one_file) = Returned true
  /\ fst (Lfm.exists_ MemFs.data_manager (js "sub/f")
            (snd (Lfm.delete MemFs.data_manager (js "sub/f") MemFs.one_file)))
     = Returned false
  /\ fst (Lfm.exists_ MemFs.data_manager (js "sub")
            (snd (Lfm.delete MemFs.data_manager (js "sub") MemFs.one_file)))
     = Returned true.
Proof.
  split; [| split].
  - apply (proj1 (local_exists_after MemFs.data_manager (js "a") (js "sub/f") MemFs.empty)).
    vm_compute. reflexivity.
  - exact (proj2 (local_exists_after MemFs.data_manager (js "a") (js "sub/f") MemFs.one_file)).
  - exact (proj2 (local_exists_after MemFs.data_manager (js "a") (js "sub") MemFs.one_file)).
Defined.

(* ===================================================================== *)
(** * Regular expressions                                                 *)
(* ===================================================================== *)

Section RegexFacts.
Import Regex.










End RegexFacts.

(* ===================================================================== *)
(** * S3StorageManager: the folder the constructor accepts                *)
(* ===================================================================== *)

Section S3FolderFacts.
Import Regex S3Folder.

Abbreviation words := (Plus (Class S3m.word)).
Abbreviation group := (Seq (Opt (Chr 47)) words).
Abbreviation lead_of lead := (if lead then [47%N] else ([] : JsString)).


















End S3FolderFacts.


(* ===================================================================== *)
(** * S3StorageManager                                                    *)
(* ===================================================================== *)

Section S3Facts.
Context {W : Type} `{S3Sdk.S3 W} `{Console W}.
Variable this : S3m.t.

Abbreviation key_of_path p := (S3m.path this ++ p).

Lemma s3_read_cases (p __default : JsString) (w : W) :
  S3m.read this p __default w =
    match S3Sdk.getObject (S3m.bucketName this) (key_of_path p) w with
    | (Returned response, w') => (Returned (S3m.body_or response __default), w')
    | (Thrown error, w') =>
        if bool_decide (code error = Some (js "NoSuchKey")) then
          (Returned __default,
           console_print
             (LogLine [PText (js "File "); PText (key_of_path p);
                       PText (js " not found in bucket ");
                       PText (S3m.bucketName this); PText (js ".")]) w')
        else (Thrown error, w')
    end.
Proof.
  unfold S3m.read. cbn zeta. unfold try_catch, bind at 1.
  destruct (S3Sdk.getObject _ _ w) as [[response | error] w']; [reflexivity |].
  destruct (bool_decide _); reflexivity.
Qed.

Lemma s3_exists_cases (p : JsString) (w : W) :
  S3m.exists_ this p w =
    match S3Sdk.headObject (S3m.bucketName this) (key_of_path p) w with
    | (Returned _, w') => (Returned true, w')
    | (Thrown error, w') =>
        if bool_decide (code error = Some (js "NotFound")) then (Returned false, w')
        else (Thrown error, w')
    end.
Proof.
  unfold S3m.exists_. cbn zeta. unfold try_catch, bind at 1.
  destruct (S3Sdk.headObject _ _ w) as [[[] | error] w']; [reflexivity |].
  destruct (bool_decide _); reflexivity.
Qed.

Lemma s3_write_cases (data p : JsString) (w : W) :
  S3m.write this data p w =
    match S3Sdk.putObject data (S3m.bucketName this) (key_of_path p) w with
    | (Returned _, w') =>
        (Returned tt,
         console_print
           (LogLine [PText (js "File "); PText (key_of_path p);
                     PText (js " has been written successfully in bucket ");
                     PText (S3m.bucketName this); PText (js ".")]) w')
    | (Thrown error, w') => (Thrown error, w')
    end.
Proof.
  unfold S3m.write. cbn zeta. unfold bind.
  destruct (S3Sdk.putObject _ _ _ w) as [[[] | error] w']; reflexivity.
Qed.

Lemma s3_delete_cases (p : JsString) (w : W) :
  S3m.delete this p w =
    match S3Sdk.deleteObject (S3m.bucketName this) (key_of_path p) w with
    | (Returned _, w') =>
        (Returned tt,
         console_print
           (LogLine [PText (js "File "); PText (key_of_path p);
                     PText (js " deleted successfully from bucket ");
                     PText (S3m.bucketName this); PText (js ".")]) w')
    | (Thrown error, w') => (Thrown error, w')
    end.
Proof.
  unfold S3m.delete. cbn zeta. unfold bind.
  destruct (S3Sdk.deleteObject _ _ w) as [[[] | error] w']; reflexivity.
Qed.

(** X18.  What [S3StorageManager] does with the errors of the client.
    [read] turns [NoSuchKey] into the default value and [exists] turns
    [NotFound] into [false]; every other error of [getObject] and
    [headObject], and every error of [putObject] and [deleteObject], is
    thrown on as it is, with the world as the client left it and nothing
    printed. *)
Theorem s3_error_policy (data p __default : JsString) (w w' : W) (error : JsError) :
  (S3Sdk.getObject (S3m.bucketName this) (key_of_path p) w = (Thrown error, w') ->
   (code error = Some (js "NoSuchKey") ->
    fst (S3m.read this p __default w) = Returned __default)
   /\ (code error <> Some (js "NoSuchKey") ->
       S3m.read this p __default w = (Thrown error, w')))
  /\
  (S3Sdk.headObject (S3m.bucketName this) (key_of_path p) w = (Thrown error, w') ->
   (code error = Some (js "NotFound") -> S3m.exists_ this p w = (Returned false, w'))
   /\ (code error <> Some (js "NotFound") -> S3m.exists_ this p w = (Thrown error, w')))
  /\
  (S3Sdk.putObject data (S3m.bucketName this) (key_of_path p) w = (Thrown error, w') ->
   S3m.write this data p w = (Thrown error, w'))
  /\
  (S3Sdk.deleteObject (S3m.bucketName this) (key_of_path p) w = (Thrown error, w') ->
   S3m.delete this p w = (Thrown error, w')).
Proof.
  rewrite s3_read_cases, s3_exists_cases, s3_write_cases, s3_delete_cases.
  split; [| split; [| split]].
  - intros ->. split; intros Hcode.
    + rewrite (bool_decide_eq_true_2 _ Hcode). reflexivity.
    + rewrite (bool_decide_eq_false_2 _ Hcode). reflexivity.
  - intros ->. split; intros Hcode.
    + rewrite (bool_decide_eq_true_2 _ Hcode). reflexivity.
    + rewrite (bool_decide_eq_false_2 _ Hcode). reflexivity.
  - intros ->. reflexivity.
  - intros ->. reflexivity.
Qed.

End S3Facts.

Section S3InMemory.
Import MemS3.
Variable this : S3m.t.

Abbreviation key p := (S3m.path this ++ p).

Lemma mem_s3_write (data p : JsString) (w : World) (objs : gmap JsString (list N)) :
  MemS3.objects this w = Some objs ->
  fst (S3m.write this data p w) = Returned tt
  /\ MemS3.objects this (snd (S3m.write this data p w))
     = Some (<[key p := Utf8.encode data]> objs).
Proof.
  unfold MemS3.objects. intros Hb. rewrite s3_write_cases.
  cbn [S3Sdk.putObject mem_s3]. unfold mem_putObject. rewrite Hb.
  split; [reflexivity |]. cbn [snd]. unfold console_print, mem_console.
  cbn [buckets set_buckets]. apply lookup_insert_eq.
Qed.

Lemma mem_s3_delete (p : JsString) (w : World) (objs : gmap JsString (list N)) :
  MemS3.objects this w = Some objs ->
  fst (S3m.delete this p w) = Returned tt
  /\ MemS3.objects this (snd (S3m.delete this p w)) = Some (base.delete (key p) objs).
Proof.
  unfold MemS3.objects. intros Hb. rewrite s3_delete_cases.
  cbn [S3Sdk.deleteObject mem_s3]. unfold mem_deleteObject. rewrite Hb.
  split; [reflexivity |]. cbn [snd]. unfold console_print, mem_console.
  cbn [buckets set_buckets]. apply lookup_insert_eq.
Qed.

Lemma mem_s3_read (p __default : JsString) (w : World) (objs : gmap JsString (list N)) :
  MemS3.objects this w = Some objs ->
  fst (S3m.read this p __default w)
  = Returned (match objs !! key p with
              | Some bytes =>
                  match Utf8.decode bytes with [] => __default | text => text end
              | None => __default
              end).
Proof.
  unfold MemS3.objects. intros Hb. rewrite s3_read_cases.
  cbn [S3Sdk.getObject mem_s3]. unfold mem_getObject. rewrite Hb.
  match goal with
  | |- context [match ?x with Some _ => _ | None => (Thrown NoSuchKey, w) end] =>
      change x with (objs !! key p)
  end.
  destruct (objs !! key p) as [bytes |]; reflexivity.
Qed.

Lemma mem_s3_exists (p : JsString) (w : World) (objs : gmap JsString (list N)) :
  MemS3.objects this w = Some objs ->
  fst (S3m.exists_ this p w) = Returned (bool_decide (is_Some (objs !! key p))).
Proof.
  unfold MemS3.objects. intros Hb. rewrite s3_exists_cases.
  cbn [S3Sdk.headObject mem_s3]. unfold mem_headObject. rewrite Hb.
  match goal with
  | |- context [match ?x with Some _ => _ | None => (Thrown NotFound, w) end] =>
      change x with (objs !! key p)
  end.
  destruct (objs !! key p) as [bytes |].
  - rewrite bool_decide_eq_true_2 by eauto. reflexivity.
  - rewrite (bool_decide_eq_false_2 (is_Some (@None (list N))))
      by (intros [? ?]; discriminate).
    reflexivity.
Qed.

(** X19.  In a bucket that exists, [write(d, p)] completes and a
    [read(p, fallback)] after it returns [d], for every well-formed [d]
    but the empty string: an empty object reads back as the fallback. *)
Theorem s3_round_trip (data p fallback : JsString) (w : World)
    (objs : gmap JsString (list N)) :
  MemS3.objects this w = Some objs ->
  Utf8.well_formed data = true ->
  fst (S3m.write this data p w) = Returned tt
  /\ fst (S3m.read this p fallback (snd (S3m.write this data p w)))
     = Returned (match data with [] => fallback | _ => data end).
Proof.
  intros Hb Hwf. destruct (mem_s3_write data p w objs Hb) as [Hdone Hafter].
  split; [exact Hdone |].
  rewrite (mem_s3_read p fallback _ _ Hafter), lookup_insert_eq.
  rewrite (decode_encode_well_formed data Hwf). destruct data; reflexivity.
Qed.

(** X20.  In a bucket that exists: [exists(p)] is [true] after
    [write(d, p)]; [delete(p)] completes whether or not there is an
    object at [p], and after it [exists(p)] is [false] and [read(p,
    fallback)] returns the fallback; and none of the three changes what
    [exists] and [read] answer for another path. *)
Theorem s3_exists_delete (data p other fallback : JsString) (w : World)
    (objs : gmap JsString (list N)) :
  MemS3.objects this w = Some objs ->
  fst (S3m.exists_ this p (snd (S3m.write this data p w))) = Returned true
  /\ fst (S3m.delete this p w) = Returned tt
  /\ fst (S3m.exists_ this p (snd (S3m.delete this p w))) = Returned false
  /\ fst (S3m.read this p fallback (snd (S3m.delete this p w))) = Returned fallback
  /\ (other <> p ->
      fst (S3m.read this other fallback (snd (S3m.write this data p w)))
        = fst (S3m.read this other fallback w)
      /\ fst (S3m.read this other fallback (snd (S3m.delete this p w)))
         = fst (S3m.read this other fallback w)
      /\ fst (S3m.exists_ this other (snd (S3m.write this data p w)))
         = fst (S3m.exists_ this other w)
      /\ fst (S3m.exists_ this other (snd (S3m.delete this p w)))
         = fst (S3m.exists_ this other w)).
Proof.
  intros Hb. destruct (mem_s3_write data p w objs Hb) as [_ Hwritten].
  destruct (mem_s3_delete p w objs Hb) as [Hdone Hdeleted].
  split; [| split; [exact Hdone | split; [| split]]].
  - rewrite (mem_s3_exists p _ _ Hwritten), lookup_insert_eq.
    rewrite bool_decide_eq_true_2 by eauto. reflexivity.
  - rewrite (mem_s3_exists p _ _ Hdeleted), lookup_delete_eq.
    rewrite bool_decide_eq_false_2 by (intros [? ?]; discriminate). reflexivity.
  - rewrite (mem_s3_read p fallback _ _ Hdeleted), lookup_delete_eq. reflexivity.
  - intros Hne.
    assert (Hkey : key p <> key other) by (intros Heq; apply app_inv_head in Heq; congruence).
    rewrite (mem_s3_read other fallback _ _ Hwritten), (mem_s3_read other fallback _ _ Hdeleted),
      (mem_s3_read other fallback _ _ Hb), (mem_s3_exists other _ _ Hwritten),
      (mem_s3_exists other _ _ Hdeleted), (mem_s3_exists other _ _ Hb).
    rewrite lookup_insert_ne by exact Hkey. rewrite lookup_delete_ne by exact Hkey.
    repeat split.
Qed.

End S3InMemory.

(** X18 at a bucket that does not exist: [NoSuchBucket] comes out of
    [read], [write] and [delete], while [exists] answers [false]. *)
Lemma s3_missing_bucket :
  let w := MemS3.fresh (js "other") in
  S3m.read MemS3.files_manager (js "x") (js "fallback") w = (Thrown MemS3.NoSuchBucket, w)
  /\ S3m.exists_ MemS3.files_manager (js "x") w = (Returned false, w)
  /\ S3m.write MemS3.files_manager (js "d") (js "x") w = (Thrown MemS3.NoSuchBucket, w)
  /\ S3m.delete MemS3.files_manager (js "x") w = (Thrown MemS3.NoSuchBucket, w).
Proof.
  cbn zeta.
  destruct (s3_error_policy MemS3.files_manager (js "d") (js "x") (js "fallback")
              (MemS3.fresh (js "other")) (MemS3.fresh (js "other")) MemS3.NoSuchBucket)
    as (Hread & _ & Hwrite & Hdelete).
  destruct (s3_error_policy MemS3.files_manager (js "d") (js "x") (js "fallback")
              (MemS3.fresh (js "other")) (MemS3.fresh (js "other")) MemS3.NotFound)
    as (_ & Hexists & _).
  split; [| split; [| split]].
  - apply (proj2 (Hread eq_refl)). vm_compute. discriminate.
  - apply (proj1 (Hexists eq_refl)). reflexivity.
  - apply Hwrite. reflexivity.
  - apply Hdelete. reflexivity.
Defined.

(** X19 in the bucket [files]: a text, and the empty text. *)
Lemma s3_round_trip_hello_and_empty :
  fst (S3m.read MemS3.files_manager (js "x") (js "fallback")
         (snd (S3m.write MemS3.files_manager (js "hello") (js "x") (MemS3.fresh (js "files")))))
    = Returned (js "hello")
  /\ fst (S3m.read MemS3.files_manager (js "x") (js "fallback")
            (snd (S3m.write MemS3.files_manager [] (js "x") (MemS3.fresh (js "files")))))
     = Returned (js "fallback").
Proof.
  split.
  - apply (proj2 (s3_round_trip MemS3.files_manager (js "hello") (js "x") (js "fallback")
                    (MemS3.fresh (js "files")) ∅ eq_refl eq_refl)).
  - apply (proj2 (s3_round_trip MemS3.files_manager [] (js "x") (js "fallback")
                    (MemS3.fresh (js "files")) ∅ eq_refl eq_refl)).
Defined.

(** X20 in the bucket [files]. *)
Lemma s3_exists_delete_x :
  fst (S3m.exists_ MemS3.files_manager (js "x")
         (snd (S3m.write MemS3.files_manager (js "d") (js "x") (MemS3.fresh (js "files")))))
    = Returned true
  /\ fst (S3m.delete MemS3.files_manager (js "x") (MemS3.fresh (js "files"))) = Returned tt
  /\ fst (S3m.exists_ MemS3.files_manager (js "x")
            (snd (S3m.delete MemS3.files_manager (js "x") (MemS3.fresh (js "files")))))
     = Returned false.
Proof.
  destruct (s3_exists_delete MemS3.files_manager (js "d") (js "x") (js "y") (js "fallback")
              (MemS3.fresh (js "files")) ∅ eq_refl) as (Hexists & Hdone & Hgone & _).
  split; [exact Hexists |]. split; [exact Hdone | exact Hgone].
Defined.

(* ===================================================================== *)
(** * DynamoStorageManager                                                *)
(* ===================================================================== *)

Section DynamoStorageFacts.
Context {W : Type} `{AWS.DocumentClient W} `{Clock W}.
Variable this : Dsm.t.


Lemma dsm_read_cases (p __default : JsString) (w : W) :
  Dsm.read this p __default w
  = match AWS.get (Dsm.get_params this p) w with
    | (Returned result, w') =>
        (Returned (Dsm.read_result (AWS.Item result) p __default), w')
    | (Thrown e, w') => (Thrown e, w')
    end.
Proof. reflexivity. Qed.

Lemma dsm_exists_cases (p : JsString) (w : W) :
  Dsm.exists_ this p w
  = match AWS.get (Dsm.get_params this p) w with
    | (Returned result, w') => (Returned (bool_decide (is_Some (AWS.Item result))), w')
    | (Thrown e, w') => (Thrown e, w')
    end.
Proof. reflexivity. Qed.

(** X21.  [read] and [exists] of the DynamoDB storage manager have no
    handler: whatever error the client's [get] rejects with comes out of
    them unchanged, with the world the client left.  The fallback of
    [read] stands in for a missing item only, never for an error. *)
Theorem dynamo_storage_read_rethrows (p fallback : JsString) (w : W) (e : JsError) :
  fst (AWS.get (Dsm.get_params this p) w) = Thrown e ->
  Dsm.read this p fallback w = (Thrown e, snd (AWS.get (Dsm.get_params this p) w))
  /\ Dsm.exists_ this p w = (Thrown e, snd (AWS.get (Dsm.get_params this p) w)).
Proof.
  intros Hget. rewrite dsm_read_cases, dsm_exists_cases.
  destruct (AWS.get (Dsm.get_params this p) w) as [[result | e'] w'];
    cbn [fst snd] in *; [discriminate |].
  injection Hget as ->. split; reflexivity.
Qed.

End DynamoStorageFacts.

Section DynamoStorageInMemory.
Import MemTables.
Variable this : Dsm.t.

Abbreviation attributes data p :=
  (match Dsm.appendPreWrite (Dsm.params this) with
   | Some f => f data p
   | None => ∅
   end).



Lemma key_of_path (table : Table) (item : AWS.ItemMap) (p : JsString) :
  partition_key table = js "path" ->
  item !! js "path" = Some (AWS.AttrS p) ->
  p <> [] ->
  key_of table item = Some p.
Proof.
  intros Hk Hp Hne. unfold key_of. rewrite Hk, Hp.
  destruct p; [contradiction | reflexivity].
Qed.










End DynamoStorageInMemory.

(** X21 at an endpoint without the table. *)
Lemma dynamo_storage_missing_table :
  let w := MemTables.mkWorld ∅ 0 [] in
  Dsm.read MemTables.test_manager (js "123123.json") (js "none") w
  = (Thrown DynamoDB.ResourceNotFoundException, w)
  /\ Dsm.exists_ MemTables.test_manager (js "123123.json") w
     = (Thrown DynamoDB.ResourceNotFoundException, w).
Proof.
  exact (dynamo_storage_read_rethrows MemTables.test_manager (js "123123.json")
           (js "none") (MemTables.mkWorld ∅ 0 []) _ eq_refl).
Defined.




(* ===================================================================== *)
(** * [includes]                                                          *)
(* ===================================================================== *)

Section JsTextFacts.
Import JsText.

Lemma startsWith_spec (search s : JsString) :
  startsWith s search = true <-> exists after : JsString, s = search ++ after.
Proof.
  revert s. induction search as [| c search IH]; intros s.
  - cbn. split; [intros _; exists s; reflexivity | reflexivity].
  - destruct s as [| d s]; cbn [startsWith app].
    + split; [discriminate | intros [after Habs]; discriminate].
    + rewrite andb_true_iff, N.eqb_eq, IH. split.
      * intros [-> [after ->]]. exists after. reflexivity.
      * intros [after [= -> ->]]. split; [reflexivity | exists after; reflexivity].
Qed.

(** [s.includes(search)] holds exactly when [search] occurs in [s]. *)
Lemma includes_spec (s search : JsString) :
  includes s search = true <-> occurs_in search s.
Proof.
  unfold occurs_in. induction s as [| d s IH]; cbn [includes].
  - rewrite orb_false_r, startsWith_spec. split.
    + intros [after ->]. exists [], after. reflexivity.
    + intros (before & after & Heq). destruct before; [| discriminate].
      exists after. exact Heq.
  - rewrite orb_true_iff, startsWith_spec, IH. split.
    + intros [[after ->] | (before & after & ->)].
      * exists [], after. reflexivity.
      * exists (d :: before), after. reflexivity.
    + intros (before & after & Heq). destruct before as [| d' before].
      * left. exists after. exact Heq.
      * right. injection Heq as -> ->. exists before, after. reflexivity.
Qed.

Lemma includes_cases (s search : JsString) :
  (occurs_in search s /\ includes s search = true)
  \/ (~ occurs_in search s /\ includes s search = false).
Proof.
  destruct (includes s search) eqn:Hin.
  - left. split; [apply includes_spec, Hin | reflexivity].
  - right. split; [| reflexivity]. intros Hocc. apply includes_spec in Hocc. congruence.
Qed.

End JsTextFacts.

(* ===================================================================== *)
(** * Chunks of UTF-8                                                     *)
(* ===================================================================== *)

Section Utf8Chunks.
Import Utf8.
Open Scope N_scope.

Lemma not_surrogate_scalar (c : N) :
  is_high_surrogate c = false -> is_low_surrogate c = false -> c < 0x10000 ->
  c < 0xD800 \/ 0xE000 <= c < 0x110000.
Proof.
  intros Hhigh Hlow Hbmp.
  destruct (N.lt_ge_cases c 0xD800) as [Hlt | Hge]; [left; exact Hlt | right].
  destruct (N.lt_ge_cases c 0xDC00) as [Hlt' | Hge'].
  - assert (is_high_surrogate c = true) by (apply is_high_surrogate_range; lia).
    congruence.
  - destruct (N.lt_ge_cases c 0xE000) as [Hlt'' | Hge'']; [| lia].
    assert (is_low_surrogate c = true) by (apply is_low_surrogate_range; lia).
    congruence.
Qed.

(** The bytes of a well-formed string are read back whatever follows
    them. *)
Lemma decode_encode_app (s : JsString) (bs : list N) :
  well_formed s = true -> decode (encode s ++ bs) = s ++ decode bs.
Proof.
  remember (length s) as n eqn:Hn. revert s Hn.
  induction n as [n IH] using lt_wf_ind. intros s Hn Hwf.
  destruct s as [| c rest]; [reflexivity |].
  cbn [well_formed encode] in *.
  destruct (is_high_surrogate c) eqn:Hhigh.
  - destruct rest as [| d rest']; [discriminate |].
    apply andb_true_iff in Hwf as [Hlow Hwf]. rewrite Hlow.
    pose proof Hhigh as Hc. pose proof Hlow as Hd.
    apply is_high_surrogate_range in Hc. apply is_low_surrogate_range in Hd.
    rewrite <- app_assoc, decode_encode_code_point by lia.
    rewrite code_units_pair by assumption. cbn [app].
    rewrite (IH (length rest')) by (cbn in Hn; (lia || done)). reflexivity.
  - apply andb_true_iff in Hwf as [Hwf Hrest].
    apply andb_true_iff in Hwf as [Hnotlow Hbmp].
    apply negb_true_iff in Hnotlow. rewrite Hnotlow.
    apply N.ltb_lt in Hbmp.
    rewrite <- app_assoc,
      decode_encode_code_point by (apply not_surrogate_scalar; assumption).
    rewrite code_units_bmp by exact Hbmp. cbn [app].
    rewrite (IH (length rest)) by (cbn in Hn; (lia || done)). reflexivity.
Qed.

(** The bytes of a text that follows a well-formed one follow its
    bytes. *)
Lemma encode_app (s t : JsString) :
  well_formed s = true -> encode (s ++ t) = encode s ++ encode t.
Proof.
  remember (length s) as n eqn:Hn. revert s Hn.
  induction n as [n IH] using lt_wf_ind. intros s Hn Hwf.
  destruct s as [| c rest]; [reflexivity |].
  cbn [well_formed] in Hwf.
  destruct (is_high_surrogate c) eqn:Hhigh.
  - destruct rest as [| d rest']; [discriminate |].
    apply andb_true_iff in Hwf as [Hlow Hwf].
    cbn [app encode]. rewrite Hhigh, Hlow.
    rewrite (IH (length rest')) by (cbn in Hn; (lia || done)).
    rewrite app_assoc. reflexivity.
  - apply andb_true_iff in Hwf as [Hwf Hrest].
    apply andb_true_iff in Hwf as [Hnotlow Hbmp].
    apply negb_true_iff in Hnotlow.
    cbn [app encode]. rewrite Hhigh, Hnotlow.
    rewrite (IH (length rest)) by (cbn in Hn; (lia || done)).
    rewrite app_assoc. reflexivity.
Qed.

Lemma below_surrogates (c : N) :
  c < 0xD800 -> is_high_surrogate c = false /\ is_low_surrogate c = false.
Proof.
  intros Hc. unfold is_high_surrogate, is_low_surrogate.
  rewrite (proj2 (N.leb_gt 0xD800 c)), (proj2 (N.leb_gt 0xDC00 c)) by lia.
  split; reflexivity.
Qed.

(** The first byte of a two-byte character, with nothing after it. *)
Lemma decode_lead_alone (b : N) : 0xC2 <= b <= 0xDF -> decode [b] = [replacement].
Proof.
  intros Hb. cbn [decode].
  rewrite (proj2 (N.ltb_ge b 0x80)) by lia.
  rewrite between_true by lia. reflexivity.
Qed.

(** A continuation byte where a character should start. *)
Lemma decode_continuation_first (b : N) (bs : list N) :
  0x80 <= b <= 0xBF -> decode (b :: bs) = replacement :: decode bs.
Proof.
  intros Hb. cbn [decode].
  rewrite (proj2 (N.ltb_ge b 0x80)) by lia.
  rewrite !between_false by lia. reflexivity.
Qed.

Lemma take_past (l : list N) (x : N) (r : list N) :
  take (S (length l)) (l ++ x :: r) = l ++ [x].
Proof.
  induction l as [| y l IH]; cbn [length app take]; [by rewrite take_0 |].
  by rewrite IH.
Qed.

Lemma drop_past (l : list N) (x : N) (r : list N) :
  drop (S (length l)) (l ++ x :: r) = r.
Proof. induction l as [| y l IH]; cbn [length app drop]; [by rewrite drop_0 | exact IH]. Qed.

(** The bytes of a text with a two-byte character in it, cut after the
    first byte of that character. *)
Lemma encode_cut (s1 s2 : JsString) (c : N) :
  well_formed s1 = true -> 0x80 <= c < 0x800 ->
  take (S (length (encode s1))) (encode (s1 ++ c :: s2)) = encode s1 ++ [0xC0 + c / 64]
  /\ drop (S (length (encode s1))) (encode (s1 ++ c :: s2))
     = (0x80 + c mod 64) :: encode s2.
Proof.
  intros Hwf Hc. rewrite (encode_app s1 (c :: s2) Hwf). cbn [encode].
  destruct (below_surrogates c) as [-> ->]; [lia |].
  rewrite encode_2 by exact Hc. cbn [app].
  split; [apply take_past |].
  rewrite (drop_past (encode s1) (0xC0 + c / 64) ((0x80 + c mod 64) :: encode s2)).
  reflexivity.
Qed.

End Utf8Chunks.

(* ===================================================================== *)
(** * AzureBlobStorageManager                                             *)
(* ===================================================================== *)

Section AzureFacts.
Context {W : Type} `{AzureBlob.ContainerClient W}.

Abbreviation streaming cs fail :=
  {| AzureBlob.readableStreamBody :=
       Some {| AzureBlob.chunks := cs; AzureBlob.failure := fail |} |}.

Abbreviation not_there e := (JsText.occurs_in Abm.blob_missing (message e)).

Lemma streamToString_fold (cs : list (list N)) (acc : JsString) :
  fold_left (fun data chunk => data ++ Utf8.decode chunk) cs acc
  = acc ++ concat (map Utf8.decode cs).
Proof.
  revert acc. induction cs as [| chunk cs IH]; intros acc; cbn [fold_left map concat].
  - symmetry. apply app_nil_r.
  - rewrite IH, app_assoc. reflexivity.
Qed.

Lemma azure_read_download_thrown (p __default : JsString) (w w' : W) (e : JsError) :
  AzureBlob.download p 0 w = (Thrown e, w') ->
  Abm.read p __default w
  = if JsText.includes (message e) Abm.blob_missing
    then (Returned {| Abm.data := __default; Abm.path := p |}, w')
    else (Thrown e, w').
Proof.
  intros Hdl. unfold Abm.read, try_catch, bind. rewrite Hdl.
  destruct (JsText.includes _ _); reflexivity.
Qed.

Lemma azure_read_stream (p __default : JsString) (w w' : W) (cs : list (list N))
    (fail : option JsError) :
  AzureBlob.download p 0 w = (Returned (streaming cs fail), w') ->
  Abm.read p __default w
  = match fail with
    | None =>
        (Returned {| Abm.data := concat (map Utf8.decode cs); Abm.path := p |}, w')
    | Some e =>
        if JsText.includes (message e) Abm.blob_missing
        then (Returned {| Abm.data := __default; Abm.path := p |}, w')
        else (Thrown e, w')
    end.
Proof.
  intros Hdl. unfold Abm.read, try_catch, bind. rewrite Hdl.
  cbn [AzureBlob.readableStreamBody]. unfold Abm.streamToString.
  cbn [AzureBlob.chunks AzureBlob.failure]. rewrite streamToString_fold.
  destruct fail as [e |]; cbn [ret throw app].
  - destruct (JsText.includes _ _); reflexivity.
  - reflexivity.
Qed.

Lemma azure_delete_cases (p : JsString) (w : W) :
  Abm.delete p w
  = match AzureBlob.delete p w with
    | (Returned v, w') => (Returned v, w')
    | (Thrown e, w') =>
        if JsText.includes (message e) Abm.blob_missing
        then (Returned tt, w')
        else (Thrown e, w')
    end.
Proof.
  unfold Abm.delete, try_catch.
  destruct (AzureBlob.delete p w) as [[v | e] w']; [reflexivity |].
  destruct (JsText.includes _ _); reflexivity.
Qed.

(** X25.  What [AzureBlobStorageManager] does with errors.  An error of
    [download], or one the stream of the body emits, makes [read] return
    the default value when the text [The specified blob does not exist]
    occurs in its message, and is thrown on otherwise; [delete] completes
    on an error of the client with that text in its message and throws
    every other one on; [exists] and [write] throw every error on. *)
Theorem azure_error_policy (data p fallback : JsString) (w w' : W) (e : JsError) :
  ((AzureBlob.download p 0 w = (Thrown e, w')
    \/ exists cs, AzureBlob.download p 0 w = (Returned (streaming cs (Some e)), w')) ->
   (not_there e ->
    Abm.read p fallback w = (Returned {| Abm.data := fallback; Abm.path := p |}, w'))
   /\ (~ not_there e -> Abm.read p fallback w = (Thrown e, w')))
  /\
  (AzureBlob.delete p w = (Thrown e, w') ->
   (not_there e -> Abm.delete p w = (Returned tt, w'))
   /\ (~ not_there e -> Abm.delete p w = (Thrown e, w')))
  /\
  (AzureBlob.exists_ p w = (Thrown e, w') -> Abm.exists_ p w = (Thrown e, w'))
  /\
  (AzureBlob.upload p data (Z.of_nat (length data)) w = (Thrown e, w') ->
   Abm.write data p w = (Thrown e, w')).
Proof.
  split; [| split; [| split]].
  - intros Hdl.
    assert (Hread : Abm.read p fallback w
                    = if JsText.includes (message e) Abm.blob_missing
                      then (Returned {| Abm.data := fallback; Abm.path := p |}, w')
                      else (Thrown e, w')).
    { destruct Hdl as [Hdl | [cs Hdl]].
      - exact (azure_read_download_thrown p fallback w w' e Hdl).
      - exact (azure_read_stream p fallback w w' cs (Some e) Hdl). }
    rewrite Hread.
    destruct (includes_cases (message e) Abm.blob_missing) as [[Hocc ->] | [Hocc ->]];
      split; intros Hcase; (reflexivity || contradiction).
  - intros Hdel. rewrite azure_delete_cases, Hdel.
    destruct (includes_cases (message e) Abm.blob_missing) as [[Hocc ->] | [Hocc ->]];
      split; intros Hcase; (reflexivity || contradiction).
  - intros Hex. unfold Abm.exists_, bind. rewrite Hex. reflexivity.
  - intros Hup. unfold Abm.write. exact Hup.
Qed.

(** X26.  When the body of a blob arrives in chunks that each hold the
    bytes of a well-formed text, [read] returns these texts one after the
    other, and the path; an empty body is returned as the empty string,
    not as the default value.  A response without body gives the default
    value. *)
Theorem azure_read_whole_chunks (p fallback : JsString) (w w' : W)
    (parts : list JsString) :
  Forall (fun part => Utf8.well_formed part = true) parts ->
  AzureBlob.download p 0 w = (Returned (streaming (map Utf8.encode parts) None), w') ->
  Abm.read p fallback w = (Returned {| Abm.data := concat parts; Abm.path := p |}, w').
Proof.
  intros Hwf Hdl. rewrite (azure_read_stream p fallback w w' _ None Hdl).
  assert (concat (map Utf8.decode (map Utf8.encode parts)) = concat parts) as ->;
    [| reflexivity].
  clear Hdl. induction Hwf as [| part parts Hpart _ IH]; [reflexivity |].
  cbn [map concat]. rewrite (decode_encode_well_formed part Hpart), IH. reflexivity.
Qed.

(** X27.  When the bytes of a text arrive in two chunks, cut after the
    first byte of a two-byte character [c] of it, [read] returns the text
    with two replacement characters U+FFFD in the place of [c]:
    [streamToString] turns each chunk into a string on its own. *)
Theorem azure_read_cut_character (p fallback s1 s2 : JsString) (c : N) (w w' : W) :
  let bytes := Utf8.encode (s1 ++ c :: s2) in
  let n := S (length (Utf8.encode s1)) in
  Utf8.well_formed s1 = true -> Utf8.well_formed s2 = true ->
  (0x80 <= c < 0x800)%N ->
  AzureBlob.download p 0 w = (Returned (streaming [take n bytes; drop n bytes] None), w') ->
  Abm.read p fallback w
  = (Returned {| Abm.data := s1 ++ [Utf8.replacement; Utf8.replacement] ++ s2;
                 Abm.path := p |}, w').
Proof.
  cbn zeta. intros Hwf1 Hwf2 Hc Hdl.
  rewrite (azure_read_stream p fallback w w' _ None Hdl).
  destruct (encode_cut s1 s2 c Hwf1 Hc) as [-> ->].
  cbn [map concat]. rewrite (decode_encode_app s1 _ Hwf1).
  rewrite decode_lead_alone
    by (zify; Z.to_euclidean_division_equations; lia).
  rewrite decode_continuation_first
    by (zify; Z.to_euclidean_division_equations; lia).
  rewrite (decode_encode_well_formed s2 Hwf2), app_nil_r, <- app_assoc. reflexivity.
Qed.

End AzureFacts.

(** X25 at a missing blob and at a refused request. *)
Lemma azure_missing_and_refused :
  let missing := ScriptedBlob.failing ScriptedBlob.BlobNotFound in
  let refused := ScriptedBlob.failing ScriptedBlob.AuthorizationFailure in
  Abm.read (js "x") (js "fallback") missing
  = (Returned {| Abm.data := js "fallback"; Abm.path := js "x" |}, missing)
  /\ Abm.read (js "x") (js "fallback") refused
     = (Thrown ScriptedBlob.AuthorizationFailure, refused)
  /\ Abm.delete (js "x") missing = (Returned tt, missing)
  /\ Abm.delete (js "x") refused = (Thrown ScriptedBlob.AuthorizationFailure, refused)
  /\ Abm.exists_ (js "x") missing = (Thrown ScriptedBlob.BlobNotFound, missing).
Proof.
  cbn zeta.
  destruct (azure_error_policy (js "d") (js "x") (js "fallback")
              (ScriptedBlob.failing ScriptedBlob.BlobNotFound)
              (ScriptedBlob.failing ScriptedBlob.BlobNotFound) ScriptedBlob.BlobNotFound)
    as (Hread & Hdelete & Hexists & _).
  destruct (azure_error_policy (js "d") (js "x") (js "fallback")
              (ScriptedBlob.failing ScriptedBlob.AuthorizationFailure)
              (ScriptedBlob.failing ScriptedBlob.AuthorizationFailure)
              ScriptedBlob.AuthorizationFailure)
    as (Hread' & Hdelete' & _).
  assert (Hthere : JsText.occurs_in Abm.blob_missing (message ScriptedBlob.BlobNotFound)).
  { exists [], (js ". RequestId:0 Time:0"). reflexivity. }
  assert (Hnot : ~ JsText.occurs_in Abm.blob_missing
                     (message ScriptedBlob.AuthorizationFailure)).
  { intros Hocc. apply includes_spec in Hocc. vm_compute in Hocc. discriminate. }
  split; [| split; [| split; [| split]]].
  - exact (proj1 (Hread (or_introl eq_refl)) Hthere).
  - exact (proj2 (Hread' (or_introl eq_refl)) Hnot).
  - exact (proj1 (Hdelete eq_refl) Hthere).
  - exact (proj2 (Hdelete' eq_refl) Hnot).
  - exact (Hexists eq_refl).
Defined.

(** X26 with a body in two chunks, and with an empty body. *)
Lemma azure_read_two_chunks_and_none :
  Abm.read (js "x") (js "fallback")
    (ScriptedBlob.delivering [Utf8.encode (js "hello, "); Utf8.encode (js "world")])
  = (Returned {| Abm.data := js "hello, world"; Abm.path := js "x" |},
     ScriptedBlob.delivering [Utf8.encode (js "hello, "); Utf8.encode (js "world")])
  /\ Abm.read (js "x") (js "fallback") (ScriptedBlob.delivering [])
     = (Returned {| Abm.data := []; Abm.path := js "x" |}, ScriptedBlob.delivering []).
Proof.
  split.
  - apply (azure_read_whole_chunks (js "x") (js "fallback") _ _ [js "hello, "; js "world"]).
    + repeat constructor.
    + reflexivity.
  - apply (azure_read_whole_chunks (js "x") (js "fallback") _ _ []).
    + constructor.
    + reflexivity.
Defined.

(** X27 for the text [caf], U+00E9, [!], cut inside U+00E9. *)
Lemma azure_read_cafe_cut :
  let bytes := [0x63; 0x61; 0x66; 0xC3; 0xA9; 0x21]%N in
  Utf8.encode (js "caf" ++ [0xE9%N] ++ js "!") = bytes
  /\ Abm.read (js "x") (js "fallback")
       (ScriptedBlob.delivering [[0x63; 0x61; 0x66; 0xC3]; [0xA9; 0x21]]%N)
     = (Returned {| Abm.data := js "caf" ++ [0xFFFD; 0xFFFD]%N ++ js "!";
                    Abm.path := js "x" |},
        ScriptedBlob.delivering [[0x63; 0x61; 0x66; 0xC3]; [0xA9; 0x21]]%N).
Proof.
  split; [reflexivity |].
  apply (azure_read_cut_character (js "x") (js "fallback") (js "caf") (js "!") 0xE9%N).
  - reflexivity.
  - reflexivity.
  - lia.
  - reflexivity.
Defined.

(* ===================================================================== *)
(** * CosmosStorageManager                                                *)
(* ===================================================================== *)

Section CosmosFacts.
Context {W : Type} `{Cosmos.Client W} `{Clock W}.
Variable this : Csm.t.

Abbreviation db := (Csm.databaseId (Csm.params this)).
Abbreviation container := (Csm.containerId (Csm.params this)).
Abbreviation gone e := (JsText.occurs_in Csm.entity_missing (message e)).

(** X28.  What [CosmosStorageManager] does with errors.  [delete] asks
    for the item whose id and partition key are both the path; it
    completes on an error with the text [Entity with the specified id does
    not exist in the system.] in its message and throws every other error
    on.  [read] and [exists] throw every error of the client on: the
    default value of [read] stands in for a missing item only. *)
Theorem cosmos_error_policy (p fallback : JsString) (w w' : W) (e : JsError) :
  (Cosmos.item_delete db container p p w = (Thrown e, w') ->
   (gone e -> Csm.delete this p w = (Returned tt, w'))
   /\ (~ gone e -> Csm.delete this p w = (Thrown e, w')))
  /\
  (Cosmos.item_read db container p p w = (Thrown e, w') ->
   Csm.read this p fallback w = (Thrown e, w')
   /\ Csm.exists_ this p w = (Thrown e, w')).
Proof.
  split.
  - intros Hdel. unfold Csm.delete, try_catch. rewrite Hdel. cbn zeta.
    destruct (includes_cases (message e) Csm.entity_missing) as [[Hocc ->] | [Hocc ->]];
      split; intros Hcase; (reflexivity || contradiction).
  - intros Hread. unfold Csm.read, Csm.exists_, bind. rewrite Hread.
    split; reflexivity.
Qed.

(** X29.  [write(d, p)] upserts one document and does nothing else.  In
    that document [id] and [path] are both [p], [data] is [d] and
    [updatedAt] is the second of the call, whatever [appendPreWrite]
    returns under these four names; every other attribute is as
    [appendPreWrite] returns it. *)
Theorem cosmos_write_document (data p : JsString) (w : W) :
  exists doc : AWS.ItemMap,
    Csm.write this data p w = Cosmos.upsert db container doc w
    /\ doc !! js "id" = Some (AWS.AttrS p)
    /\ doc !! js "path" = Some (AWS.AttrS p)
    /\ doc !! js "data" = Some (AWS.AttrS data)
    /\ doc !! js "updatedAt" = Some (AWS.AttrN (Date_getTime w / 1000))
    /\ forall k : JsString,
         k <> js "id" -> k <> js "path" -> k <> js "data" -> k <> js "updatedAt" ->
         doc !! k
         = match Csm.appendPreWrite (Csm.params this) with
           | Some f => f data p
           | None => ∅
           end !! k.
Proof.
  exists (Csm.document this data p (Date_getTime w / 1000)).
  split; [reflexivity |]. unfold Csm.document.
  split; [| split; [| split; [| split]]].
  - rewrite !lookup_insert_ne by (intros Hx; vm_compute in Hx; discriminate).
    apply lookup_insert_eq.
  - rewrite !lookup_insert_ne by (intros Hx; vm_compute in Hx; discriminate).
    apply lookup_insert_eq.
  - rewrite lookup_insert_ne by (intros Hx; vm_compute in Hx; discriminate).
    apply lookup_insert_eq.
  - apply lookup_insert_eq.
  - intros k Hid Hp Hd Hu. rewrite !lookup_insert_ne by congruence. reflexivity.
Qed.

End CosmosFacts.

(** X28 at a missing item and at a refused request. *)
Lemma cosmos_missing_and_refused :
  let this := ScriptedCosmos.manager in
  let missing := ScriptedCosmos.mkWorld (Thrown ScriptedCosmos.NotFound) None 0 in
  let refused := ScriptedCosmos.mkWorld (Thrown ScriptedCosmos.Forbidden) None 0 in
  Csm.delete this (js "x") missing = (Returned tt, missing)
  /\ Csm.delete this (js "x") refused = (Thrown ScriptedCosmos.Forbidden, refused).
Proof.
  cbn zeta.
  destruct (cosmos_error_policy ScriptedCosmos.manager (js "x") []
              (ScriptedCosmos.mkWorld (Thrown ScriptedCosmos.NotFound) None 0)
              (ScriptedCosmos.mkWorld (Thrown ScriptedCosmos.NotFound) None 0)
              ScriptedCosmos.NotFound) as [Hmissing _].
  destruct (cosmos_error_policy ScriptedCosmos.manager (js "x") []
              (ScriptedCosmos.mkWorld (Thrown ScriptedCosmos.Forbidden) None 0)
              (ScriptedCosmos.mkWorld (Thrown ScriptedCosmos.Forbidden) None 0)
              ScriptedCosmos.Forbidden) as [Hrefused _].
  split.
  - apply (proj1 (Hmissing eq_refl)).
    exists (js "Message: {'Errors':['Resource Not Found. Learn more: https://aka.ms/cosmosdb-tsg-not-found']}, "), [].
    reflexivity.
  - apply (proj2 (Hrefused eq_refl)).
    intros Hocc. apply includes_spec in Hocc. vm_compute in Hocc. discriminate.
Defined.
